(** * BigQuery MCP server: query safety gate, catalog qualifier, resource mapper

    A shallow embedding of [src/index.ts].  JavaScript strings are sequences
    of UTF-16 code units; the two regular expressions of the source are kept
    as syntax trees and run by a backtracking matcher that follows the
    pattern semantics of ECMA-262 (section 22.2.2) for the constructs the
    source uses. *)

From Stdlib Require Import String Ascii List NArith Bool Arith Lia.
Import ListNotations.

Set Implicit Arguments.

(** ** JavaScript strings *)

Definition char16 := N.
Bind Scope N_scope with char16.
Definition jsstring := list char16.

(** A string literal of the source (all of them are ASCII). *)
Definition lit (s : string) : jsstring :=
  List.map N_of_ascii (list_ascii_of_string s).

Definition between (lo hi c : N) : bool := (N.leb lo c && N.leb c hi)%bool.

Definition is_upper (c : char16) : bool := between 65 90 c.
Definition is_lower (c : char16) : bool := between 97 122 c.
Definition is_digit (c : char16) : bool := between 48 57 c.

(** [\w] without the [u] flag: [A-Za-z0-9_]. *)
Definition is_word (c : char16) : bool :=
  (is_lower c || is_upper c || is_digit c || N.eqb c 95)%bool.

(** [\s]: the WhiteSpace and LineTerminator code points of ECMA-262. *)
Definition is_space (c : char16) : bool :=
  (between 9 13 c || N.eqb c 32 || N.eqb c 160 || N.eqb c 5760
   || between 8192 8202 c || N.eqb c 8232 || N.eqb c 8233 || N.eqb c 8239
   || N.eqb c 8287 || N.eqb c 12288 || N.eqb c 65279)%bool.

(** Canonicalize of ECMA-262 for a pattern with the [i] flag and without
    the [u] flag.  A code unit below 128 is upper-cased.  For a code unit
    from 128 on, the standard never returns a code unit below 128, so its
    comparison with an ASCII pattern character fails whatever its upper
    case is; both patterns of the source are ASCII, and the model leaves
    such code units as they are. *)
Definition canonicalize (ignoreCase : bool) (c : char16) : char16 :=
  if (ignoreCase && is_lower c)%bool then (c - 32)%N else c.

(** Strict equality of strings. *)
Fixpoint str_eqb (a b : jsstring) : bool :=
  match a, b with
  | [], [] => true
  | x :: a', y :: b' => (N.eqb x y && str_eqb a' b')%bool
  | _, _ => false
  end.

(** [String.prototype.startsWith]. *)
Fixpoint startsWith (s p : jsstring) : bool :=
  match p, s with
  | [], _ => true
  | _ :: _, [] => false
  | a :: p', b :: s' => (N.eqb a b && startsWith s' p')%bool
  end.

(** [String.prototype.includes]. *)
Fixpoint includes (s p : jsstring) : bool :=
  (startsWith s p ||
   match s with
   | [] => false
   | _ :: s' => includes s' p
   end)%bool.

(** [String.prototype.split] with a separator of one code unit: the list of
    pieces is never empty. *)
Fixpoint split (sep : char16) (s : jsstring) : list jsstring :=
  match s with
  | [] => [[]]
  | c :: s' =>
      if N.eqb c sep then [] :: split sep s'
      else match split sep s' with
           | piece :: more => (c :: piece) :: more
           | [] => [[c]]
           end
  end.

(** [Array.prototype.pop]: the last element, or [undefined] on an empty
    array, and the array without it. *)
Definition pop {A : Type} (l : list A) : option A * list A :=
  match rev l with
  | [] => (None, [])
  | x :: r => (Some x, rev r)
  end.

(** ** Errors and results *)

Inductive js_error :=
| Error (message : jsstring)
| TypeError (message : jsstring)
| ProviderError (code : N).

Inductive result (A : Type) :=
| OK (a : A)
| Throw (e : js_error).
Arguments OK {A} a.
Arguments Throw {A} e.

Definition bind {A B : Type} (r : result A) (k : A -> result B) : result B :=
  match r with
  | OK a => k a
  | Throw e => Throw e
  end.

Declare Scope js_scope.
Delimit Scope js_scope with js.
Notation "x <- c ;; k" := (bind c (fun x => k))
  (at level 61, c at next level, right associativity) : js_scope.
Local Open Scope js_scope.

(** ** Regular expressions *)

Module RegExp.

(** The pattern constructs that occur in the source. [Plus] and [Opt] are
    the greedy quantifiers [+] and [?]; a non-capturing group [(?:r)] is
    [r] itself. *)
Inductive regex :=
| Eps                          (* the empty pattern *)
| Chr (c : char16)             (* a pattern character *)
| Esc_w                        (* \w *)
| Esc_s                        (* \s *)
| Class (ranges : list (char16 * char16))  (* [a-z0-9-] and the like *)
| Assert_b                     (* \b *)
| Assert_start                 (* ^ *)
| Assert_end                   (* $ *)
| Seq (r1 r2 : regex)
| Alt (r1 r2 : regex)
| Group (n : nat) (r : regex)  (* capturing group number n *)
| Plus (r : regex)
| Opt (r : regex).

(** The characters of a literal word, in sequence. *)
Fixpoint word (w : jsstring) : regex :=
  match w with
  | [] => Eps
  | c :: w' => Seq (Chr c) (word w')
  end.

Record t := {
  source : regex;
  global : bool;
  ignoreCase : bool
}.

(** A match state: the text already behind the current position (nearest
    code unit first), the text ahead, and the captures set so far. *)
Record mstate := {
  seen : jsstring;
  rest : jsstring;
  caps : list (nat * jsstring)
}.

Definition endIndex (x : mstate) : nat := length (seen x).

Definition advance (c : char16) (tl : jsstring) (x : mstate) : mstate :=
  {| seen := c :: seen x; rest := tl; caps := caps x |}.

Fixpoint groups (r : regex) : list nat :=
  match r with
  | Eps | Chr _ | Esc_w | Esc_s | Class _ => []
  | Assert_b | Assert_start | Assert_end => []
  | Seq r1 r2 | Alt r1 r2 => groups r1 ++ groups r2
  | Group n r => n :: groups r
  | Plus r | Opt r => groups r
  end.

Definition cap_get (n : nat) (cs : list (nat * jsstring)) : option jsstring :=
  match find (fun p => Nat.eqb (fst p) n) cs with
  | Some p => Some (snd p)
  | None => None
  end.

Definition cap_clear (ns : list nat) (cs : list (nat * jsstring))
  : list (nat * jsstring) :=
  filter (fun p => negb (existsb (Nat.eqb (fst p)) ns)) cs.

Definition cap_set (n : nat) (v : jsstring) (cs : list (nat * jsstring))
  : list (nat * jsstring) :=
  (n, v) :: cap_clear [n] cs.

Definition clear_groups (ns : list nat) (x : mstate) : mstate :=
  {| seen := seen x; rest := rest x; caps := cap_clear ns (caps x) |}.

(** The text between two states of one match attempt. *)
Definition captured (x y : mstate) : jsstring :=
  firstn (length (rest x) - length (rest y)) (rest x).

Definition one_char (p : char16 -> bool) (x : mstate) : list mstate :=
  match rest x with
  | c :: tl => if p c then [advance c tl x] else []
  | [] => []
  end.

Definition in_ranges (ranges : list (char16 * char16)) (c : char16) : bool :=
  existsb (fun lh => between (fst lh) (snd lh) c) ranges.

(** The ASCII letter of the other case; with the [i] flag a class holds a
    code unit when it holds one with the same canonical form. *)
Definition other_case (c : char16) : char16 :=
  if is_lower c then (c - 32)%N
  else if is_upper c then (c + 32)%N
  else c.

(** IsWordChar at the position before and at the current one. *)
Definition word_before (x : mstate) : bool :=
  match seen x with c :: _ => is_word c | [] => false end.
Definition word_after (x : mstate) : bool :=
  match rest x with c :: _ => is_word c | [] => false end.

(** RepeatMatcher with min = 0 and no upper bound: iterate [m] as often as
    possible, giving up an iteration that did not move the end index; then
    fall back to the state reached so far.  The fuel bounds the number of
    iterations by the length of the text ahead. *)
Fixpoint star (m : mstate -> list mstate) (ns : list nat) (fuel : nat)
  (x : mstate) : list mstate :=
  match fuel with
  | 0 => [x]
  | S fuel' =>
      flat_map
        (fun y => if Nat.eqb (endIndex y) (endIndex x) then []
                  else star m ns fuel' y)
        (m (clear_groups ns x))
      ++ [x]
  end.

(** All the ways [r] matches at state [x], in the order in which the
    backtracking matcher of ECMA-262 tries them: the head of the list is
    the match the engine reports. *)
Fixpoint matches (i : bool) (r : regex) (x : mstate) : list mstate :=
  match r with
  | Eps => [x]
  | Chr c =>
      one_char (fun ch => N.eqb (canonicalize i ch) (canonicalize i c)) x
  | Esc_w => one_char is_word x
  | Esc_s => one_char is_space x
  | Class ranges =>
      one_char
        (fun ch => (in_ranges ranges ch
                    || (i && (in_ranges ranges (other_case ch))))%bool) x
  | Assert_b => if xorb (word_before x) (word_after x) then [x] else []
  | Assert_start => match seen x with [] => [x] | _ :: _ => [] end
  | Assert_end => match rest x with [] => [x] | _ :: _ => [] end
  | Seq r1 r2 => flat_map (matches i r2) (matches i r1 x)
  | Alt r1 r2 => matches i r1 x ++ matches i r2 x
  | Group n r =>
      List.map
        (fun y => {| seen := seen y; rest := rest y;
                     caps := cap_set n (captured x y) (caps y) |})
        (matches i r x)
  | Plus r =>
      flat_map (fun y => star (matches i r) (groups r) (length (rest y)) y)
               (matches i r (clear_groups (groups r) x))
  | Opt r =>
      flat_map (fun y => if Nat.eqb (endIndex y) (endIndex x) then [] else [y])
               (matches i r (clear_groups (groups r) x))
      ++ [x]
  end.

Definition start (behind ahead : jsstring) : mstate :=
  {| seen := behind; rest := ahead; caps := [] |}.

(** RegExpBuiltinExec for a pattern that is neither global nor sticky: the
    first position, from 0 on, at which the pattern matches. *)
Fixpoint exec_from (re : t) (behind ahead : jsstring) : option mstate :=
  match matches (ignoreCase re) (source re) (start behind ahead) with
  | y :: _ => Some y
  | [] =>
      match ahead with
      | [] => None
      | c :: ahead' => exec_from re (c :: behind) ahead'
      end
  end.

(** [RegExp.prototype.test]. *)
Definition test (re : t) (s : jsstring) : bool :=
  match exec_from re [] s with
  | Some _ => true
  | None => false
  end.

(** [String.prototype.replace] with a global pattern and a replacer
    function.  [skip] counts the code units of the current match that are
    still to be passed over.  The matches are the successive leftmost ones;
    an empty match moves the position by one code unit.  The replacer gets
    the matched text and the captures (the replacer of the source reads
    nothing else); when it throws, so does the call.  The runtime finds all
    the matches before it calls the replacer on the first; matching has no
    effect, so calling it as the matches are found gives the same result. *)
Fixpoint replace_from (re : t)
  (f : jsstring -> list (nat * jsstring) -> result jsstring)
  (behind ahead : jsstring) (skip : nat) : result jsstring :=
  match skip with
  | S k =>
      match ahead with
      | c :: ahead' => replace_from re f (c :: behind) ahead' k
      | [] => OK []
      end
  | 0 =>
      match matches (ignoreCase re) (source re) (start behind ahead) with
      | y :: _ =>
          let n := length ahead - length (rest y) in
          new <- f (firstn n ahead) (caps y) ;;
          match ahead with
          | [] => OK new
          | c :: ahead' =>
              match n with
              | 0 =>
                  out <- replace_from re f (c :: behind) ahead' 0 ;;
                  OK (new ++ c :: out)
              | S k =>
                  out <- replace_from re f (c :: behind) ahead' k ;;
                  OK (new ++ out)
              end
          end
      | [] =>
          match ahead with
          | [] => OK []
          | c :: ahead' =>
              out <- replace_from re f (c :: behind) ahead' 0 ;;
              OK (c :: out)
          end
      end
  end.

Definition replace (s : jsstring) (re : t)
  (f : jsstring -> list (nat * jsstring) -> result jsstring)
  : result jsstring :=
  replace_from re f [] s 0.

End RegExp.

Import RegExp.

(** ** The source *)

(** [SCHEMA_PATH] (line 157). *)
Definition SCHEMA_PATH : jsstring := lit "schema".

(** [/FROM\s+(?:(\w+)\.)?INFORMATION_SCHEMA\.TABLES/gi] (line 161). *)
Definition unqualifiedPattern : RegExp.t :=
  {| source :=
       Seq (word (lit "FROM"))
      (Seq (Plus Esc_s)
      (Seq (Opt (Seq (Group 1 (Plus Esc_w)) (Chr 46)))
      (Seq (word (lit "INFORMATION_SCHEMA"))
      (Seq (Chr 46)
           (word (lit "TABLES"))))));
     global := true;
     ignoreCase := true |}.

Definition UnqualifiedCatalogReferenceError : js_error :=
  Error (lit "Dataset must be specified when querying INFORMATION_SCHEMA (e.g. dataset.INFORMATION_SCHEMA.TABLES)").

(** The replacer of [qualifyTablePath] (lines 162-167). The capture is
    truthy when it is defined and not empty. *)
Definition qualify_match (projectId : jsstring)
  (_match : jsstring) (captures : list (nat * jsstring)) : result jsstring :=
  match cap_get 1 captures with
  | Some (c :: d) =>
      OK (lit "FROM `" ++ projectId ++ lit "." ++ (c :: d)
          ++ lit ".INFORMATION_SCHEMA.TABLES`")
  | _ => Throw UnqualifiedCatalogReferenceError
  end.

(** [qualifyTablePath] (lines 159-168). *)
Definition qualifyTablePath (sql projectId : jsstring) : result jsstring :=
  replace sql unqualifiedPattern (qualify_match projectId).

(** The forbidden tokens of [forbiddenPattern], in the order of the
    alternation. *)
Definition forbidden_tokens : list jsstring :=
  List.map lit
    ["INSERT"; "UPDATE"; "DELETE"; "CREATE"; "DROP"; "ALTER"; "MERGE";
     "TRUNCATE"; "GRANT"; "REVOKE"; "EXECUTE"; "BEGIN"; "COMMIT";
     "ROLLBACK"]%string.

Fixpoint alternation (ws : list jsstring) : regex :=
  match ws with
  | [] => Eps
  | [w] => word w
  | w :: ws' => Alt (word w) (alternation ws')
  end.

(** [/\b(INSERT|UPDATE|...|ROLLBACK)\b/i] (line 271). *)
Definition forbiddenPattern : RegExp.t :=
  {| source :=
       Seq Assert_b
      (Seq (Group 1 (alternation forbidden_tokens))
           Assert_b);
     global := false;
     ignoreCase := true |}.

Definition ForbiddenOperationError : js_error :=
  Error (lit "Only READ operations are allowed").

(** The read-only validation of the query tool (lines 270-274). *)
Definition checkReadOnly (sql : jsstring) : result unit :=
  if test forbiddenPattern sql then Throw ForbiddenOperationError
  else OK tt.


(** [ServerConfig] (lines 17-21). *)
Record ServerConfig := {
  projectId : jsstring;
  location : option jsstring;
  keyFilename : option jsstring
}.

Definition set_projectId (v : jsstring) (c : ServerConfig) : ServerConfig :=
  {| projectId := v; location := location c; keyFilename := keyFilename c |}.
Definition set_location (v : jsstring) (c : ServerConfig) : ServerConfig :=
  {| projectId := projectId c; location := Some v;
     keyFilename := keyFilename c |}.
Definition set_keyFilename (v : jsstring) (c : ServerConfig) : ServerConfig :=
  {| projectId := projectId c; location := location c;
     keyFilename := Some v |}.

(** [/^[a-z0-9-]+$/] (line 65). *)
Definition projectIdPattern : RegExp.t :=
  {| source :=
       Seq Assert_start
      (Seq (Plus (Class [(97, 122); (48, 57); (45, 45)]%N))
           Assert_end);
     global := false;
     ignoreCase := false |}.

(** What [validateConfig] takes from the runtime: [path.resolve],
    [fs.access] (the code and the message of the error it throws, if any),
    [fs.readFile], and [JSON.parse] as far as the checks look at its
    result. *)
Inductive key_data :=
| NotJSON                       (* JSON.parse throws a SyntaxError *)
| JSONNull                      (* null: reading a property throws *)
| KeyData (type_is_service_account has_project_id : bool).

Record FileSystem := {
  path_resolve : jsstring -> jsstring;
  fs_access : jsstring -> option (jsstring * jsstring);
  fs_readFile : jsstring -> result jsstring;
  JSON_parse : jsstring -> key_data
}.

(** The checks of the key file (lines 25-62): they give the resolved path,
    which the configuration then holds. *)
Definition validateKeyFile (fs : FileSystem) (keyFilename : jsstring)
  : result jsstring :=
  let resolvedKeyPath := path_resolve fs keyFilename in
  match fs_access fs resolvedKeyPath with
  | Some (code, message) =>
      if str_eqb code (lit "EACCES") then
        Throw (Error (lit "Permission denied accessing key file: "
                      ++ resolvedKeyPath
                      ++ lit ". Please check file permissions."))
      else if str_eqb code (lit "ENOENT") then
        Throw (Error (lit "Key file not found: " ++ resolvedKeyPath
                      ++ lit ". Please verify the file path."))
      else
        Throw (Error (lit "Unable to access key file: " ++ resolvedKeyPath
                      ++ lit ". Error: " ++ message))
  | None =>
      keyFileContent <- fs_readFile fs resolvedKeyPath ;;
      match JSON_parse fs keyFileContent with
      | NotJSON =>
          Throw (Error (lit "Service account key file is not valid JSON"))
      | JSONNull =>
          Throw (TypeError (lit "Cannot read properties of null"))
      | KeyData is_service_account has_project_id =>
          if (is_service_account && has_project_id)%bool
          then OK resolvedKeyPath
          else Throw (Error (lit "Invalid service account key file format"))
      end
  end.

(** [validateConfig] (lines 23-68).  The source changes the configuration
    in place; here the validated configuration is the result. *)
Definition validateConfig (fs : FileSystem) (config : ServerConfig)
  : result ServerConfig :=
  config <- match keyFilename config with
            | Some (c :: k) =>
                resolved <- validateKeyFile fs (c :: k) ;;
                OK (set_keyFilename resolved config)
            | _ => OK config
            end ;;
  if negb (test projectIdPattern (projectId config))
  then Throw (Error (lit "Invalid project ID format"))
  else OK config.

(** The loop of [parseArgs] (lines 77-103), over the arguments still to be
    read. *)
Fixpoint parseArgs_loop (args : list jsstring) (config : ServerConfig)
  : result ServerConfig :=
  match args with
  | [] => OK config
  | arg :: more =>
      if negb (startsWith arg (lit "--"))
      then Throw (Error (lit "Invalid argument: " ++ arg))
      else
        let key := skipn 2 arg in
        match more with
        | [] => Throw (Error (lit "Missing value for argument: " ++ arg))
        | value :: more' =>
            if startsWith value (lit "--")
            then Throw (Error (lit "Missing value for argument: " ++ arg))
            else if str_eqb key (lit "project-id")
            then parseArgs_loop more' (set_projectId value config)
            else if str_eqb key (lit "location")
            then parseArgs_loop more' (set_location value config)
            else if str_eqb key (lit "key-file")
            then parseArgs_loop more' (set_keyFilename value config)
            else Throw (Error (lit "Unknown argument: " ++ arg))
        end
  end.

Definition usage : jsstring :=
  lit "Missing required argument: --project-id" ++ [10%N] ++
  lit "Usage: mcp-server-bigquery --project-id <project-id> [--location <location>] [--key-file <path-to-key-file>]".

(** [parseArgs] (lines 70-113); [args] is [process.argv.slice(2)]. *)
Definition parseArgs (args : list jsstring) : result ServerConfig :=
  config <- parseArgs_loop args
              {| projectId := []; location := Some (lit "US");
                 keyFilename := None |} ;;
  match projectId config with
  | [] => Throw (Error usage)
  | _ :: _ => OK config
  end.

(** ** The request handlers *)

(** What the handlers take from the JavaScript runtime: the [URL] class,
    [String.prototype.toUpperCase] (which follows the Unicode case
    mappings) and [JSON.stringify]. *)
Record Runtime := {
  URL : Type;
  new_URL : jsstring -> option URL -> result URL;
  href : URL -> jsstring;
  pathname : URL -> jsstring;
  toUpperCase : jsstring -> jsstring;
  JSON : Type;
  JSON_stringify : JSON -> jsstring
}.

Section Handlers.

Context (rt : Runtime).

Record TableMetadata := {
  type : jsstring;
  schema_fields : JSON rt
}.

Record QueryOptions := {
  query : jsstring;
  query_location : option jsstring;
  maximumBytesBilled : jsstring
}.

(** The warehouse client: what each of its calls answers. In
    [readResource] the identifiers come from [Array.prototype.pop] and may
    be [undefined].  [bigquery.dataset] and [dataset.table] make a handle
    and ask the warehouse nothing: given a string they make the handle;
    what they throw, if anything, when the identifier is [undefined] is
    the client's affair. *)
Record BigQuery := {
  getDatasets : result (list jsstring);
  getTables : jsstring -> result (list jsstring);
  dataset_undefined : option js_error;
  table_undefined : option js_error;
  getMetadata : option jsstring -> option jsstring -> result TableMetadata;
  runQuery : QueryOptions -> result (JSON rt)
}.

(** A handle of the client for the identifier [id]: [refusal] is what the
    client throws for a missing identifier. *)
Definition handle (refusal : option js_error) (id : option jsstring)
  : result unit :=
  match id, refusal with
  | None, Some e => Throw e
  | _, _ => OK tt
  end.

(** A call of the client that asks the warehouse (making a handle asks
    it nothing and is no call). *)
Inductive call :=
| GetDatasets
| GetTables (dataset : jsstring)
| GetMetadata (dataset table : option jsstring)
| RunQuery (options : QueryOptions).

(** A handler run: the client calls made, in order, and the outcome. *)
Definition run (A : Type) : Type := list call * result A.

Definition ret {A : Type} (a : A) : run A := ([], OK a).
Definition throw {A : Type} (e : js_error) : run A := ([], Throw e).
Definition lift {A : Type} (r : result A) : run A := ([], r).
Definition await {A : Type} (c : call) (answer : result A) : run A :=
  ([c], answer).

Definition then_ {A B : Type} (m : run A) (k : A -> run B) : run B :=
  match snd m with
  | OK a => let r := k a in (fst m ++ fst r, snd r)
  | Throw e => (fst m, Throw e)
  end.

Notation "x <~ c ;; k" := (then_ c (fun x => k))
  (at level 61, c at next level, right associativity).

Context (bigquery : BigQuery) (config : ServerConfig)
        (resourceBaseUrl : URL rt).

Record Resource := {
  uri : jsstring;
  mimeType : jsstring;
  name : jsstring
}.

(** The inner loop of the resource listing (lines 183-193). *)
Fixpoint list_tables (dataset : jsstring) (tables : list jsstring)
  : run (list Resource) :=
  match tables with
  | [] => ret []
  | table :: more =>
      metadata <~ await (GetMetadata (Some dataset) (Some table))
                        (getMetadata bigquery (Some dataset) (Some table)) ;;
      let resourceType :=
        if str_eqb (type metadata) (lit "VIEW") then lit "view"
        else lit "table" in
      url <~ lift (new_URL rt (dataset ++ lit "/" ++ table ++ lit "/"
                                 ++ SCHEMA_PATH)
                           (Some resourceBaseUrl)) ;;
      resources <~ list_tables dataset more ;;
      ret ({| uri := href rt url;
              mimeType := lit "application/json";
              name := [34%N] ++ dataset ++ lit "." ++ table ++ [34%N]
                      ++ lit " " ++ resourceType ++ lit " schema" |}
           :: resources)
  end.

(** The outer loop (lines 178-194). *)
Fixpoint list_datasets (datasets : list jsstring) : run (list Resource) :=
  match datasets with
  | [] => ret []
  | dataset :: more =>
      tables <~ await (GetTables dataset) (getTables bigquery dataset) ;;
      resources <~ list_tables dataset tables ;;
      others <~ list_datasets more ;;
      ret (resources ++ others)
  end.

(** The handler of [ListResourcesRequestSchema] (lines 170-202). *)
Definition listResources : run (list Resource) :=
  datasets <~ await GetDatasets (getDatasets bigquery) ;;
  list_datasets datasets.

Definition InvalidResourceURIError : js_error :=
  Error (lit "Invalid resource URI").

Record ResourceContents := {
  contents_uri : jsstring;
  contents_mimeType : jsstring;
  text : jsstring
}.

Definition is_schema (segment : option jsstring) : bool :=
  match segment with
  | Some s => str_eqb s SCHEMA_PATH
  | None => false
  end.

(** The handler of [ReadResourceRequestSchema] (lines 204-228). *)
Definition readResource (request_uri : jsstring) : run ResourceContents :=
  resourceUrl <~ lift (new_URL rt request_uri None) ;;
  let pathComponents := split 47 (pathname rt resourceUrl) in
  let '(schema, pathComponents) := pop pathComponents in
  let '(tableId, pathComponents) := pop pathComponents in
  let '(datasetId, pathComponents) := pop pathComponents in
  if negb (is_schema schema) then throw InvalidResourceURIError
  else
    dataset <~ lift (handle (dataset_undefined bigquery) datasetId) ;;
    table <~ lift (handle (table_undefined bigquery) tableId) ;;
    metadata <~ await (GetMetadata datasetId tableId)
                      (getMetadata bigquery datasetId tableId) ;;
    ret {| contents_uri := request_uri;
           contents_mimeType := lit "application/json";
           text := JSON_stringify rt (schema_fields metadata) |}.

Record ToolCall := {
  tool_name : jsstring;
  arg_sql : jsstring;
  arg_maximumBytesBilled : option jsstring
}.

Record ToolResult := {
  content_text : jsstring;
  isError : bool
}.

(** The handler of [CallToolRequestSchema] (lines 265-298). *)
Definition callTool (request : ToolCall) : run ToolResult :=
  if str_eqb (tool_name request) (lit "query") then
    let sql := arg_sql request in
    let maximumBytesBilled :=
      match arg_maximumBytesBilled request with
      | Some (c :: v) => c :: v
      | _ => lit "1000000000"
      end in
    _ <~ lift (checkReadOnly sql) ;;
    sql <~ lift (if includes (toUpperCase rt sql) (lit "INFORMATION_SCHEMA")
                 then qualifyTablePath sql (projectId config)
                 else OK sql) ;;
    let options := {| query := sql;
                      query_location := location config;
                      maximumBytesBilled := maximumBytesBilled |} in
    rows <~ await (RunQuery options) (runQuery bigquery options) ;;
    ret {| content_text := JSON_stringify rt rows; isError := false |}
  else throw (Error (lit "Unknown tool: " ++ tool_name request)).

End Handlers.

(** ** The URL class

    A model of the URL parser and serializer of the URL standard (WHATWG)
    behind [new URL(input, base)], [href] and [pathname], over code points.
    It covers the URLs of the resource namespace: a scheme that is not
    special (not http, https, ws, wss, ftp, file), an authority that is a
    plain host, without credentials, port or brackets, and a path that is a
    list of segments (not opaque).  For an input beyond that the model
    answers [Unmodelled]. *)

Module Url.

Record t := {
  scheme : jsstring;
  host : option jsstring;
  path : list jsstring;
  query : option jsstring;
  fragment : option jsstring
}.

Inductive parsed :=
| Parsed (u : t)
| Failure
| Unmodelled.

(** The code points of a JavaScript string: a surrogate pair is one code
    point, a lone surrogate is read as U+FFFD. *)
Fixpoint code_points (s : jsstring) : list N :=
  match s with
  | [] => []
  | hi :: s' =>
      if between 55296 56319 hi then
        match s' with
        | lo :: s'' =>
            if between 56320 57343 lo
            then (65536 + (hi - 55296) * 1024 + (lo - 56320))%N
                 :: code_points s''
            else 65533%N :: code_points s'
        | [] => [65533%N]
        end
      else if between 56320 57343 hi then 65533%N :: code_points s'
      else hi :: code_points s'
  end.

Definition utf8 (c : N) : list N :=
  if N.ltb c 128 then [c]
  else if N.ltb c 2048 then [192 + c / 64; 128 + c mod 64]%N
  else if N.ltb c 65536
       then [224 + c / 4096; 128 + (c / 64) mod 64; 128 + c mod 64]%N
       else [240 + c / 262144; 128 + (c / 4096) mod 64;
             128 + (c / 64) mod 64; 128 + c mod 64]%N.

Definition hex_digit (n : N) : N :=
  if N.ltb n 10 then (48 + n)%N else (55 + n)%N.

Definition percent_byte (b : N) : jsstring :=
  [37%N; hex_digit (b / 16); hex_digit (b mod 16)].

(** The percent-encode sets of the standard. *)
Definition c0_control_set (c : N) : bool :=
  (N.ltb c 32 || N.ltb 126 c)%bool.
Definition fragment_set (c : N) : bool :=
  (c0_control_set c || N.eqb c 32 || N.eqb c 34 || N.eqb c 60 || N.eqb c 62
   || N.eqb c 96)%bool.
Definition query_set (c : N) : bool :=
  (c0_control_set c || N.eqb c 32 || N.eqb c 34 || N.eqb c 35 || N.eqb c 60
   || N.eqb c 62)%bool.
Definition path_set (c : N) : bool :=
  (query_set c || N.eqb c 63 || N.eqb c 94 || N.eqb c 96 || N.eqb c 123
   || N.eqb c 125)%bool.

(** UTF-8 percent-encode a code point, then a string, using a set. *)
Definition percent_encode (set : N -> bool) (c : N) : jsstring :=
  if set c then flat_map percent_byte (utf8 c) else [c].

Definition percent_encode_all (set : N -> bool) (s : list N) : jsstring :=
  flat_map (percent_encode set) s.

Definition is_alpha (c : N) : bool := (is_lower c || is_upper c)%bool.
Definition to_lower (c : N) : N := if is_upper c then (c + 32)%N else c.

Definition scheme_char (c : N) : bool :=
  (is_alpha c || is_digit c || N.eqb c 43 || N.eqb c 45 || N.eqb c 46)%bool.

(** The scheme start and scheme states: a letter, then letters, digits,
    [+], [-], [.], up to a colon; [None] when the input has no scheme. *)
Fixpoint scheme_rest (s : list N) : option (jsstring * list N) :=
  match s with
  | [] => None
  | c :: s' =>
      if N.eqb c 58 then Some ([], s')
      else if scheme_char c then
        match scheme_rest s' with
        | Some (sch, tl) => Some (to_lower c :: sch, tl)
        | None => None
        end
      else None
  end.

Definition parse_scheme (s : list N) : option (jsstring * list N) :=
  match s with
  | c :: _ => if is_alpha c then scheme_rest s else None
  | [] => None
  end.

Definition special_schemes : list jsstring :=
  List.map lit ["ftp"; "file"; "http"; "https"; "ws"; "wss"]%string.

Definition is_special (sch : jsstring) : bool :=
  existsb (str_eqb sch) special_schemes.

(** Leading and trailing C0 control or space are stripped, and every ASCII
    tab or newline is removed. *)
Fixpoint drop_leading (s : list N) : list N :=
  match s with
  | c :: s' => if N.leb c 32 then drop_leading s' else s
  | [] => []
  end.

Definition preprocess (s : list N) : list N :=
  filter (fun c => negb (N.eqb c 9 || N.eqb c 10 || N.eqb c 13))
         (rev (drop_leading (rev (drop_leading s)))).

(** The text up to the first code point in [stop], and the text from that
    code point on. *)
Fixpoint until (stop : N -> bool) (s : list N) : list N * list N :=
  match s with
  | c :: s' =>
      if stop c then ([], s)
      else let r := until stop s' in (c :: fst r, snd r)
  | [] => ([], [])
  end.

Definition forbidden_host_code_point (c : N) : bool :=
  existsb (N.eqb c) [0; 9; 10; 13; 32; 35; 47; 58; 60; 62; 63; 64; 91; 92;
                     93; 94; 124]%N.

Definition single_dot (seg : jsstring) : bool :=
  (str_eqb seg (lit ".")
   || str_eqb (List.map to_lower seg) (lit "%2e"))%bool.

Definition double_dot (seg : jsstring) : bool :=
  let l := List.map to_lower seg in
  (str_eqb l (lit "..") || str_eqb l (lit ".%2e") || str_eqb l (lit "%2e.")
   || str_eqb l (lit "%2e%2e"))%bool.

(** Shorten a path (the scheme is not file): the last segment goes. *)
Definition shorten (p : list jsstring) : list jsstring := removelast p.

(** The path state over the segments between slashes; the last one is
    ended by the end of the path, not by a slash. *)
Fixpoint path_state (p : list jsstring) (segs : list (list N))
  : list jsstring :=
  match segs with
  | [] => p
  | [seg] =>
      let buffer := percent_encode_all path_set seg in
      if double_dot buffer then shorten p ++ [[]]
      else if single_dot buffer then p ++ [[]]
      else p ++ [buffer]
  | seg :: more =>
      let buffer := percent_encode_all path_set seg in
      if double_dot buffer then path_state (shorten p) more
      else if single_dot buffer then path_state p more
      else path_state (p ++ [buffer]) more
  end.

(** The query and fragment states on what follows the path. *)
Definition query_fragment (s : list N) (base_query : option jsstring)
  : option jsstring * option jsstring :=
  match s with
  | c :: s' =>
      if N.eqb c 63 then
        let (q, f) := until (N.eqb 35) s' in
        (Some (percent_encode_all query_set q),
         match f with
         | _ :: f' => Some (percent_encode_all fragment_set f')
         | [] => None
         end)
      else (base_query, Some (percent_encode_all fragment_set s'))
  | [] => (base_query, None)
  end.

Definition path_end (c : N) : bool := (N.eqb c 63 || N.eqb c 35)%bool.
Definition authority_end (c : N) : bool :=
  (N.eqb c 47 || N.eqb c 63 || N.eqb c 35)%bool.

(** The path state from a given path on, then query and fragment. *)
Definition path_query_fragment (sch : jsstring) (h : option jsstring)
  (p : list jsstring) (s : list N) : parsed :=
  let (pth, tl) := until path_end s in
  let (q, f) := query_fragment tl None in
  Parsed {| scheme := sch; host := h;
            path := path_state p (split 47 pth);
            query := q; fragment := f |}.

(** The path start state: after the authority comes a slash, a question
    mark, a number sign or the end. *)
Definition path_start (sch : jsstring) (h : option jsstring) (s : list N)
  : parsed :=
  if startsWith s (lit "/") then path_query_fragment sch h [] (skipn 1 s)
  else
    let (q, f) := query_fragment s None in
    Parsed {| scheme := sch; host := h; path := [];
              query := q; fragment := f |}.

(** The authority and host states, for a plain opaque host. *)
Definition authority (sch : jsstring) (s : list N) : parsed :=
  let (a, tl) := until authority_end s in
  if existsb (fun c => (N.eqb c 64 || N.eqb c 58 || N.eqb c 91)%bool) a
  then Unmodelled
  else if existsb forbidden_host_code_point a then Failure
  else path_start sch (Some (percent_encode_all c0_control_set a)) tl.

(** An input with a scheme: after the colon, two slashes start an
    authority, one slash a path; anything else is an opaque path. *)
Definition absolute (sch : jsstring) (s : list N) : parsed :=
  if is_special sch then Unmodelled
  else if startsWith s (lit "//") then authority sch (skipn 2 s)
  else if startsWith s (lit "/")
       then path_query_fragment sch None [] (skipn 1 s)
       else Unmodelled.

(** An input without scheme, against a base URL: the no scheme, relative
    and relative slash states. *)
Definition relative (b : t) (s : list N) : parsed :=
  if is_special (scheme b) then Unmodelled
  else if startsWith s (lit "//") then authority (scheme b) (skipn 2 s)
  else if startsWith s (lit "/")
       then path_query_fragment (scheme b) (host b) [] (skipn 1 s)
  else
    match s with
    | c :: _ =>
        if path_end c then
          let (q, f) := query_fragment s (query b) in
          Parsed {| scheme := scheme b; host := host b; path := path b;
                    query := q; fragment := f |}
        else path_query_fragment (scheme b) (host b) (shorten (path b)) s
    | [] =>
        Parsed {| scheme := scheme b; host := host b; path := path b;
                  query := query b; fragment := None |}
    end.

(** The basic URL parser. *)
Definition parse (input : jsstring) (base : option t) : parsed :=
  let s := preprocess (code_points input) in
  match parse_scheme s with
  | Some (sch, tl) => absolute sch tl
  | None =>
      match base with
      | Some b => relative b s
      | None => Failure
      end
  end.

(** The [pathname] getter: the URL path serializer. *)
Definition pathname (u : t) : jsstring :=
  flat_map (fun seg => 47%N :: seg) (path u).

(** The [href] getter: the URL serializer. *)
Definition href (u : t) : jsstring :=
  scheme u ++ lit ":"
  ++ match host u with
     | Some h => lit "//" ++ h
     | None =>
         match path u with
         | [] :: _ :: _ => lit "/."
         | _ => []
         end
     end
  ++ pathname u
  ++ match query u with Some q => 63%N :: q | None => [] end
  ++ match fragment u with Some f => 35%N :: f | None => [] end.

End Url.

(** The runtime the examples run on.  Its [toUpperCase] maps the ASCII
    letters, as the runtime does on ASCII text; a JSON value stands for its
    own serialization. *)
Definition node : Runtime :=
  {| URL := Url.t;
     new_URL := fun input base =>
       match Url.parse input base with
       | Url.Parsed u => OK u
       | Url.Failure => Throw (TypeError (lit "Invalid URL"))
       | Url.Unmodelled => Throw (TypeError (lit "outside the model"))
       end;
     href := Url.href;
     pathname := Url.pathname;
     toUpperCase := List.map (canonicalize true);
     JSON := jsstring;
     JSON_stringify := fun v => v |}.


(** [resourceBaseUrl] (line 151). *)
Definition resourceBaseUrl_of (rt : Runtime) (config : ServerConfig)
  : result (URL rt) :=
  new_URL rt (lit "bigquery://" ++ projectId config) None.

(** A machine without key files, for the examples. *)
Definition no_files : FileSystem :=
  {| path_resolve := fun p => lit "/" ++ p;
     fs_access := fun _ => Some (lit "ENOENT", lit "no such file");
     fs_readFile := fun _ => Throw (Error (lit "no such file"));
     JSON_parse := fun _ => NotJSON |}.

(** A warehouse for the examples: the project of the spec's scenarios with
    one dataset and two tables, one of them with a space in its name.  As
    the client library does, it refuses a dataset identifier that is
    [undefined] when the handle is made, and makes a table handle
    whatever the identifier. *)
Definition acme_config : ServerConfig :=
  {| projectId := lit "acme-data"; location := Some (lit "US");
     keyFilename := None |}.

Definition acme_base : Url.t :=
  {| Url.scheme := lit "bigquery"; Url.host := Some (lit "acme-data");
     Url.path := []; Url.query := None; Url.fragment := None |}.

Definition acme_warehouse : BigQuery node :=
  {| getDatasets := OK [lit "sales"];
     getTables := fun d =>
       if str_eqb d (lit "sales") then OK [lit "orders"; lit "my table"]
       else Throw (ProviderError 404);
     dataset_undefined := Some (TypeError (lit "A dataset ID is required."));
     table_undefined := None;
     getMetadata := fun d t =>
       match d, t with
       | Some d, Some t =>
           if (str_eqb d (lit "sales") && str_eqb t (lit "orders"))%bool
           then OK (@Build_TableMetadata node (lit "TABLE")
                                              (lit "[order_id, amount]"))
           else if (str_eqb d (lit "sales") && str_eqb t (lit "my table"))%bool
           then OK (@Build_TableMetadata node (lit "VIEW") (lit "[note]"))
           else Throw (ProviderError 404)
       | _, _ => Throw (ProviderError 404)
       end;
     runQuery := fun _ => OK (lit "[]") |}.

(** ** Start-up (lines 128-155) *)

(** The options the warehouse client is made with (lines 138-148): the key
    file is passed on only when the configuration holds one. *)
Record BigQueryOptions := {
  options_projectId : jsstring;
  options_keyFilename : option jsstring
}.

Definition bigqueryConfig_of (config : ServerConfig) : BigQueryOptions :=
  {| options_projectId := projectId config;
     options_keyFilename :=
       match keyFilename config with
       | Some (c :: k) => Some (c :: k)
       | _ => None
       end |}.

(** What the start-up block leaves in [config], in the options of
    [bigquery] and in [resourceBaseUrl]. *)
Record Started (rt : Runtime) := {
  started_config : ServerConfig;
  started_bigqueryConfig : BigQueryOptions;
  started_resourceBaseUrl : URL rt
}.
Arguments started_config {rt} s.
Arguments started_bigqueryConfig {rt} s.
Arguments started_resourceBaseUrl {rt} s.

(** The start-up block (lines 132-155).  A [Throw] is the branch that
    writes the error and leaves the process with code 1.  The constructor
    of the client keeps its options and does nothing else. *)
Definition initialize (rt : Runtime) (fs : FileSystem) (args : list jsstring)
  : result (Started rt) :=
  config <- parseArgs args ;;
  config <- validateConfig fs config ;;
  let bigqueryConfig := bigqueryConfig_of config in
  resourceBaseUrl <- resourceBaseUrl_of rt config ;;
  OK {| started_config := config;
        started_bigqueryConfig := bigqueryConfig;
        started_resourceBaseUrl := resourceBaseUrl |}.

(** ** The tool listing (lines 230-263) *)

Module Tool.

Record property := {
  key : jsstring;
  type : jsstring;
  description : jsstring;
  optional : option bool
}.

Record t := {
  name : jsstring;
  summary : jsstring;           (* the tool's own [description] *)
  inputSchema_type : jsstring;
  inputSchema_properties : list property
}.

End Tool.

Definition backtick : jsstring := [96%N].
Definition newline : jsstring := [10%N].

(** The four code units of the column name in the example of the tool's
    description. *)
Definition accounting_month : jsstring := [20250; 35336; 24180; 26376]%N.

Definition sql_description : jsstring :=
  lit "Execute a SQL query on the database." ++ newline ++
  newline ++
  lit "IMPORTANT SQL FORMATTING RULES:" ++ newline ++
  lit "- ALL table names and column names MUST be wrapped in backticks ("
    ++ backtick ++ lit "table_name" ++ backtick ++ lit ", "
    ++ backtick ++ lit "column_name" ++ backtick ++ lit ")" ++ newline ++
  lit "- ALL aliases MUST use only alphanumeric characters and underscores (a-z, A-Z, 0-9, _)"
    ++ newline ++
  lit "- Japanese characters are NOT allowed in aliases" ++ newline ++
  newline ++
  lit "Example:" ++ newline ++
  lit "SELECT " ++ backtick ++ accounting_month ++ backtick
    ++ lit " as accounting_month, COUNT(*) as data_count" ++ newline ++
  lit "FROM " ++ backtick ++ lit "viita.profits" ++ backtick ++ newline ++
  lit "GROUP BY " ++ backtick ++ accounting_month ++ backtick.

(** The handler of [ListToolsRequestSchema]. *)
Definition listTools : list Tool.t :=
  [ {| Tool.name := lit "query";
       Tool.summary := lit "Run a read-only BigQuery SQL query";
       Tool.inputSchema_type := lit "object";
       Tool.inputSchema_properties :=
         [ {| Tool.key := lit "sql";
              Tool.type := lit "string";
              Tool.description := sql_description;
              Tool.optional := None |};
           {| Tool.key := lit "maximumBytesBilled";
              Tool.type := lit "string";
              Tool.description := lit "Maximum bytes billed (default: 1GB)";
              Tool.optional := Some true |} ] |} ].

(** ** Vocabulary of the properties *)

(** Equal up to the case of ASCII letters. *)
Definition same_letters (a b : jsstring) : Prop :=
  List.map (canonicalize true) a = List.map (canonicalize true) b.

Definition ends_with_word (s : jsstring) : bool :=
  match rev s with c :: _ => is_word c | [] => false end.

Definition starts_with_word (s : jsstring) : bool :=
  match s with c :: _ => is_word c | [] => false end.

(** [tok] occurs in [sql] in some casing, with no word character next to it
    on either side. *)
Definition whole_word (tok sql : jsstring) : Prop :=
  exists before w after,
    sql = before ++ w ++ after /\ same_letters w tok /\
    ends_with_word before = false /\ starts_with_word after = false.

Definition has_forbidden_word (sql : jsstring) : Prop :=
  exists tok, In tok forbidden_tokens /\ whole_word tok sql.

(** The literal [w] at the head of [s], compared through [canonicalize]:
    the text it covers and the text after it. *)
Fixpoint strip (i : bool) (w s : jsstring) : option (jsstring * jsstring) :=
  match w with
  | [] => Some ([], s)
  | c :: w' =>
      match s with
      | ch :: s' =>
          if N.eqb (canonicalize i ch) (canonicalize i c)
          then match strip i w' s' with
               | Some (m, tl) => Some (ch :: m, tl)
               | None => None
               end
          else None
      | [] => None
      end
  end.

(** The state of a match attempt after it has passed over [m]. *)
Definition moved (m tl : jsstring) (x : mstate) : mstate :=
  {| seen := rev m ++ seen x; rest := tl; caps := caps x |}.

(** The longest prefix of [s] in the class [p], and what follows it. *)
Fixpoint span (p : char16 -> bool) (s : jsstring) : jsstring * jsstring :=
  match s with
  | c :: s' =>
      if p c then let r := span p s' in (c :: fst r, snd r) else ([], s)
  | [] => ([], [])
  end.

(** A non-empty word of upper-case ASCII letters. *)
Definition upper_word (t : jsstring) : Prop :=
  t <> [] /\ Forall (fun c => is_upper c = true) t.

Definition error_message (e : js_error) : jsstring :=
  match e with
  | Error m | TypeError m => m
  | ProviderError _ => []
  end.

(** The text [msg] holds the token [tok], in some casing. *)
Definition mentions (msg tok : jsstring) : bool :=
  includes (List.map (canonicalize true) msg)
           (List.map (canonicalize true) tok).

(** The catalog view the qualifier looks for. *)
Definition catalog_view : jsstring := lit "INFORMATION_SCHEMA.TABLES".

(** A reference to the catalog view at the head of [s]: the keyword FROM,
    white space, an optional dataset and a dot, the view.  The result is
    the dataset, the text of the reference and the text after it. *)
Definition ref_at (s : jsstring)
  : option (option jsstring * jsstring * jsstring) :=
  match strip true (lit "FROM") s with
  | None => None
  | Some (kw, s1) =>
      match span is_space s1 with
      | ([], _) => None
      | (ws, s2) =>
          let direct :=
            match strip true catalog_view s2 with
            | Some (v, tl) => Some (None, kw ++ ws ++ v, tl)
            | None => None
            end in
          match span is_word s2 with
          | (c :: d, dot :: s3) =>
              if N.eqb dot 46 then
                match strip true catalog_view s3 with
                | Some (v, tl) =>
                    Some (Some (c :: d), kw ++ ws ++ (c :: d) ++ 46%N :: v, tl)
                | None => direct
                end
              else direct
          | _ => direct
          end
      end
  end.

(** The part of the qualifier's pattern after [FROM\s+]. *)
Definition dataset_then_view : regex :=
  Seq (Opt (Seq (Group 1 (Plus Esc_w)) (Chr 46)))
      (Seq (word (lit "INFORMATION_SCHEMA")) (word (lit ".TABLES"))).

(** The state in which the engine leaves a reference found by [ref_at]. *)
Definition ref_state (behind : jsstring)
  (r : option jsstring * jsstring * jsstring) : mstate :=
  let '(d, m, tl) := r in
  {| seen := rev m ++ behind; rest := tl;
     caps := match d with Some d => [(1, d)] | None => [] end |}.

(** The fully qualified, quoted reference the qualifier writes. *)
Definition qualified (projectId dataset : jsstring) : jsstring :=
  lit "FROM `" ++ projectId ++ lit "." ++ dataset
  ++ lit ".INFORMATION_SCHEMA.TABLES`".

(** [m] is a reference to the catalog view: FROM in any casing, white
    space, then either a dataset (word characters) and a dot or nothing,
    then INFORMATION_SCHEMA.TABLES in any casing. *)
Definition reference (d : option jsstring) (m : jsstring) : Prop :=
  exists kw ws v,
    same_letters kw (lit "FROM") /\
    ws <> [] /\ Forall (fun c => is_space c = true) ws /\
    same_letters v catalog_view /\
    match d with
    | Some d =>
        d <> [] /\ Forall (fun c => is_word c = true) d /\
        m = kw ++ ws ++ d ++ 46%N :: v
    | None => m = kw ++ ws ++ v
    end.

(** A necessary condition for a reference to start at the head of [s]: a
    letter F, three more code units, white space. *)
Definition kw_at (s : jsstring) : bool :=
  match s with
  | a :: _ :: _ :: _ :: e :: _ =>
      (N.eqb (canonicalize true a) 70 && is_space e)%bool
  | _ => false
  end.

(** No suffix of [l], whatever follows it, can start a reference. *)
Definition no_kw (l : jsstring) : Prop :=
  forall u1 u2 tl, l = u1 ++ u2 -> u2 <> [] -> kw_at (u2 ++ tl) = false.

(** No reference starts anywhere in [s]. *)
Definition quiet (s : jsstring) : Prop :=
  forall u v, s = u ++ v -> ref_at v = None.

(** A reading of a SQL text as a sequence of pieces: references with a
    dataset, which the qualifier rewrites, and single code units, which it
    keeps. *)
Inductive piece :=
| Kept (c : char16)
| Rewritten (kw ws dataset view : jsstring).

Definition piece_source (x : piece) : jsstring :=
  match x with
  | Kept c => [c]
  | Rewritten kw ws d v => kw ++ ws ++ d ++ 46%N :: v
  end.

Definition piece_result (projectId : jsstring) (x : piece) : jsstring :=
  match x with
  | Kept c => [c]
  | Rewritten _ _ d _ => qualified projectId d
  end.

Definition piece_ok (x : piece) : Prop :=
  match x with
  | Kept _ => True
  | Rewritten kw ws d v => reference (Some d) (kw ++ ws ++ d ++ 46%N :: v)
  end.

Definition no_unqualified_reference (sql : jsstring) : Prop :=
  forall before m after, sql = before ++ m ++ after -> ~ reference None m.

(** Two properties every reference has and that the quoted form lacks from
    its sixth code unit on: no backtick, and a last letter S. *)
Definition no_tick (m : jsstring) : bool :=
  forallb (fun c => negb (N.eqb c 96)) m.

Fixpoint ends_S (m : jsstring) : bool :=
  match m with
  | [] => false
  | [s] => N.eqb (canonicalize true s) 83
  | _ :: m' => ends_S m'
  end.

(** Whatever reference-like text starts [out] also starts [s]. *)
Definition transfers (s out : jsstring) : Prop :=
  forall m tl', no_tick m = true -> ends_S m = true -> out = m ++ tl' ->
                exists tl, s = m ++ tl.

(** [seg] is the text of [path] after its last slash (all of [path] when it
    has none). *)
Definition final_segment (path seg : jsstring) : Prop :=
  ~ In 47%N seg /\ (path = seg \/ exists before, path = before ++ 47%N :: seg).

(** The segments of a path as the URL standard counts them: the pieces
    between slashes, without the empty piece before a leading slash. *)
Definition path_segments (path : jsstring) : list jsstring :=
  match split 47 path with
  | [] :: segments => segments
  | segments => segments
  end.

(** A popped value that stands for a missing segment. *)
Definition missing (v : option jsstring) : Prop := v = None \/ v = Some [].

(** The identifiers [readResource] pops from a path of fewer than three
    segments that ends in [schema]: from [schema] alone, from [/schema],
    from [x/schema] and from [/x/schema]. *)
Definition short_path_identifiers (path : jsstring)
  (datasetId tableId : option jsstring) : Prop :=
  (path = SCHEMA_PATH /\ datasetId = None /\ tableId = None) \/
  (path = 47%N :: SCHEMA_PATH /\ datasetId = None /\ tableId = Some []) \/
  (exists x, x <> [] /\ ~ In 47%N x /\ path = x ++ 47%N :: SCHEMA_PATH /\
             datasetId = None /\ tableId = Some x) \/
  (exists x, ~ In 47%N x /\ path = 47%N :: x ++ 47%N :: SCHEMA_PATH /\
             datasetId = Some [] /\ tableId = Some x).

(** What [readResource] answers for the metadata of a table (lines
    219-227), and what becomes of the outcome of the fetch. *)
Definition contents_of (rt : Runtime) (request_uri : jsstring)
  (metadata : TableMetadata rt) : ResourceContents :=
  {| contents_uri := request_uri;
     contents_mimeType := lit "application/json";
     text := JSON_stringify rt (schema_fields metadata) |}.

Definition read_outcome (rt : Runtime) (request_uri : jsstring)
  (fetched : result (TableMetadata rt)) : result ResourceContents :=
  match fetched with
  | OK metadata => OK (contents_of request_uri metadata)
  | Throw e => Throw e
  end.

(** Lines 215-217 with the identifiers [datasetId] and [tableId]: the
    client makes the two handles, or refuses a missing identifier before
    it asks the warehouse anything, and then fetches the metadata. *)
Definition client_outcome (rt : Runtime) (bigquery : BigQuery rt)
  (request_uri : jsstring) (datasetId tableId : option jsstring)
  : run ResourceContents :=
  match handle (dataset_undefined bigquery) datasetId,
        handle (table_undefined bigquery) tableId with
  | Throw e, _ => ([], Throw e)
  | OK _, Throw e => ([], Throw e)
  | OK _, OK _ =>
      ([GetMetadata datasetId tableId],
       read_outcome request_uri (getMetadata bigquery datasetId tableId))
  end.

(** The matcher moved from state [x] to state [y] over the text [w]. *)
Definition advanced (x y : mstate) (w : jsstring) : Prop :=
  rest x = w ++ rest y /\ seen y = rev w ++ seen x.

(** A plain identifier: not empty, made of ASCII letters, digits,
    underscores and hyphens.  The URL serializer writes such a text as it
    is. *)
Definition plain_char (c : char16) : bool := (is_word c || N.eqb c 45)%bool.

Definition plain (s : jsstring) : Prop :=
  s <> [] /\ Forall (fun c => plain_char c = true) s.

(** The base URL of the resources of a project, and the URI of a table's
    schema, as texts. *)
Definition base_of (projectId : jsstring) : Url.t :=
  {| Url.scheme := lit "bigquery"; Url.host := Some projectId;
     Url.path := []; Url.query := None; Url.fragment := None |}.

Definition schema_uri (projectId dataset table : jsstring) : jsstring :=
  lit "bigquery:" ++ lit "//" ++ projectId
  ++ 47%N :: dataset ++ 47%N :: table ++ 47%N :: SCHEMA_PATH.

Definition schema_url (projectId dataset table : jsstring) : Url.t :=
  {| Url.scheme := lit "bigquery"; Url.host := Some projectId;
     Url.path := [dataset; table; SCHEMA_PATH];
     Url.query := None; Url.fragment := None |}.

(** ** Vocabulary of the further properties *)

(** *** The command line *)

(** The options [parseArgs] knows. *)
Definition option_names : list jsstring :=
  [lit "project-id"; lit "location"; lit "key-file"].

(** An option with its value, as [parseArgs] accepts it: a known name, and a
    value that does not start with two hyphens. *)
Definition ok_pair (kv : jsstring * jsstring) : Prop :=
  In (fst kv) option_names /\ startsWith (snd kv) (lit "--") = false.

(** The words of a command line that gives the options [pairs] in order. *)
Definition arg_words (pairs : list (jsstring * jsstring)) : list jsstring :=
  flat_map (fun kv => [lit "--" ++ fst kv; snd kv]) pairs.

(** What one option does to the configuration. *)
Definition set_option (c : ServerConfig) (kv : jsstring * jsstring)
  : ServerConfig :=
  if str_eqb (fst kv) (lit "project-id") then set_projectId (snd kv) c
  else if str_eqb (fst kv) (lit "location") then set_location (snd kv) c
  else set_keyFilename (snd kv) c.

(** The configuration [parseArgs] starts from (lines 72-75). *)
Definition default_config : ServerConfig :=
  {| projectId := []; location := Some (lit "US"); keyFilename := None |}.

(** The field of the configuration an option writes. *)
Definition option_value (k : jsstring) (c : ServerConfig) : option jsstring :=
  if str_eqb k (lit "project-id") then Some (projectId c)
  else if str_eqb k (lit "location") then location c
  else keyFilename c.

(** The three errors of the loop of [parseArgs], about the word [arg]. *)
Definition argument_errors (arg : jsstring) : list js_error :=
  [Error (lit "Invalid argument: " ++ arg);
   Error (lit "Missing value for argument: " ++ arg);
   Error (lit "Unknown argument: " ++ arg)].

(** *** The configuration *)

(** A lower-case ASCII letter, a digit or a hyphen. *)
Definition project_char (c : char16) : bool :=
  (is_lower c || is_digit c || N.eqb c 45)%bool.

(** Not empty, and made of such code units only. *)
Definition project_id_ok (p : jsstring) : bool :=
  match p with
  | [] => false
  | _ :: _ => forallb project_char p
  end.

(** The key file a configuration names, if any: the empty text counts as
    none (line 25). *)
Definition key_file_of (config : ServerConfig) : option jsstring :=
  match keyFilename config with
  | Some (c :: k) => Some (c :: k)
  | _ => None
  end.

(** A machine with one key file, [/srv/key.json], for the examples; a
    relative path is resolved against [/srv]. *)
Definition key_machine : FileSystem :=
  {| path_resolve := fun p =>
       if startsWith p (lit "/") then p else lit "/srv/" ++ p;
     fs_access := fun p =>
       if str_eqb p (lit "/srv/key.json") then None
       else Some (lit "ENOENT", lit "no such file or directory");
     fs_readFile := fun p =>
       if str_eqb p (lit "/srv/key.json") then OK (lit "{key}")
       else Throw (Error (lit "no such file or directory"));
     JSON_parse := fun s =>
       if str_eqb s (lit "{key}") then KeyData true true else NotJSON |}.

(** *** The handlers *)

(** [String.prototype.toUpperCase] maps a text code point by code point,
    and an ASCII code unit to its upper case: around a stretch of ASCII
    text that is not empty, the text before it and the text after it are
    mapped on their own. *)
Definition upper_cases_ascii (rt : Runtime) : Prop :=
  forall a w b,
    w <> [] -> Forall (fun c => (c < 128)%N) w ->
    toUpperCase rt (a ++ w ++ b)
    = toUpperCase rt a ++ List.map (canonicalize true) w ++ toUpperCase rt b.

(** No reference to the catalog view, with or without a dataset, lies in
    [sql]. *)
Definition no_reference (sql : jsstring) : Prop :=
  forall before d m after, sql = before ++ m ++ after -> ~ reference d m.

(** The billing ceiling the query tool submits (line 268). *)
Definition billing_of (request : ToolCall) : jsstring :=
  match arg_maximumBytesBilled request with
  | Some (c :: v) => c :: v
  | _ => lit "1000000000"
  end.

(** The name the listing gives a table (lines 186 and 191). *)
Definition resource_name (dataset table type : jsstring) : jsstring :=
  [34%N] ++ dataset ++ lit "." ++ table ++ [34%N] ++ lit " "
  ++ (if str_eqb type (lit "VIEW") then lit "view" else lit "table")
  ++ lit " schema".

(** The text the listing hands to [new URL] for a table (line 189). *)
Definition relative_uri (dataset table : jsstring) : jsstring :=
  dataset ++ lit "/" ++ table ++ lit "/" ++ SCHEMA_PATH.

(** The calls the listing makes for the tables of one dataset, and for a
    list of datasets with their tables. *)
Definition table_calls (dataset : jsstring) (tables : list jsstring)
  : list call :=
  List.map (fun t => GetMetadata (Some dataset) (Some t)) tables.

Definition dataset_calls (listing : list (jsstring * list jsstring))
  : list call :=
  flat_map (fun dts => GetTables (fst dts) :: table_calls (fst dts) (snd dts))
           listing.

(** The tables of a listing, each with its dataset. *)
Definition entries (listing : list (jsstring * list jsstring))
  : list (jsstring * jsstring) :=
  flat_map (fun dts => List.map (pair (fst dts)) (snd dts)) listing.

(** [r] is what the listing writes for the table [t] of the dataset [d]:
    the metadata of the table could be fetched, the URL of its schema could
    be made against the base URL, and [r] holds the text of that URL, the
    JSON media type and the table's name with its kind. *)
Definition listed (rt : Runtime) (bigquery : BigQuery rt) (base : URL rt)
  (r : Resource) (d t : jsstring) : Prop :=
  exists metadata url,
    getMetadata bigquery (Some d) (Some t) = OK metadata /\
    new_URL rt (relative_uri d t) (Some base) = OK url /\
    r = {| uri := href rt url;
           mimeType := lit "application/json";
           name := resource_name d t (type metadata) |}.

(** The options the query tool submits with the SQL text [sql] (lines
    282-286), and what becomes of the outcome of the query (lines
    288-291). *)
Definition options_of (config : ServerConfig) (request : ToolCall)
  (sql : jsstring) : QueryOptions :=
  {| query := sql;
     query_location := location config;
     maximumBytesBilled := billing_of request |}.

Definition query_outcome (rt : Runtime) (rows : result (JSON rt))
  : result ToolResult :=
  match rows with
  | OK rows => OK {| content_text := JSON_stringify rt rows;
                     isError := false |}
  | Throw e => Throw e
  end.
Arguments query_outcome {rt} rows.

(** * Properties *)

(** ** The matcher *)

Lemma mstate_eta (x : mstate) :
  {| seen := seen x; rest := rest x; caps := caps x |} = x.
Proof. destruct x; reflexivity. Qed.

Lemma moved_nil (x : mstate) : moved [] (rest x) x = x.
Proof. unfold moved; simpl; apply mstate_eta. Qed.

Lemma moved_cons c m tl tl0 (x : mstate) :
  moved m tl (advance c tl0 x) = moved (c :: m) tl x.
Proof.
  unfold moved, advance; simpl. rewrite <- app_assoc. reflexivity.
Qed.

Lemma matches_word i w x :
  matches i (word w) x =
  match strip i w (rest x) with
  | Some (m, tl) => [moved m tl x]
  | None => []
  end.
Proof.
  revert x; induction w as [|c w IH]; intros x; simpl.
  - rewrite moved_nil; reflexivity.
  - unfold one_char. destruct (rest x) as [|ch s'] eqn:E; [reflexivity|].
    destruct (N.eqb (canonicalize i ch) (canonicalize i c)); [|reflexivity].
    simpl. rewrite IH; simpl. rewrite app_nil_r.
    destruct (strip i w s') as [[m tl]|]; [|reflexivity].
    rewrite moved_cons; reflexivity.
Qed.

Lemma strip_app i w s m tl :
  strip i w s = Some (m, tl) ->
  s = m ++ tl /\
  List.map (canonicalize i) m = List.map (canonicalize i) w.
Proof.
  revert s m tl; induction w as [|c w IH]; intros s m tl; simpl.
  - intros H; inversion H; subst; auto.
  - destruct s as [|ch s']; [discriminate|].
    destruct (N.eqb_spec (canonicalize i ch) (canonicalize i c)) as [E|];
      [|discriminate].
    destruct (strip i w s') as [[m' tl']|] eqn:S'; [|discriminate].
    intros H; inversion H; subst.
    destruct (IH _ _ _ S') as [-> Hm]. simpl. rewrite E, Hm. auto.
Qed.

Lemma strip_intro i w m tl :
  List.map (canonicalize i) m = List.map (canonicalize i) w ->
  strip i w (m ++ tl) = Some (m, tl).
Proof.
  revert m; induction w as [|c w IH]; intros m; simpl.
  - destruct m; [reflexivity|discriminate].
  - destruct m as [|ch m]; [discriminate|]. simpl.
    intros H; inversion H as [[E Hm]]. rewrite E, N.eqb_refl.
    rewrite (IH _ Hm). reflexivity.
Qed.

Lemma exec_from_some re behind ahead :
  exec_from re behind ahead <> None <->
  exists u v, ahead = u ++ v /\
    matches (ignoreCase re) (source re) (start (rev u ++ behind) v) <> [].
Proof.
  revert behind; induction ahead as [|c ahead IH]; intros behind.
  - cbn [exec_from]. split.
    + intros H. exists [], []. split; [reflexivity|]. cbn [rev app].
      destruct (matches _ _ (start behind [])); congruence.
    + intros (u & v & E & H). symmetry in E.
      apply app_eq_nil in E as [-> ->]. cbn [rev app] in H.
      destruct (matches _ _ (start behind [])); congruence.
  - cbn [exec_from]. split.
    + intros H.
      destruct (matches _ _ (start behind (c :: ahead))) eqn:M.
      * apply IH in H as (u & v & E & H). exists (c :: u), v.
        split; [rewrite E; reflexivity|].
        cbn [rev]. rewrite <- app_assoc. exact H.
      * exists [], (c :: ahead). split; [reflexivity|].
        cbn [rev app]. rewrite M. discriminate.
    + intros (u & v & E & H).
      destruct (matches _ _ (start behind (c :: ahead))) eqn:M;
        [|discriminate].
      apply IH. destruct u as [|c' u].
      * cbn [rev app] in *. subst v. congruence.
      * inversion E; subst. exists u, v. split; [reflexivity|].
        cbn [rev] in H. rewrite <- app_assoc in H. exact H.
Qed.

Lemma test_true re s :
  test re s = true <->
  exists u v, s = u ++ v /\
    matches (ignoreCase re) (source re) (start (rev u) v) <> [].
Proof.
  unfold test.
  assert (E := exec_from_some re [] s).
  setoid_rewrite app_nil_r in E. rewrite <- E.
  destruct (exec_from re [] s); split; congruence.
Qed.

(** *** The matcher only moves forward, and the fuel of [star] is enough *)

Lemma advanced_refl x : advanced x x [].
Proof. split; reflexivity. Qed.

Lemma advanced_trans x y z w1 w2 :
  advanced x y w1 -> advanced y z w2 -> advanced x z (w1 ++ w2).
Proof.
  intros [R1 S1] [R2 S2]. split.
  - rewrite R1, R2, app_assoc. reflexivity.
  - rewrite S2, S1, rev_app_distr, app_assoc. reflexivity.
Qed.

Lemma advanced_clear ns x y w :
  advanced (clear_groups ns x) y w -> advanced x y w.
Proof. intros H; exact H. Qed.

Lemma one_char_advanced p x y :
  In y (one_char p x) -> exists w, advanced x y w.
Proof.
  unfold one_char. destruct (rest x) as [|c tl] eqn:R; [intros []|].
  destruct (p c); [|intros []]. intros [<-|[]].
  exists [c]. split; [exact R|reflexivity].
Qed.

Lemma star_advanced m ns fuel :
  (forall x y, In y (m x) -> exists w, advanced x y w) ->
  forall x y, In y (star m ns fuel x) -> exists w, advanced x y w.
Proof.
  intros M. induction fuel as [|fuel IH]; intros x y; cbn [star].
  - intros [<-|[]]. exists []. apply advanced_refl.
  - intros H. apply in_app_or in H as [H|[<-|[]]].
    + apply in_flat_map in H as (z & Hz & Hy).
      destruct (Nat.eqb (endIndex z) (endIndex x)); [destruct Hy|].
      apply M in Hz as [w1 A1]. apply IH in Hy as [w2 A2].
      exists (w1 ++ w2). exact (advanced_trans (advanced_clear A1) A2).
    + exists []. apply advanced_refl.
Qed.

Lemma matches_advanced i r :
  forall x y, In y (matches i r x) -> exists w, advanced x y w.
Proof.
  induction r as [ |c| | |rs| | | |r1 IH1 r2 IH2|r1 IH1 r2 IH2|n r IH|r IH|r IH];
    intros x y; cbn [matches].
  - intros [<-|[]]. exists []. apply advanced_refl.
  - apply one_char_advanced.
  - apply one_char_advanced.
  - apply one_char_advanced.
  - apply one_char_advanced.
  - destruct (xorb _ _); [|intros []]. intros [<-|[]].
    exists []. apply advanced_refl.
  - destruct (seen x); [|intros []]. intros [<-|[]].
    exists []. apply advanced_refl.
  - destruct (rest x); [|intros []]. intros [<-|[]].
    exists []. apply advanced_refl.
  - intros H. apply in_flat_map in H as (z & Hz & Hy).
    apply IH1 in Hz as [w1 A1]. apply IH2 in Hy as [w2 A2].
    exists (w1 ++ w2). exact (advanced_trans A1 A2).
  - intros H. apply in_app_or in H as [H|H]; eauto.
  - intros H. apply in_map_iff in H as (z & <- & Hz).
    apply IH in Hz as [w A]. exists w. exact A.
  - intros H. apply in_flat_map in H as (z & Hz & Hy).
    apply IH in Hz as [w1 A1].
    apply (star_advanced _ _ _ IH) in Hy as [w2 A2].
    exists (w1 ++ w2). exact (advanced_trans (advanced_clear A1) A2).
  - intros H. apply in_app_or in H as [H|[<-|[]]].
    + apply in_flat_map in H as (z & Hz & Hy).
      destruct (Nat.eqb (endIndex z) (endIndex x)); [destruct Hy|].
      destruct Hy as [<-|[]]. apply IH in Hz as [w A]. exists w. exact A.
    + exists []. apply advanced_refl.
Qed.

Lemma advanced_length x y w :
  advanced x y w ->
  length (rest x) = length w + length (rest y) /\
  endIndex y = length w + endIndex x.
Proof.
  intros [R S]. unfold endIndex. rewrite R, S, !length_app, length_rev.
  split; reflexivity.
Qed.

Lemma flat_map_ext_in {A B : Type} (f g : A -> list B) l :
  (forall a, In a l -> f a = g a) -> flat_map f l = flat_map g l.
Proof.
  induction l as [|a l IH]; intros H; [reflexivity|].
  cbn [flat_map]. rewrite (H a), IH; [reflexivity| |left; reflexivity].
  intros b Hb. apply H. right; exact Hb.
Qed.

Lemma flat_map_nil {A B : Type} (f : A -> list B) l :
  (forall a, In a l -> f a = []) -> flat_map f l = [].
Proof.
  intros H. rewrite (flat_map_ext_in f (fun _ => []) l H).
  clear H. induction l as [|a l IH]; [reflexivity|exact IH].
Qed.

(** Any fuel from the length of the text ahead on gives the same result:
    [star] never stops for lack of fuel. *)
Lemma star_fuel_enough i r ns :
  forall n x f1 f2,
    length (rest x) = n -> n <= f1 -> n <= f2 ->
    star (matches i r) ns f1 x = star (matches i r) ns f2 x.
Proof.
  induction n as [n IH] using lt_wf_ind. intros x f1 f2 L F1 F2.
  assert (Stuck : n = 0 ->
            forall f y, In y (matches i r (clear_groups ns x)) ->
            (if Nat.eqb (endIndex y) (endIndex x) then []
             else star (matches i r) ns f y) = []).
  { intros N f y Hy.
    apply matches_advanced in Hy as [w A]. apply advanced_clear in A.
    destruct (advanced_length A) as [Lr Le].
    destruct (Nat.eqb_spec (endIndex y) (endIndex x)); [reflexivity|lia]. }
  destruct f1 as [|f1], f2 as [|f2]; cbn [star].
  - reflexivity.
  - rewrite flat_map_nil; [reflexivity|]. apply Stuck. lia.
  - rewrite flat_map_nil; [reflexivity|]. apply Stuck. lia.
  - f_equal. apply flat_map_ext_in. intros y Hy.
    apply matches_advanced in Hy as [w A]. apply advanced_clear in A.
    destruct (advanced_length A) as [Lr Le].
    destruct (Nat.eqb_spec (endIndex y) (endIndex x)); [reflexivity|].
    apply (IH (length (rest y))); [lia|reflexivity|lia|lia].
Qed.

(** ** The query safety gate *)

Lemma between_spec lo hi c :
  between lo hi c = true <-> (lo <= c <= hi)%N.
Proof.
  unfold between. rewrite andb_true_iff, !N.leb_le. reflexivity.
Qed.

Lemma is_lower_spec c : is_lower c = true <-> (97 <= c <= 122)%N.
Proof. apply between_spec. Qed.

Lemma is_upper_spec c : is_upper c = true <-> (65 <= c <= 90)%N.
Proof. apply between_spec. Qed.

Lemma is_word_spec c :
  is_word c = true <->
  ((97 <= c <= 122) \/ (65 <= c <= 90) \/ (48 <= c <= 57) \/ c = 95)%N.
Proof.
  unfold is_word, is_lower, is_upper, is_digit.
  rewrite !orb_true_iff, !between_spec, N.eqb_eq. tauto.
Qed.

Lemma is_space_spec c :
  is_space c = true <->
  ((9 <= c <= 13) \/ c = 32 \/ c = 160 \/ c = 5760 \/ (8192 <= c <= 8202)
   \/ c = 8232 \/ c = 8233 \/ c = 8239 \/ c = 8287 \/ c = 12288
   \/ c = 65279)%N.
Proof.
  unfold is_space.
  rewrite !orb_true_iff, !between_spec, !N.eqb_eq. tauto.
Qed.

(** Case analysis on the class tests of a goal, then linear arithmetic over
    the code units. *)
Ltac class_facts :=
  repeat match goal with
         | H : is_lower _ = true |- _ => apply is_lower_spec in H
         | H : is_upper _ = true |- _ => apply is_upper_spec in H
         | H : is_word _ = true |- _ => apply is_word_spec in H
         | H : is_space _ = true |- _ => apply is_space_spec in H
         | H : is_lower _ = false |- _ =>
             apply not_true_iff_false in H; rewrite is_lower_spec in H
         | H : is_upper _ = false |- _ =>
             apply not_true_iff_false in H; rewrite is_upper_spec in H
         | H : is_word _ = false |- _ =>
             apply not_true_iff_false in H; rewrite is_word_spec in H
         | H : is_space _ = false |- _ =>
             apply not_true_iff_false in H; rewrite is_space_spec in H
         end.

Ltac N_bools :=
  unfold canonicalize, other_case in *; cbn [andb] in *;
  repeat match goal with
         | |- context [is_lower ?c] => destruct (is_lower c) eqn:?
         | H : context [if is_lower ?c then _ else _] |- _ =>
             destruct (is_lower c) eqn:?
         | |- context [is_upper ?c] => destruct (is_upper c) eqn:?
         | |- context [is_word ?c] => destruct (is_word c) eqn:?
         | |- context [is_space ?c] => destruct (is_space c) eqn:?
         | |- context [N.eqb ?a ?b] => destruct (N.eqb_spec a b)
         | H : context [N.eqb ?a ?b] |- _ => destruct (N.eqb_spec a b)
         end;
  class_facts; cbn [negb] in *; try congruence; try lia.

Lemma same_canon_word ch c :
  is_upper c = true ->
  canonicalize true ch = canonicalize true c -> is_word ch = true.
Proof. intros U E. N_bools. Qed.

Lemma matches_alternation i toks x :
  toks <> [] ->
  matches i (alternation toks) x = flat_map (fun t => matches i (word t) x) toks.
Proof.
  induction toks as [|t toks IH]; [congruence|]. intros _.
  destruct toks as [|t' toks].
  - simpl. rewrite app_nil_r. reflexivity.
  - change (alternation (t :: t' :: toks))
      with (Alt (word t) (alternation (t' :: toks))).
    cbn [matches flat_map]. rewrite IH by discriminate. reflexivity.
Qed.

Lemma forbidden_tokens_upper : Forall upper_word forbidden_tokens.
Proof.
  unfold forbidden_tokens.
  repeat (constructor;
          [split; [discriminate | repeat constructor]|]).
  constructor.
Qed.

Lemma same_letters_word m t :
  List.map (canonicalize true) m = List.map (canonicalize true) t ->
  Forall (fun c => is_upper c = true) t ->
  Forall (fun c => is_word c = true) m.
Proof.
  revert t; induction m as [|ch m IH]; intros [|c t] E U;
    try discriminate; constructor; inversion E; inversion U; subst.
  - eapply same_canon_word; eauto.
  - eapply IH; eauto.
Qed.

Lemma ends_with_word_all m :
  m <> [] -> Forall (fun c => is_word c = true) m -> ends_with_word m = true.
Proof.
  intros N F. unfold ends_with_word.
  destruct (rev m) as [|c r] eqn:R.
  - apply (f_equal (@rev _)) in R. rewrite rev_involutive in R. contradiction.
  - rewrite Forall_forall in F. apply F. apply in_rev. rewrite R. left; auto.
Qed.

Lemma strip_upper_word t s m tl :
  upper_word t -> strip true t s = Some (m, tl) ->
  starts_with_word s = true /\ ends_with_word m = true /\ m <> [].
Proof.
  intros [N U] S. destruct (strip_app _ _ _ S) as [-> E].
  assert (W := same_letters_word _ E U).
  assert (M : m <> []).
  { destruct m; [|discriminate]. destruct t; [contradiction|discriminate]. }
  repeat split; auto.
  - destruct m as [|ch m]; [contradiction|]. inversion W; auto.
  - apply ends_with_word_all; auto.
Qed.

Lemma word_before_moved m tl x :
  m <> [] -> word_before (moved m tl x) = ends_with_word m.
Proof.
  intros N. unfold word_before, ends_with_word, moved; simpl.
  destruct (rev m) eqn:R; [|reflexivity].
  apply (f_equal (@rev _)) in R. rewrite rev_involutive in R. contradiction.
Qed.

Lemma nonempty_In {A : Type} (l : list A) : l <> [] <-> exists y, In y l.
Proof.
  destruct l as [|a l]; split.
  - congruence.
  - intros [y []].
  - intros _. exists a. left; reflexivity.
  - discriminate.
Qed.

Lemma gate_matches_tokens toks x :
  toks <> [] -> Forall upper_word toks ->
  matches true (Seq Assert_b (Seq (Group 1 (alternation toks)) Assert_b)) x
    <> [] <->
  exists t m tl,
    In t toks /\ strip true t (rest x) = Some (m, tl) /\
    word_before x = false /\ starts_with_word tl = false.
Proof.
  intros NE UW. rewrite Forall_forall in UW.
  change (matches true (Seq Assert_b (Seq (Group 1 (alternation toks)) Assert_b)) x)
    with (flat_map (matches true (Seq (Group 1 (alternation toks)) Assert_b))
            (if xorb (word_before x) (word_after x) then [x] else [])).
  split.
  - intros H.
    destruct (xorb (word_before x) (word_after x)) eqn:B;
      [|contradiction H; reflexivity].
    cbn [flat_map] in H. rewrite app_nil_r in H.
    cbn [matches] in H. rewrite matches_alternation in H by assumption.
    apply nonempty_In in H as [y H].
    apply in_flat_map in H as (z & Hz & Hy).
    apply in_map_iff in Hz as (z0 & <- & Hz).
    apply in_flat_map in Hz as (t & Ht & Hz).
    rewrite matches_word in Hz.
    destruct (strip true t (rest x)) as [[m tl]|] eqn:S; [|destruct Hz].
    destruct Hz as [<-|[]].
    destruct (strip_upper_word _ (UW _ Ht) S) as (SW & EW & M).
    exists t, m, tl. repeat split; auto.
    + unfold word_after in B. unfold starts_with_word in SW.
      rewrite SW in B. destruct (word_before x); [discriminate|reflexivity].
    + unfold word_before, word_after in Hy. cbn [seen rest moved] in Hy.
      assert (W := word_before_moved tl x M).
      unfold word_before in W. cbn [seen moved] in W. rewrite W, EW in Hy.
      unfold starts_with_word.
      destruct (match tl with [] => false | c :: _ => is_word c end);
        [destruct Hy|reflexivity].
  - intros (t & m & tl & Ht & S & WB & SW).
    destruct (strip_upper_word _ (UW _ Ht) S) as (SW' & EW & M).
    unfold word_after. unfold starts_with_word in SW'. rewrite WB, SW'.
    cbn [xorb flat_map]. rewrite app_nil_r.
    cbn [matches]. rewrite matches_alternation by assumption.
    apply nonempty_In.
    eexists. apply in_flat_map. eexists. split.
    + apply in_map. apply in_flat_map. exists t. split; [exact Ht|].
      rewrite matches_word, S. left; reflexivity.
    + unfold word_before, word_after. cbn [seen rest moved].
      assert (W := word_before_moved tl x M).
      unfold word_before in W. cbn [seen moved] in W. rewrite W, EW.
      unfold starts_with_word in SW. rewrite SW. left; reflexivity.
Qed.

Lemma test_forbidden sql :
  test forbiddenPattern sql = true <-> has_forbidden_word sql.
Proof.
  rewrite test_true.
  change (source forbiddenPattern)
    with (Seq Assert_b (Seq (Group 1 (alternation forbidden_tokens)) Assert_b)).
  change (ignoreCase forbiddenPattern) with true.
  split.
  - intros (u & v & -> & H).
    apply gate_matches_tokens in H as (t & m & tl & Ht & S & WB & SW);
      [|discriminate|apply forbidden_tokens_upper].
    cbn [rest start] in S. destruct (strip_app _ _ _ S) as [-> E].
    exists t. split; [exact Ht|]. exists u, m, tl.
    repeat split; auto.
  - intros (t & Ht & u & m & tl & -> & E & WB & SW).
    exists u, (m ++ tl). split; [reflexivity|].
    apply gate_matches_tokens;
      [discriminate|apply forbidden_tokens_upper|].
    exists t, m, tl. repeat split; auto.
    cbn [rest start]. apply strip_intro. exact E.
Qed.

Lemma gate_passes_only_without_whole_words (sql : jsstring) :
  checkReadOnly sql = OK tt -> ~ has_forbidden_word sql.
Proof.
  unfold checkReadOnly. intros P H. apply test_forbidden in H.
  rewrite H in P. discriminate.
Qed.

(** C1. A SQL text that holds one of the tokens INSERT, UPDATE, DELETE,
    CREATE, DROP, ALTER, MERGE, TRUNCATE, GRANT, REVOKE, EXECUTE, BEGIN,
    COMMIT, ROLLBACK as a whole word, in any casing, is rejected by the
    safety gate; a text in which the tokens occur at most inside larger
    identifiers (no whole-word occurrence) passes it. *)
Theorem gate_rejects_exactly_whole_words (sql : jsstring) :
  (has_forbidden_word sql ->
   checkReadOnly sql = Throw ForbiddenOperationError) /\
  (~ has_forbidden_word sql -> checkReadOnly sql = OK tt).
Proof.
  unfold checkReadOnly. split; intros H.
  - apply test_forbidden in H. rewrite H. reflexivity.
  - destruct (test forbiddenPattern sql) eqn:T; [|reflexivity].
    apply test_forbidden in T. contradiction.
Qed.

Lemma drop_is_whole_word :
  has_forbidden_word (lit "DROP TABLE sales.orders").
Proof.
  exists (lit "DROP"). split; [cbv; tauto|].
  exists [], (lit "DROP"), (lit " TABLE sales.orders").
  repeat split.
Qed.

Lemma created_by_is_no_whole_word :
  ~ has_forbidden_word (lit "SELECT created_by, updated_at FROM t").
Proof. apply gate_passes_only_without_whole_words. reflexivity. Qed.

Lemma gate_rejects_exactly_whole_words_witness :
  checkReadOnly (lit "DROP TABLE sales.orders") = Throw ForbiddenOperationError
  /\ checkReadOnly (lit "SELECT created_by, updated_at FROM t") = OK tt.
Proof.
  split.
  - apply (proj1 (gate_rejects_exactly_whole_words _)).
    exact drop_is_whole_word.
  - apply (proj2 (gate_rejects_exactly_whole_words _)).
    exact created_by_is_no_whole_word.
Defined.

(** The scan does not know string literals or comments: a forbidden word
    inside a literal is rejected too. *)
Example gate_rejects_word_in_literal :
  checkReadOnly (lit "SELECT 'please drop me' AS note")
  = Throw ForbiddenOperationError.
Proof. vm_compute. reflexivity. Qed.

Example gate_any_casing :
  checkReadOnly (lit "TrUnCaTe TABLE t") = Throw ForbiddenOperationError.
Proof. vm_compute. reflexivity. Qed.

Lemma message_names_no_token :
  forallb (fun tok => negb (mentions (error_message ForbiddenOperationError) tok))
          forbidden_tokens = true.
Proof. vm_compute. reflexivity. Qed.

(** C8, as stated: the error of a rejection names the token that was
    matched.  It fails: the text [DROP TABLE sales.orders] is rejected, its
    only forbidden word is DROP, and the message does not hold DROP. *)
Lemma gate_error_names_token_fails :
  ~ (forall sql e,
       checkReadOnly sql = Throw e ->
       exists tok, In tok forbidden_tokens /\ whole_word tok sql /\
                   mentions (error_message e) tok = true).
Proof.
  intros H.
  destruct (H (lit "DROP TABLE sales.orders") ForbiddenOperationError
              eq_refl) as (tok & Ht & _ & M).
  assert (A := message_names_no_token).
  rewrite forallb_forall in A. apply A in Ht. rewrite M in Ht. discriminate.
Qed.

(** C8, amended: every rejection of the gate carries the same error, with
    the fixed message [Only READ operations are allowed], which names none
    of the forbidden tokens. *)
Theorem gate_error_is_fixed (sql : jsstring) (e : js_error) :
  checkReadOnly sql = Throw e ->
  e = Error (lit "Only READ operations are allowed") /\
  forall tok, In tok forbidden_tokens ->
              mentions (error_message e) tok = false.
Proof.
  unfold checkReadOnly. destruct (test forbiddenPattern sql); [|discriminate].
  intros H; inversion H; subst. split; [reflexivity|].
  intros tok Ht. assert (A := message_names_no_token).
  rewrite forallb_forall in A. apply A in Ht.
  destruct (mentions _ tok); [discriminate|reflexivity].
Qed.

Lemma gate_error_is_fixed_witness :
  ForbiddenOperationError = Error (lit "Only READ operations are allowed") /\
  forall tok, In tok forbidden_tokens ->
              mentions (error_message ForbiddenOperationError) tok = false.
Proof.
  apply (@gate_error_is_fixed (lit "DROP TABLE sales.orders")).
  reflexivity.
Defined.

(** ** The catalog qualifier: what the pattern matches *)

Lemma matches_seq_word i w r x :
  matches i (Seq (word w) r) x =
  match strip i w (rest x) with
  | Some (m, tl) => matches i r (moved m tl x)
  | None => []
  end.
Proof.
  cbn [matches]. rewrite matches_word.
  destruct (strip i w (rest x)) as [[m tl]|]; [|reflexivity].
  cbn [flat_map]. apply app_nil_r.
Qed.

Lemma matches_word_app i a b x :
  matches i (Seq (word a) (word b)) x = matches i (word (a ++ b)) x.
Proof.
  rewrite matches_seq_word, !matches_word.
  revert x; induction a as [|c a IH]; intros x; cbn [strip app].
  - rewrite matches_word. reflexivity.
  - destruct (rest x) as [|ch s]; [reflexivity|].
    destruct (N.eqb (canonicalize i ch) (canonicalize i c)); [|reflexivity].
    specialize (IH (advance ch s x)). cbn [rest advance] in IH.
    destruct (strip i a s) as [[m tl]|].
    + rewrite <- moved_cons with (tl0 := s). rewrite IH.
      destruct (strip i (a ++ b) s) as [[m' tl']|]; [|reflexivity].
      rewrite moved_cons. reflexivity.
    + destruct (strip i (a ++ b) s) as [[m' tl']|]; [discriminate|reflexivity].
Qed.

Lemma cap_clear_nil cs : cap_clear [] cs = cs.
Proof.
  unfold cap_clear.
  induction cs as [|c cs IH]; [reflexivity|].
  change (c :: filter (fun p => negb (existsb (Nat.eqb (fst p)) [])) cs
          = c :: cs).
  rewrite IH. reflexivity.
Qed.

Lemma clear_groups_nil x : clear_groups [] x = x.
Proof. unfold clear_groups. rewrite cap_clear_nil. apply mstate_eta. Qed.

Lemma endIndex_advance c tl x :
  Nat.eqb (endIndex (advance c tl x)) (endIndex x) = false.
Proof.
  unfold endIndex, advance; cbn [seen length]. apply Nat.eqb_neq. lia.
Qed.

Lemma moved_same x tl : rest x = tl -> moved [] tl x = x.
Proof. intros <-. apply moved_nil. Qed.

(** After a greedy run over a class, a continuation that cannot start with
    a member of the class only succeeds after the longest run. *)
Lemma star_class_longest (p : char16 -> bool) (k : mstate -> list mstate)
  fuel x :
  (forall y c tl, rest y = c :: tl -> p c = true -> k y = []) ->
  length (rest x) <= fuel ->
  flat_map k (star (one_char p) [] fuel x) =
  k (moved (fst (span p (rest x))) (snd (span p (rest x))) x).
Proof.
  intros K. revert x; induction fuel as [|fuel IH]; intros x L.
  - destruct (rest x) eqn:R; [|simpl in L; lia].
    cbn [star flat_map span fst snd]. rewrite app_nil_r.
    rewrite (moved_same x R). reflexivity.
  - cbn [star]. rewrite clear_groups_nil. unfold one_char.
    destruct (rest x) as [|c tl] eqn:R.
    + cbn [flat_map app span fst snd]. rewrite app_nil_r.
      rewrite (moved_same x R). reflexivity.
    + cbn [span]. destruct (p c) eqn:P.
      * cbn [flat_map]. rewrite endIndex_advance, app_nil_r.
        rewrite flat_map_app. cbn [flat_map].
        rewrite (K x c tl R P), !app_nil_r.
        rewrite IH by (cbn [rest advance]; simpl in L; lia).
        cbn [rest advance fst snd]. rewrite moved_cons. reflexivity.
      * cbn [flat_map app fst snd]. rewrite app_nil_r.
        rewrite (moved_same x R). reflexivity.
Qed.

Lemma star_ext m m' ns fuel x :
  (forall y, m y = m' y) -> star m ns fuel x = star m' ns fuel x.
Proof.
  intros E. revert x; induction fuel as [|fuel IH]; intros x;
    [reflexivity|].
  cbn [star]. rewrite E. f_equal.
  apply flat_map_ext. intros y. rewrite IH. reflexivity.
Qed.

Lemma plus_class_longest i cls (p : char16 -> bool)
  (k : mstate -> list mstate) x :
  (forall y, matches i cls y = one_char p y) -> groups cls = [] ->
  (forall y c tl, rest y = c :: tl -> p c = true -> k y = []) ->
  flat_map k (matches i (Plus cls) x) =
  match span p (rest x) with
  | ([], _) => []
  | (m, tl) => k (moved m tl x)
  end.
Proof.
  intros M G K. cbn [matches]. rewrite G, clear_groups_nil, M.
  unfold one_char. destruct (rest x) as [|c tl] eqn:R; [reflexivity|].
  cbn [span]. destruct (p c) eqn:P; [|reflexivity].
  cbn [flat_map]. rewrite app_nil_r.
  rewrite star_ext with (m' := one_char p) by exact M.
  rewrite star_class_longest by (auto; cbn [rest advance]; lia).
  cbn [rest advance fst snd]. rewrite moved_cons. reflexivity.
Qed.

Lemma span_app p s : s = fst (span p s) ++ snd (span p s).
Proof.
  induction s as [|c s IH]; [reflexivity|].
  cbn [span]. destruct (p c); cbn [fst snd app]; congruence.
Qed.

Lemma span_all p s : Forall (fun c => p c = true) (fst (span p s)).
Proof.
  induction s as [|c s IH]; cbn [span]; [constructor|].
  destruct (p c) eqn:P; cbn [fst]; constructor; auto.
Qed.

Lemma span_stop p s c tl : snd (span p s) = c :: tl -> p c = false.
Proof.
  induction s as [|c' s IH]; cbn [span]; [discriminate|].
  destruct (p c') eqn:P; cbn [snd]; [exact IH|].
  intros H; inversion H; subst; exact P.
Qed.

Lemma span_intro p m tl :
  Forall (fun c => p c = true) m ->
  match tl with c :: _ => p c = false | [] => True end ->
  span p (m ++ tl) = (m, tl).
Proof.
  intros F T. induction F as [|c m P F IH]; cbn [app span].
  - destruct tl as [|c tl]; [reflexivity|]. cbn [span]. rewrite T. reflexivity.
  - rewrite P, IH. reflexivity.
Qed.

Lemma flat_map_of_map {A B C : Type} (f : B -> list C) (g : A -> B) l :
  flat_map f (List.map g l) = flat_map (fun a => f (g a)) l.
Proof.
  induction l as [|a l IH]; [reflexivity|]. cbn [List.map flat_map].
  rewrite IH. reflexivity.
Qed.

Lemma captured_moved x m tl :
  rest x = m ++ tl -> captured x (moved m tl x) = m.
Proof.
  intros R. unfold captured, moved; cbn [rest]. rewrite R, length_app.
  replace (length m + length tl - length tl) with (length m) by lia.
  rewrite firstn_app, firstn_all, Nat.sub_diag. cbn [firstn].
  apply app_nil_r.
Qed.

Lemma canon_dot c :
  N.eqb (canonicalize true c) (canonicalize true 46) = N.eqb c 46.
Proof. N_bools. Qed.

Lemma space_not_word c : is_space c = true -> is_word c = false.
Proof. intros H. N_bools. Qed.

Lemma word_not_space c : is_word c = true -> is_space c = false.
Proof. intros H. N_bools. Qed.

(** The dataset prefix [(\w+)\.] of the pattern. *)
Lemma matches_dataset_prefix x :
  caps x = [] ->
  matches true (Seq (Group 1 (Plus Esc_w)) (Chr 46)) x =
  match span is_word (rest x) with
  | (c :: d, dot :: s3) =>
      if N.eqb dot 46
      then [{| seen := dot :: rev (c :: d) ++ seen x; rest := s3;
               caps := [(1, c :: d)] |}]
      else []
  | _ => []
  end.
Proof.
  intros C.
  change (matches true (Seq (Group 1 (Plus Esc_w)) (Chr 46)) x)
    with (flat_map (matches true (Chr 46))
            (List.map (fun y => {| seen := seen y; rest := rest y;
                                   caps := cap_set 1 (captured x y) (caps y) |})
                      (matches true (Plus Esc_w) x))).
  rewrite flat_map_of_map.
  rewrite plus_class_longest with (p := is_word);
    [|reflexivity|reflexivity|].
  - assert (A := span_app is_word (rest x)).
    destruct (span is_word (rest x)) as [[|c d] s3]; [reflexivity|].
    cbn [fst snd] in A. rewrite (captured_moved x _ _ A).
    cbn [matches]. unfold one_char. cbn [rest seen caps moved].
    destruct s3 as [|dot s3]; [reflexivity|].
    rewrite canon_dot. destruct (N.eqb dot 46); [|reflexivity].
    unfold advance. cbn [seen rest caps]. rewrite C. reflexivity.
  - intros y c tl R W. cbn [matches]. unfold one_char. cbn [rest].
    rewrite R, canon_dot.
    destruct (N.eqb_spec c 46) as [->|]; [discriminate W|reflexivity].
Qed.

(** The view [INFORMATION_SCHEMA\.TABLES] at the end of the pattern. *)
Lemma matches_view x :
  matches true (Seq (word (lit "INFORMATION_SCHEMA")) (word (lit ".TABLES"))) x
  = match strip true catalog_view (rest x) with
    | Some (v, tl) => [moved v tl x]
    | None => []
    end.
Proof. rewrite matches_word_app, matches_word. reflexivity. Qed.

Lemma dataset_prefix_needs_word y c tl :
  rest y = c :: tl -> is_word c = false ->
  matches true (Seq (Group 1 (Plus Esc_w)) (Chr 46)) y = [].
Proof.
  intros R W. cbn [matches groups]. rewrite clear_groups_nil.
  unfold one_char. rewrite R, W. reflexivity.
Qed.

Lemma view_needs_letter c tl :
  is_space c = true -> strip true catalog_view (c :: tl) = None.
Proof.
  intros S. unfold catalog_view. cbn [lit list_ascii_of_string List.map strip].
  replace (N.eqb (canonicalize true c) (canonicalize true (N_of_ascii "I")))
    with false; [reflexivity|].
  change (N_of_ascii "I") with 73%N. N_bools.
Qed.

Lemma matches_seq_opt i g t y :
  matches i (Seq (Opt g) t) y =
  flat_map (matches i t)
    (flat_map (fun z => if Nat.eqb (endIndex z) (endIndex y) then [] else [z])
              (matches i g (clear_groups (groups g) y)))
  ++ matches i t y.
Proof.
  cbn [matches]. rewrite flat_map_app. cbn [flat_map].
  rewrite app_nil_r. reflexivity.
Qed.

Lemma dataset_then_view_not_space y c tl :
  rest y = c :: tl -> is_space c = true ->
  matches true dataset_then_view y = [].
Proof.
  intros R S. unfold dataset_then_view. rewrite matches_seq_opt.
  rewrite dataset_prefix_needs_word with (c := c) (tl := tl);
    [|exact R|apply space_not_word; exact S].
  cbn [flat_map app]. rewrite matches_view, R, view_needs_letter by exact S.
  reflexivity.
Qed.

Lemma matches_dataset_then_view x :
  caps x = [] ->
  matches true dataset_then_view x =
  match span is_word (rest x) with
  | (c :: d, dot :: s3) =>
      if N.eqb dot 46 then
        match strip true catalog_view s3 with
        | Some (v, tl) =>
            [{| seen := rev v ++ dot :: rev (c :: d) ++ seen x; rest := tl;
                caps := [(1, c :: d)] |}]
        | None => []
        end
      else []
  | _ => []
  end
  ++ match strip true catalog_view (rest x) with
     | Some (v, tl) => [moved v tl x]
     | None => []
     end.
Proof.
  intros C. unfold dataset_then_view. rewrite matches_seq_opt.
  rewrite matches_view. f_equal.
  rewrite matches_dataset_prefix
    by (unfold clear_groups; cbn [caps]; rewrite C; reflexivity).
  cbn [rest seen clear_groups].
  destruct (span is_word (rest x)) as [[|c d] [|dot s3]]; try reflexivity.
  destruct (N.eqb dot 46); [|reflexivity].
  cbn [flat_map]. unfold endIndex at 1 2. cbn [seen length].
  replace (Nat.eqb _ _) with false.
  - cbn [app flat_map]. rewrite app_nil_r, matches_view. cbn [rest].
    destruct (strip true catalog_view s3) as [[v tl]|]; reflexivity.
  - symmetry. apply Nat.eqb_neq. rewrite length_app. lia.
Qed.

(** The match the engine reports for the qualifier's pattern at a position
    is the reference [ref_at] finds there. *)
Lemma matches_unqualified behind s :
  hd_error (matches true (source unqualifiedPattern) (start behind s)) =
  option_map (ref_state behind) (ref_at s).
Proof.
  change (source unqualifiedPattern)
    with (Seq (word (lit "FROM")) (Seq (Plus Esc_s) dataset_then_view)).
  rewrite matches_seq_word. cbn [rest start]. unfold ref_at.
  destruct (strip true (lit "FROM") s) as [[kw s1]|]; [|reflexivity].
  change (matches true (Seq (Plus Esc_s) dataset_then_view) ?x)
    with (flat_map (matches true dataset_then_view)
                   (matches true (Plus Esc_s) x)).
  rewrite plus_class_longest with (p := is_space);
    [|reflexivity|reflexivity|apply dataset_then_view_not_space].
  cbn [rest moved].
  destruct (span is_space s1) as [[|w ws] s2]; [reflexivity|].
  rewrite matches_dataset_then_view by reflexivity.
  cbn [rest seen moved].
  assert (D : match strip true catalog_view s2 with
              | Some (v, tl) =>
                  [moved v tl (moved (w :: ws) s2 (moved kw s1 (start behind s)))]
              | None => []
              end
              = match option_map (ref_state behind)
                        match strip true catalog_view s2 with
                        | Some (v, tl) => Some (None, kw ++ (w :: ws) ++ v, tl)
                        | None => None
                        end
                with Some y => [y] | None => [] end).
  { destruct (strip true catalog_view s2) as [[v tl]|]; [|reflexivity].
    unfold moved, ref_state, start, option_map. cbn [seen rest caps].
    rewrite !rev_app_distr, <- !app_assoc. reflexivity. }
  rewrite D. clear D.
  destruct (span is_word s2) as [[|c d] [|dot s3]];
    try (cbn [app];
         destruct (option_map _ _); reflexivity).
  destruct (N.eqb_spec dot 46) as [->|];
    [|cbn [app]; destruct (option_map _ _); reflexivity].
  destruct (strip true catalog_view s3) as [[v tl]|];
    [|cbn [app]; destruct (option_map _ _); reflexivity].
  cbn [app hd_error option_map ref_state start seen]. f_equal. f_equal.
  repeat first [rewrite rev_app_distr | rewrite <- app_assoc
               | progress cbn [rev app]].
  reflexivity.
Qed.

(** ** The catalog qualifier: the pass over the text *)

Lemma ref_at_app s d m tl :
  ref_at s = Some (d, m, tl) ->
  s = m ++ tl /\ 4 < length m /\ d <> Some [].
Proof.
  unfold ref_at.
  destruct (strip true (lit "FROM") s) as [[kw s1]|] eqn:K; [|discriminate].
  apply strip_app in K as [-> K].
  apply (f_equal (@length _)) in K. rewrite !length_map in K.
  change (length (lit "FROM")) with 4 in K.
  assert (S := span_app is_space s1).
  destruct (span is_space s1) as [[|w ws] s2]; [discriminate|].
  cbn [fst snd] in S.
  assert (D : forall r,
            match strip true catalog_view s2 with
            | Some (v, tl0) => Some (None, kw ++ (w :: ws) ++ v, tl0)
            | None => None
            end = Some r ->
            r = (d, m, tl) ->
            kw ++ s1 = m ++ tl /\ 4 < length m /\ d <> Some []).
  { intros r H E. subst r.
    destruct (strip true catalog_view s2) as [[v tl0]|] eqn:V; [|discriminate].
    apply strip_app in V as [-> _]. inversion H; subst.
    repeat split; [|rewrite !length_app; cbn [length]; lia|discriminate].
    repeat first [rewrite <- app_assoc | progress cbn [app]]. reflexivity. }
  assert (W := span_app is_word s2).
  destruct (span is_word s2) as [[|c dd] [|dot s3]];
    try (intros H; exact (D _ H eq_refl)).
  cbn [fst snd] in W.
  destruct (N.eqb_spec dot 46) as [->|];
    [|intros H; exact (D _ H eq_refl)].
  destruct (strip true catalog_view s3) as [[v tl0]|] eqn:V;
    [|intros H; exact (D _ H eq_refl)].
  apply strip_app in V as [-> _]. intros H; inversion H; subst.
  repeat split; [|rewrite !length_app; cbn [length]; lia|discriminate].
  repeat first [rewrite <- app_assoc | progress cbn [app]]. reflexivity.
Qed.

Lemma replace_skip re f m behind tl :
  replace_from re f behind (m ++ tl) (length m) =
  replace_from re f (rev m ++ behind) tl 0.
Proof.
  revert behind; induction m as [|c m IH]; intros behind.
  - reflexivity.
  - cbn [app length replace_from rev]. rewrite IH, <- app_assoc. reflexivity.
Qed.

Lemma replace_unqualified f behind s :
  replace_from unqualifiedPattern f behind s 0 =
  match ref_at s with
  | Some (d, m, tl) =>
      new <- f m (match d with Some d => [(1, d)] | None => [] end) ;;
      out <- replace_from unqualifiedPattern f (rev m ++ behind) tl 0 ;;
      OK (new ++ out)
  | None =>
      match s with
      | [] => OK []
      | c :: s' =>
          out <- replace_from unqualifiedPattern f (c :: behind) s' 0 ;;
          OK (c :: out)
      end
  end.
Proof.
  assert (H := matches_unqualified behind s).
  destruct (ref_at s) as [[[d m] tl]|] eqn:R.
  - apply ref_at_app in R as (-> & L & _).
    destruct m as [|c m]; [cbn [length] in L; lia|].
    cbn [app replace_from]. change (ignoreCase unqualifiedPattern) with true.
    cbn [app] in H.
    destruct (matches true (source unqualifiedPattern)
                (start behind (c :: m ++ tl))) as [|y l];
      [discriminate|].
    cbn [hd_error option_map ref_state] in H. inversion H; subst.
    cbn [rest caps].
    replace (length (c :: m ++ tl) - length tl) with (S (length m))
      by (cbn [length]; rewrite length_app; lia).
    cbn [firstn]. rewrite firstn_app, firstn_all, Nat.sub_diag.
    cbn [firstn]. rewrite app_nil_r.
    rewrite replace_skip. cbn [rev]. rewrite <- app_assoc. reflexivity.
  - cbn [option_map] in H.
    destruct s as [|c s]; cbn [replace_from];
      change (ignoreCase unqualifiedPattern) with true;
      destruct (matches true (source unqualifiedPattern) _);
      try discriminate; reflexivity.
Qed.

Lemma replace_behind f b1 b2 s :
  replace_from unqualifiedPattern f b1 s 0 =
  replace_from unqualifiedPattern f b2 s 0.
Proof.
  remember (length s) as n eqn:L.
  revert s L b1 b2. induction n as [n IH] using lt_wf_ind. intros s L b1 b2.
  rewrite (replace_unqualified f b1), (replace_unqualified f b2).
  destruct (ref_at s) as [[[d m] tl]|] eqn:R.
  - apply ref_at_app in R as (-> & Lm & _).
    rewrite (IH (length tl)) with (b2 := rev m ++ b2);
      [reflexivity| |reflexivity].
    rewrite L, length_app. lia.
  - destruct s as [|c s]; [reflexivity|].
    rewrite (IH (length s)) with (b2 := c :: b2);
      [reflexivity| |reflexivity].
    rewrite L. cbn [length]. lia.
Qed.

(** The pass of [qualifyTablePath], one step at a time. *)
Lemma qualify_unfold p s :
  qualifyTablePath s p =
  match ref_at s with
  | Some (Some d, m, tl) =>
      out <- qualifyTablePath tl p ;; OK (qualified p d ++ out)
  | Some (None, _, _) => Throw UnqualifiedCatalogReferenceError
  | None =>
      match s with
      | [] => OK []
      | c :: s' => out <- qualifyTablePath s' p ;; OK (c :: out)
      end
  end.
Proof.
  unfold qualifyTablePath, replace. rewrite replace_unqualified.
  destruct (ref_at s) as [[[[d|] m] tl]|] eqn:R.
  - apply ref_at_app in R as (_ & _ & D).
    destruct d as [|c d]; [exfalso; apply D; reflexivity|].
    cbn [bind qualify_match cap_get find fst snd Nat.eqb].
    rewrite (replace_behind _ (rev m ++ []) []). reflexivity.
  - reflexivity.
  - destruct s as [|c s]; [reflexivity|].
    rewrite (replace_behind _ [c] []). reflexivity.
Qed.

(** ** References, declaratively *)

Lemma same_canon_word_any c u :
  canonicalize true c = canonicalize true u ->
  is_word u = true -> is_word c = true.
Proof. intros E W. N_bools. Qed.

Lemma same_letters_words m t :
  same_letters m t ->
  Forall (fun c => is_word c = true) t ->
  Forall (fun c => is_word c = true) m.
Proof.
  unfold same_letters.
  revert t; induction m as [|ch m IH]; intros [|c t] E U;
    try discriminate; constructor; inversion E; inversion U; subst.
  - eapply same_canon_word_any; eauto.
  - eapply IH; eauto.
Qed.

Lemma canon_is_dot c :
  canonicalize true c = canonicalize true 46 -> c = 46%N.
Proof. intros E. N_bools. Qed.

Lemma view_shape v :
  same_letters v catalog_view ->
  exists v1 t a b l e s,
    v = v1 ++ 46%N :: [t; a; b; l; e; s] /\
    same_letters v1 (lit "INFORMATION_SCHEMA") /\
    canonicalize true t = 84%N /\ canonicalize true a = 65%N /\
    canonicalize true b = 66%N /\ canonicalize true l = 76%N /\
    canonicalize true e = 69%N /\ canonicalize true s = 83%N.
Proof.
  unfold same_letters.
  change catalog_view
    with (lit "INFORMATION_SCHEMA" ++ 46%N :: lit "TABLES").
  rewrite map_app. intros H.
  apply map_eq_app in H as (v1 & v' & -> & H1 & H2).
  cbn [List.map] in H2.
  apply map_eq_cons in H2 as (dot & v2 & -> & D & H2).
  apply canon_is_dot in D. subst dot.
  do 6 (destruct v2 as [|? v2]; [discriminate|]).
  destruct v2; [|discriminate].
  inversion H2.
  do 7 eexists. repeat split; eauto.
Qed.

Lemma span_nonempty p s w ws s2 :
  span p s = (w :: ws, s2) ->
  s = (w :: ws) ++ s2 /\ Forall (fun c => p c = true) (w :: ws).
Proof.
  intros E. split.
  - rewrite (span_app p s), E. reflexivity.
  - assert (A := span_all p s). rewrite E in A. exact A.
Qed.

(** What [ref_at] finds is a reference. *)
Lemma ref_at_reference s d m tl :
  ref_at s = Some (d, m, tl) -> s = m ++ tl /\ reference d m.
Proof.
  intros H. split; [apply (ref_at_app _ H)|]. revert H.
  unfold ref_at.
  destruct (strip true (lit "FROM") s) as [[kw s1]|] eqn:K; [|discriminate].
  apply strip_app in K as [-> K].
  destruct (span is_space s1) as [[|w ws] s2] eqn:S; [discriminate|].
  apply span_nonempty in S as [-> S].
  assert (D : forall r,
            match strip true catalog_view s2 with
            | Some (v, tl0) => Some (None, kw ++ (w :: ws) ++ v, tl0)
            | None => None
            end = Some r ->
            r = (d, m, tl) -> reference d m).
  { intros r H E. subst r.
    destruct (strip true catalog_view s2) as [[v tl0]|] eqn:V; [|discriminate].
    apply strip_app in V as [-> V]. inversion H; subst.
    exists kw, (w :: ws), v. repeat split; auto. discriminate. }
  destruct (span is_word s2) as [[|c dd] [|dot s3]] eqn:W;
    try (intros H; exact (D _ H eq_refl)).
  destruct (N.eqb_spec dot 46) as [->|];
    [|intros H; exact (D _ H eq_refl)].
  destruct (strip true catalog_view s3) as [[v tl0]|] eqn:V;
    [|intros H; exact (D _ H eq_refl)].
  apply strip_app in V as [-> V]. intros H; inversion H; subst.
  apply span_nonempty in W as [_ W].
  exists kw, (w :: ws), v. repeat split; auto; discriminate.
Qed.

Lemma view_head_not_space v tl :
  same_letters v catalog_view ->
  match v ++ tl with c :: _ => is_space c = false | [] => True end.
Proof.
  intros V. apply view_shape in V as (v1 & t & a & b & l & e & s & -> & V1 & _).
  unfold same_letters in V1.
  destruct v1 as [|i v1]; [discriminate|].
  cbn [lit list_ascii_of_string List.map] in V1. injection V1 as I _.
  cbn [app]. change (N_of_ascii "I") with 73%N in I. N_bools.
Qed.

(** A reference at the head of a text is what [ref_at] finds there. *)
Lemma reference_ref_at d m tl :
  reference d m -> ref_at (m ++ tl) = Some (d, m, tl).
Proof.
  intros (kw & ws & v & K & N & S & V & M). unfold ref_at.
  destruct ws as [|w ws]; [contradiction|].
  assert (EV : strip true catalog_view (v ++ tl) = Some (v, tl))
    by (apply strip_intro; exact V).
  destruct d as [d|].
  - destruct M as (ND & W & ->). destruct d as [|c d]; [contradiction|].
    replace ((kw ++ (w :: ws) ++ (c :: d) ++ 46%N :: v) ++ tl)
      with (kw ++ (w :: ws) ++ (c :: d) ++ 46%N :: v ++ tl)
      by (repeat first [rewrite <- app_assoc | progress cbn [app]];
          reflexivity).
    rewrite strip_intro by exact K.
    rewrite span_intro; [|exact S|].
    2:{ cbn [app]. inversion W; subst. apply word_not_space; assumption. }
    rewrite span_intro; [|exact W|reflexivity].
    cbn [N.eqb Pos.eqb]. rewrite EV. reflexivity.
  - subst m.
    replace ((kw ++ (w :: ws) ++ v) ++ tl) with (kw ++ (w :: ws) ++ v ++ tl)
      by (repeat first [rewrite <- app_assoc | progress cbn [app]];
          reflexivity).
    rewrite strip_intro by exact K.
    rewrite span_intro; [|exact S|apply view_head_not_space; exact V].
    rewrite EV.
    apply view_shape in V as (v1 & t & a & b & l & e & s & -> & V1 & T & _).
    assert (W1 : Forall (fun c => is_word c = true) v1).
    { apply (same_letters_words V1). repeat constructor. }
    rewrite <- (app_assoc v1). cbn [app].
    rewrite span_intro; [|exact W1|reflexivity].
    destruct v1 as [|i v1]; [discriminate V1|].
    cbn [N.eqb Pos.eqb].
    unfold catalog_view at 1.
    cbn [lit list_ascii_of_string List.map strip app]. rewrite T.
    reflexivity.
Qed.

(** ** References do not overlap *)

Lemma kw_shape kw :
  same_letters kw (lit "FROM") ->
  exists f r o m,
    kw = [f; r; o; m] /\
    canonicalize true f = 70%N /\ canonicalize true r = 82%N /\
    canonicalize true o = 79%N /\ canonicalize true m = 77%N.
Proof.
  unfold same_letters. intros H.
  do 4 (destruct kw as [|? kw]; [discriminate|]).
  destruct kw; [|discriminate]. inversion H.
  do 4 eexists. repeat split; eauto.
Qed.

Lemma reference_kw_at d m tl : reference d m -> kw_at (m ++ tl) = true.
Proof.
  intros (kw & ws & v & K & N & S & V & M).
  apply kw_shape in K as (f & r & o & m' & -> & F & _).
  destruct ws as [|w ws]; [contradiction|]. inversion S; subst.
  assert (E : exists x, m = f :: r :: o :: m' :: w :: x).
  { destruct d as [d|]; [destruct M as (_ & _ & ->)|subst m];
      eexists; reflexivity. }
  destruct E as [x ->]. cbn [app kw_at].
  rewrite F. cbn [N.eqb Pos.eqb andb]. assumption.
Qed.

Lemma ref_at_kw s r : ref_at s = Some r -> kw_at s = true.
Proof.
  destruct r as [[d m] tl]. intros H.
  apply ref_at_reference in H as [-> R]. apply (reference_kw_at _ R).
Qed.

Lemma no_kw_nil : no_kw [].
Proof.
  intros u1 u2 tl E N. symmetry in E. apply app_eq_nil in E as [_ ->].
  contradiction.
Qed.

Lemma no_kw_cons c l :
  (forall tl, kw_at ((c :: l) ++ tl) = false) -> no_kw l -> no_kw (c :: l).
Proof.
  intros H L u1 u2 tl E N. destruct u1 as [|c' u1].
  - cbn [app] in E. subst u2. apply H.
  - inversion E; subst. eapply L; eauto.
Qed.

Lemma no_kw_first c l :
  canonicalize true c <> 70%N -> no_kw l -> no_kw (c :: l).
Proof.
  intros C. apply no_kw_cons. intros tl. cbn [app kw_at].
  destruct (l ++ tl) as [|? [|? [|? [|? ?]]]]; try reflexivity.
  apply N.eqb_neq in C. rewrite C. reflexivity.
Qed.

Lemma no_kw_fifth c l x1 x2 x3 x4 :
  is_space x4 = false -> no_kw (x1 :: x2 :: x3 :: x4 :: l) ->
  no_kw (c :: x1 :: x2 :: x3 :: x4 :: l).
Proof.
  intros S. apply no_kw_cons. intros tl. cbn [app kw_at].
  rewrite S. apply andb_false_r.
Qed.

(** A text without white space whose last four code units are not the
    letter F holds no start of a reference, whatever follows it. *)
Lemma no_kw_body body b l e s :
  Forall (fun c => is_space c = false) (body ++ [b; l; e; s]) ->
  Forall (fun c => canonicalize true c <> 70%N) [b; l; e; s] ->
  no_kw (body ++ [b; l; e; s]).
Proof.
  intros S F.
  assert (B : no_kw [b; l; e; s]).
  { inversion F as [|? ? Fb F1]; inversion F1 as [|? ? Fl F2];
      inversion F2 as [|? ? Fe F3]; inversion F3 as [|? ? Fs F4]; subst.
    repeat apply no_kw_first; auto. apply no_kw_nil. }
  induction body as [|c body IH]; [exact B|].
  cbn [app] in S. inversion S as [|? ? Sc S']; subst.
  specialize (IH S').
  assert (S4 : Forall (fun c => is_space c = false) [b; l; e; s]).
  { apply Forall_app in S' as [_ S4]. exact S4. }
  destruct body as [|x1 [|x2 [|x3 [|x4 body]]]]; cbn [app] in *.
  - apply no_kw_fifth; auto.
    inversion S4 as [|? ? _ S3]; inversion S3 as [|? ? _ S2];
      inversion S2 as [|? ? _ S1]; inversion S1; auto.
  - apply no_kw_fifth; auto.
    inversion S4 as [|? ? _ S3]; inversion S3 as [|? ? _ S2];
      inversion S2; auto.
  - apply no_kw_fifth; auto.
    inversion S4 as [|? ? _ S3]; inversion S3; auto.
  - apply no_kw_fifth; auto. inversion S4; auto.
  - apply no_kw_fifth; auto.
    inversion S' as [|? ? _ T1]; inversion T1 as [|? ? _ T2];
      inversion T2 as [|? ? _ T3]; inversion T3; auto.
Qed.

Lemma space_not_F c : is_space c = true -> canonicalize true c <> 70%N.
Proof. intros S E. N_bools. Qed.

Lemma same_canon_not_space c u :
  canonicalize true c = canonicalize true u ->
  is_space u = false -> is_space c = false.
Proof. intros E S. N_bools. Qed.

Lemma same_letters_not_space m t :
  same_letters m t ->
  Forall (fun c => is_space c = false) t ->
  Forall (fun c => is_space c = false) m.
Proof.
  unfold same_letters.
  revert t; induction m as [|ch m IH]; intros [|c t] E U;
    try discriminate; constructor; inversion E; inversion U; subst.
  - eapply same_canon_not_space; eauto.
  - eapply IH; eauto.
Qed.

Lemma words_not_space d :
  Forall (fun c => is_word c = true) d ->
  Forall (fun c => is_space c = false) d.
Proof.
  intros W. eapply Forall_impl; [|exact W].
  intros c. apply word_not_space.
Qed.

Lemma no_kw_spaces ws l :
  Forall (fun c => is_space c = true) ws -> no_kw l -> no_kw (ws ++ l).
Proof.
  intros S L. induction S as [|c ws C S IH]; [exact L|].
  cbn [app]. apply no_kw_first; [apply space_not_F; exact C|exact IH].
Qed.

(** Past its first code unit, a reference holds no start of a reference. *)
Lemma reference_inside d m :
  reference d m -> exists f m', m = f :: m' /\ no_kw m'.
Proof.
  intros (kw & ws & v & K & N & S & V & M).
  apply kw_shape in K as (f & r & o & m4 & -> & F & R & O & M4).
  assert (SV : Forall (fun c => is_space c = false) v).
  { apply (same_letters_not_space V). unfold catalog_view.
    cbn [lit list_ascii_of_string List.map]. repeat constructor. }
  apply view_shape in V
    as (v1 & t & a & b & l & e & s & -> & V1 & T & A & B & L & E & S').
  assert (Body : forall pre,
             Forall (fun c => is_space c = false) pre ->
             no_kw (r :: o :: m4 :: ws ++ pre
                    ++ v1 ++ 46%N :: [t; a; b; l; e; s])).
  { intros pre P.
    repeat (apply no_kw_first; [congruence|]).
    apply no_kw_spaces; [exact S|].
    replace (pre ++ v1 ++ 46%N :: [t; a; b; l; e; s])
      with ((pre ++ v1 ++ [46%N; t; a]) ++ [b; l; e; s])
      by (repeat first [rewrite <- app_assoc | progress cbn [app]];
          reflexivity).
    apply no_kw_body.
    - repeat first [rewrite <- app_assoc | progress cbn [app]].
      apply Forall_app. split; assumption.
    - repeat constructor; congruence. }
  destruct d as [d|].
  - destruct M as (_ & W & ->). cbn [app]. exists f. eexists.
    split; [reflexivity|].
    specialize (Body (d ++ [46%N])).
    repeat first [rewrite <- app_assoc in Body | progress cbn [app] in Body].
    apply Body. apply Forall_app. split.
    + apply words_not_space; exact W.
    + repeat constructor.
  - subst m. cbn [app]. exists f. eexists. split; [reflexivity|].
    apply (Body []). constructor.
Qed.

Lemma no_overlap d0 m0 tl0 d m before after :
  reference d0 m0 -> reference d m ->
  m0 ++ tl0 = before ++ m ++ after -> before <> [] ->
  exists before', before = m0 ++ before' /\ tl0 = before' ++ m ++ after.
Proof.
  intros R0 R E N.
  apply app_eq_app in E as [l [[E1 E2]|[E1 E2]]].
  - destruct l as [|c l].
    + exists []. rewrite app_nil_r in E1. subst m0. rewrite app_nil_r.
      cbn [app] in *. auto.
    + exfalso.
      destruct (reference_inside R0) as (f & m' & -> & Q).
      destruct before as [|f' before]; [contradiction|].
      inversion E1; subst.
      assert (K := Q before (c :: l) tl0 eq_refl ltac:(discriminate)).
      rewrite <- E2, (reference_kw_at _ R) in K. discriminate.
  - exists l. auto.
Qed.

(** ** The qualifier fails on a reference without dataset *)

Lemma unqualified_throws p before m after :
  reference None m ->
  qualifyTablePath (before ++ m ++ after) p
  = Throw UnqualifiedCatalogReferenceError.
Proof.
  intros R.
  remember (length before) as n eqn:L.
  revert before L. induction n as [n IH] using lt_wf_ind. intros before L.
  assert (Here := reference_ref_at after R).
  rewrite qualify_unfold.
  destruct (ref_at (before ++ m ++ after)) as [[[[d0|] m0] tl0]|] eqn:A.
  - apply ref_at_reference in A as [E R0]. symmetry in E.
    destruct before as [|c before].
    + cbn [app] in E. rewrite <- E, (reference_ref_at tl0 R0) in Here.
      discriminate.
    + destruct (@no_overlap _ _ _ _ _ _ _ R0 R E) as (before' & B & ->);
        [discriminate|].
      rewrite (IH (length before')); [reflexivity| |reflexivity].
      rewrite L, B, length_app.
      destruct (reference_inside R0) as (f & m' & -> & _).
      cbn [length]. lia.
  - reflexivity.
  - destruct before as [|c before].
    + cbn [app] in A. congruence.
    + cbn [app]. rewrite (IH (length before)); [reflexivity| |reflexivity].
      rewrite L. cbn [length]. lia.
Qed.

(** C3. A SQL text that holds FROM INFORMATION_SCHEMA.TABLES (any casing,
    any white space after FROM) without a dataset before the view makes the
    qualifier fail with the error that asks for a dataset; no rewritten
    text is produced. *)
Theorem qualifier_rejects_unqualified_reference
  (sql projectId before m after : jsstring) :
  sql = before ++ m ++ after ->
  reference None m ->
  qualifyTablePath sql projectId = Throw UnqualifiedCatalogReferenceError.
Proof. intros -> R. apply unqualified_throws. exact R. Qed.

Lemma from_view_is_reference :
  reference None (lit "FROM INFORMATION_SCHEMA.TABLES").
Proof.
  exists (lit "FROM"), (lit " "), (lit "INFORMATION_SCHEMA.TABLES").
  repeat split; try discriminate. repeat constructor.
Qed.

Lemma qualifier_rejects_unqualified_reference_witness :
  qualifyTablePath (lit "SELECT * FROM INFORMATION_SCHEMA.TABLES WHERE 1=1")
                   (lit "acme-data")
  = Throw UnqualifiedCatalogReferenceError.
Proof.
  apply (@qualifier_rejects_unqualified_reference _ _
           (lit "SELECT * ") (lit "FROM INFORMATION_SCHEMA.TABLES")
           (lit " WHERE 1=1")).
  - reflexivity.
  - exact from_view_is_reference.
Defined.

Lemma qualified_ok_no_unqualified p sql out before m after :
  qualifyTablePath sql p = OK out ->
  sql = before ++ m ++ after -> ~ reference None m.
Proof.
  intros Q -> R. rewrite (unqualified_throws p before after R) in Q.
  discriminate.
Qed.

(** ** The qualifier rewrites the references with a dataset *)

Lemma reference_pieces d m :
  reference (Some d) m ->
  exists kw ws v, m = kw ++ ws ++ d ++ 46%N :: v.
Proof.
  intros (kw & ws & v & _ & _ & _ & _ & _ & _ & ->). eauto.
Qed.

Lemma no_unqualified_tail pre s :
  no_unqualified_reference (pre ++ s) -> no_unqualified_reference s.
Proof.
  intros H before m after E. apply (H (pre ++ before) m after).
  rewrite E, <- app_assoc. reflexivity.
Qed.

(** C4. In a SQL text whose references to the catalog view all carry a
    dataset, the qualifier rewrites, in one pass from left to right, each
    reference FROM <dataset>.INFORMATION_SCHEMA.TABLES to
    FROM `<projectId>.<dataset>.INFORMATION_SCHEMA.TABLES` and copies every
    other code unit as it is: the text reads as a sequence of pieces, the
    result is the same sequence with each reference replaced, and every
    reference with a dataset that occurs in the text is one of the pieces. *)
Theorem qualifier_rewrites_each_reference (p sql : jsstring) :
  no_unqualified_reference sql ->
  exists pieces,
    sql = flat_map piece_source pieces /\
    Forall piece_ok pieces /\
    qualifyTablePath sql p = OK (flat_map (piece_result p) pieces) /\
    (forall before d m after,
       sql = before ++ m ++ after -> reference (Some d) m ->
       exists l1 kw ws v l2,
         pieces = l1 ++ Rewritten kw ws d v :: l2 /\
         flat_map piece_source l1 = before /\
         m = kw ++ ws ++ d ++ 46%N :: v).
Proof.
  remember (length sql) as n eqn:L.
  revert sql L. induction n as [n IH] using lt_wf_ind. intros sql L NU.
  rewrite qualify_unfold.
  destruct (ref_at sql) as [[[[d0|] m0] tl0]|] eqn:A.
  - (* a reference with a dataset starts here *)
    apply ref_at_reference in A as [-> R0].
    destruct (reference_inside R0) as (f & m0' & Em0 & _).
    destruct (IH (length tl0)) with (sql := tl0)
      as (pieces & Src & Ok & Q & Each);
      [rewrite L, length_app, Em0; cbn [length]; lia|reflexivity
      |apply (@no_unqualified_tail m0 _ NU)|].
    destruct (reference_pieces R0) as (kw & ws & v & Em).
    exists (Rewritten kw ws d0 v :: pieces). repeat split.
    + cbn [flat_map piece_source]. rewrite <- Em, <- Src. reflexivity.
    + constructor; [cbn [piece_ok]; rewrite <- Em; exact R0|exact Ok].
    + rewrite Q. reflexivity.
    + intros before d m after E R. destruct before as [|c before].
      * cbn [app] in E.
        assert (X := reference_ref_at tl0 R0).
        rewrite E, (reference_ref_at after R) in X.
        inversion X; subst. exists [], kw, ws, v, pieces. auto.
      * destruct (@no_overlap _ _ _ _ _ _ _ R0 R E) as (before' & B & T);
          [discriminate|].
        destruct (Each _ _ _ _ T R) as (l1 & kw' & ws' & v' & l2 & P & S1 & M).
        exists (Rewritten kw ws d0 v :: l1), kw', ws', v', l2.
        repeat split; auto.
        -- rewrite P. reflexivity.
        -- cbn [flat_map piece_source]. rewrite <- Em, S1, B. reflexivity.
  - (* a reference without dataset: excluded *)
    apply ref_at_reference in A as [-> R0].
    exfalso. apply (NU [] m0 tl0); [reflexivity|exact R0].
  - destruct sql as [|c sql].
    + exists []. repeat split; auto.
      intros before d m after E R. exfalso.
      destruct (reference_inside R) as (f & m' & -> & _).
      destruct before; discriminate.
    + destruct (IH (length sql)) with (sql := sql)
        as (pieces & Src & Ok & Q & Each);
        [rewrite L; cbn [length]; lia|reflexivity
        |apply (@no_unqualified_tail [c] _ NU)|].
      exists (Kept c :: pieces). repeat split.
      * cbn [flat_map piece_source app]. rewrite <- Src. reflexivity.
      * constructor; [exact I|exact Ok].
      * rewrite Q. reflexivity.
      * intros before d m after E R. destruct before as [|c' before].
        -- cbn [app] in E. rewrite E, (reference_ref_at after R) in A.
           discriminate.
        -- cbn [app] in E. injection E as <- E'.
           destruct (Each _ _ _ _ E' R)
             as (l1 & kw' & ws' & v' & l2 & P & S1 & M).
           exists (Kept c :: l1), kw', ws', v', l2.
           repeat split; auto.
           ++ rewrite P. reflexivity.
           ++ cbn [flat_map piece_source app]. rewrite S1. reflexivity.
Qed.

Example qualify_scenario :
  qualifyTablePath (lit "SELECT * FROM mydataset.INFORMATION_SCHEMA.TABLES")
                   (lit "project")
  = OK (lit "SELECT * FROM `project.mydataset.INFORMATION_SCHEMA.TABLES`").
Proof. reflexivity. Qed.

Lemma qualifier_rewrites_each_reference_witness :
  exists pieces,
    lit "SELECT * FROM mydataset.INFORMATION_SCHEMA.TABLES"
    = flat_map piece_source pieces /\
    Forall piece_ok pieces /\
    qualifyTablePath (lit "SELECT * FROM mydataset.INFORMATION_SCHEMA.TABLES")
                     (lit "project")
    = OK (flat_map (piece_result (lit "project")) pieces) /\
    (forall before d m after,
       lit "SELECT * FROM mydataset.INFORMATION_SCHEMA.TABLES"
       = before ++ m ++ after ->
       reference (Some d) m ->
       exists l1 kw ws v l2,
         pieces = l1 ++ Rewritten kw ws d v :: l2 /\
         flat_map piece_source l1 = before /\
         m = kw ++ ws ++ d ++ 46%N :: v).
Proof.
  apply qualifier_rewrites_each_reference.
  intros before m after E.
  exact (@qualified_ok_no_unqualified _ _ _ _ _ _ qualify_scenario E).
Defined.

(** The casing and the white space of a reference are not kept: the quoted
    form is written in upper case with one space. *)
Example qualify_lower_case :
  qualifyTablePath (lit "select 1 from   ds.information_schema.tables t")
                   (lit "p")
  = OK (lit "select 1 FROM `p.ds.INFORMATION_SCHEMA.TABLES` t").
Proof. vm_compute. reflexivity. Qed.

(** A reference with a project already before the dataset is no match of
    the pattern, and stays. *)
Example qualify_leaves_three_part_name :
  qualifyTablePath (lit "SELECT * FROM p.ds.INFORMATION_SCHEMA.TABLES")
                   (lit "p")
  = OK (lit "SELECT * FROM p.ds.INFORMATION_SCHEMA.TABLES").
Proof. vm_compute. reflexivity. Qed.

(** C4, as it was worded, on the code: a SQL text can hold a reference
    with a dataset and, further on, one without.  The qualifier then
    throws, and rewrites nothing: the reference with a dataset is not
    replaced by its quoted form. *)
Lemma qualifier_rewrites_nothing_when_it_throws :
  let sql :=
    lit "SELECT * FROM sales.INFORMATION_SCHEMA.TABLES UNION ALL SELECT * FROM INFORMATION_SCHEMA.TABLES" in
  (exists before m after,
     sql = before ++ m ++ after /\ reference (Some (lit "sales")) m) /\
  qualifyTablePath sql (lit "acme-data")
  = Throw UnqualifiedCatalogReferenceError /\
  (forall out, qualifyTablePath sql (lit "acme-data") <> OK out).
Proof.
  assert (Q : qualifyTablePath
                (lit "SELECT * FROM sales.INFORMATION_SCHEMA.TABLES UNION ALL SELECT * FROM INFORMATION_SCHEMA.TABLES")
                (lit "acme-data")
              = Throw UnqualifiedCatalogReferenceError)
    by (vm_compute; reflexivity).
  cbv zeta. split; [|split; [exact Q|intros out H; rewrite Q in H; discriminate H]].
  exists (lit "SELECT * "), (lit "FROM sales.INFORMATION_SCHEMA.TABLES"),
         (lit " UNION ALL SELECT * FROM INFORMATION_SCHEMA.TABLES").
  split; [reflexivity|].
  exists (lit "FROM"), (lit " "), (lit "INFORMATION_SCHEMA.TABLES").
  repeat split; try discriminate; repeat constructor.
Qed.

(** ** Qualifying twice *)

Lemma ends_S_last x s :
  ends_S (x ++ [s]) = N.eqb (canonicalize true s) 83.
Proof.
  induction x as [|c x IH]; [reflexivity|].
  cbn [app ends_S]. rewrite IH. destruct (x ++ [s]) eqn:E; [|reflexivity].
  destruct x; discriminate.
Qed.

Lemma same_canon_no_tick c u :
  canonicalize true c = canonicalize true u ->
  negb (N.eqb u 96) = true -> negb (N.eqb c 96) = true.
Proof. intros E U. N_bools. Qed.

Lemma same_letters_no_tick m t :
  same_letters m t -> no_tick t = true -> no_tick m = true.
Proof.
  unfold same_letters, no_tick.
  revert t; induction m as [|ch m IH]; intros [|c t] E U;
    try discriminate; [reflexivity|].
  cbn [forallb] in *. apply andb_true_iff in U as [U1 U2]. inversion E.
  apply andb_true_iff. split.
  - eapply same_canon_no_tick; eauto.
  - eapply IH; eauto.
Qed.

Lemma spaces_no_tick ws :
  Forall (fun c => is_space c = true) ws -> no_tick ws = true.
Proof.
  unfold no_tick. intros S. apply forallb_forall. intros c C.
  rewrite Forall_forall in S. specialize (S c C). N_bools.
Qed.

Lemma words_no_tick d :
  Forall (fun c => is_word c = true) d -> no_tick d = true.
Proof.
  unfold no_tick. intros S. apply forallb_forall. intros c C.
  rewrite Forall_forall in S. specialize (S c C). N_bools.
Qed.

Lemma no_tick_app a b : no_tick (a ++ b) = (no_tick a && no_tick b)%bool.
Proof. apply forallb_app. Qed.

Lemma reference_clean d m :
  reference d m -> no_tick m = true /\ ends_S m = true.
Proof.
  intros (kw & ws & v & K & N & S & V & M).
  assert (TK : no_tick kw = true)
    by (apply (same_letters_no_tick K); reflexivity).
  assert (TV : no_tick v = true)
    by (apply (same_letters_no_tick V); reflexivity).
  assert (TW := spaces_no_tick S).
  assert (EV : forall x, ends_S (x ++ v) = true).
  { intros x.
    apply view_shape in V
      as (v1 & t & a & b & l & e & s & -> & _ & _ & _ & _ & _ & _ & S').
    replace (x ++ v1 ++ [46%N; t; a; b; l; e; s])
      with ((x ++ v1 ++ [46%N; t; a; b; l; e]) ++ [s])
      by (repeat first [rewrite <- app_assoc | progress cbn [app]];
          reflexivity).
    rewrite ends_S_last, S'. reflexivity. }
  destruct d as [d|].
  - destruct M as (_ & W & ->). split.
    + rewrite !no_tick_app, TK, TW, (words_no_tick W).
      change (no_tick (46%N :: v)) with (no_tick v). rewrite TV. reflexivity.
    + replace (kw ++ ws ++ d ++ 46%N :: v)
        with ((kw ++ ws ++ d ++ [46%N]) ++ v)
        by (repeat first [rewrite <- app_assoc | progress cbn [app]];
            reflexivity).
      apply EV.
  - subst m. split.
    + rewrite !no_tick_app, TK, TW, TV. reflexivity.
    + rewrite app_assoc. apply EV.
Qed.

Lemma project_char_not_space c :
  in_ranges [(97, 122); (48, 57); (45, 45)]%N c = true -> is_space c = false.
Proof.
  unfold in_ranges. cbn [existsb fst snd].
  rewrite !orb_true_iff, !between_spec. intros H.
  destruct (is_space c) eqn:S; [|reflexivity].
  apply is_space_spec in S. lia.
Qed.

(** A project ID that passes the check of [validateConfig] has no white
    space. *)
Lemma valid_project_no_space p :
  test projectIdPattern p = true ->
  Forall (fun c => is_space c = false) p.
Proof.
  intros T. apply test_true in T as (u & v & -> & M).
  change (ignoreCase projectIdPattern) with false in M.
  change (source projectIdPattern)
    with (Seq Assert_start
            (Seq (Plus (Class [(97, 122); (48, 57); (45, 45)]%N)) Assert_end))
    in M.
  cbn [matches] in M. cbn [seen start] in M.
  destruct (rev u) as [|c r] eqn:U; [|contradiction M; reflexivity].
  apply (f_equal (@rev _)) in U. rewrite rev_involutive in U. subst u.
  cbn [flat_map rev app] in *. rewrite app_nil_r in M.
  change (flat_map (fun x => match rest x with [] => [x] | _ :: _ => [] end)
            (flat_map ?f ?l))
    with (flat_map (matches false Assert_end)
            (matches false (Plus (Class [(97, 122); (48, 57); (45, 45)]%N))
               (start [] v))) in M.
  rewrite plus_class_longest
    with (p := fun ch =>
                 (in_ranges [(97, 122); (48, 57); (45, 45)]%N ch
                  || (false && in_ranges [(97, 122); (48, 57); (45, 45)]%N
                                         (other_case ch)))%bool) in M;
    [|reflexivity|reflexivity|].
  - cbn [rest start] in M.
    match type of M with context [span ?f v] => set (pc := f) in * end.
    assert (A := span_app pc v). assert (B := span_all pc v).
    rewrite A at 1. clear A.
    destruct (span pc v) as [[|c m] tl]; [contradiction M; reflexivity|].
    cbn [fst snd] in *. cbn [matches rest moved] in M.
    destruct tl; [|contradiction M; reflexivity].
    rewrite app_nil_r. eapply Forall_impl; [|exact B].
    intros a H. unfold pc in H. cbn [andb] in H. rewrite orb_false_r in H.
    apply project_char_not_space. exact H.
  - intros y c tl R _. cbn [matches]. rewrite R. reflexivity.
Qed.

Lemma ref_at_qualified p d tl : ref_at (qualified p d ++ tl) = None.
Proof. reflexivity. Qed.

Lemma qualified_shape p d :
  qualified p d =
  70%N :: [82; 79; 77; 32]%N
          ++ (([96%N] ++ p ++ [46%N] ++ d ++ lit ".INFORMATION_SCHEMA.TAB")
              ++ [76; 69; 83; 96]%N).
Proof.
  unfold qualified.
  repeat first [rewrite <- app_assoc | progress cbn [app]]. reflexivity.
Qed.

Lemma qualified_inside p d :
  Forall (fun c => is_space c = false) p ->
  Forall (fun c => is_word c = true) d ->
  exists rep', qualified p d = 70%N :: rep' /\ no_kw rep'.
Proof.
  intros P W. rewrite qualified_shape. eexists. split; [reflexivity|].
  cbn [app].
  do 4 (apply no_kw_first; [discriminate|]).
  apply no_kw_body
    with (body := 96%N :: p ++ 46%N :: d ++ lit ".INFORMATION_SCHEMA.TAB").
  - repeat first [rewrite <- app_assoc | progress cbn [app]].
    constructor; [reflexivity|].
    apply Forall_app. split; [exact P|].
    constructor; [reflexivity|].
    apply Forall_app. split; [apply words_not_space; exact W|].
    repeat constructor.
  - repeat constructor; discriminate.
Qed.

Lemma quiet_nil : quiet [].
Proof.
  intros u v E. symmetry in E. apply app_eq_nil in E as [_ ->]. reflexivity.
Qed.

Lemma quiet_cons c s : ref_at (c :: s) = None -> quiet s -> quiet (c :: s).
Proof.
  intros H Q u v E. destruct u as [|c' u].
  - cbn [app] in E. subst v. exact H.
  - inversion E; subst. eapply Q; eauto.
Qed.

Lemma not_kw_no_ref s : kw_at s = false -> ref_at s = None.
Proof.
  intros K. destruct (ref_at s) as [r|] eqn:R; [|reflexivity].
  apply ref_at_kw in R. congruence.
Qed.

(** No reference starts in the quoted form, nor across its ends. *)
Lemma quiet_qualified p d tl :
  Forall (fun c => is_space c = false) p ->
  Forall (fun c => is_word c = true) d ->
  quiet tl -> quiet (qualified p d ++ tl).
Proof.
  intros P W Q u v E.
  apply app_eq_app in E as [l [[E1 E2]|[E1 E2]]].
  - subst v. destruct l as [|c l]; [apply (Q [] tl eq_refl)|].
    destruct u as [|c' u].
    + cbn [app] in E1. rewrite <- E1. apply ref_at_qualified.
    + destruct (qualified_inside P W) as (rep' & R & K).
      rewrite R in E1. inversion E1; subst.
      apply not_kw_no_ref. apply (K u (c :: l) tl eq_refl). discriminate.
  - apply (Q l v E2).
Qed.

(** The quoted form cannot start a text that looks like a reference. *)
Lemma qualified_no_prefix p d out m tl' :
  no_tick m = true -> ends_S m = true -> qualified p d ++ out <> m ++ tl'.
Proof.
  intros T S E. rewrite qualified_shape in E. cbn [app] in E.
  destruct m as [|a [|b [|c [|x [|e [|f m]]]]]]; cbn [app] in E;
    inversion E; subst; cbn in S, T; discriminate.
Qed.

Lemma transfers_nil : transfers [] [].
Proof.
  intros m tl' _ S E. symmetry in E. apply app_eq_nil in E as [-> _].
  discriminate S.
Qed.

Lemma transfers_cons c s out : transfers s out -> transfers (c :: s) (c :: out).
Proof.
  intros H m tl' T S E.
  destruct m as [|c' m]; [discriminate S|].
  cbn [app] in E. injection E as <- E.
  destruct m as [|c2 m].
  - exists s. reflexivity.
  - cbn [no_tick forallb] in T. apply andb_true_iff in T as [_ T].
    destruct (H (c2 :: m) tl' T S E) as [tl ->].
    exists tl. reflexivity.
Qed.

(** The result of a pass holds no reference, provided the project ID has
    no white space. *)
Lemma qualify_result_quiet p :
  Forall (fun c => is_space c = false) p ->
  forall s out,
    qualifyTablePath s p = OK out -> quiet out /\ transfers s out.
Proof.
  intros P s. remember (length s) as n eqn:L.
  revert s L. induction n as [n IH] using lt_wf_ind. intros s L out.
  rewrite qualify_unfold.
  destruct (ref_at s) as [[[[d0|] m0] tl0]|] eqn:A.
  - apply ref_at_reference in A as [-> R0].
    destruct (reference_inside R0) as (f & m0' & Em0 & _).
    destruct (qualifyTablePath tl0 p) as [out'|] eqn:Q; [|discriminate].
    cbn [bind]. intros H; inversion H; subst out.
    destruct (IH (length tl0)) with (s := tl0) (out := out') as [Qt _];
      [rewrite L, length_app, Em0; cbn [length]; lia|reflexivity|exact Q|].
    split.
    + apply quiet_qualified; auto.
      destruct R0 as (kw & ws & v & _ & _ & _ & _ & _ & W & _). exact W.
    + intros m tl' T S E. exfalso.
      exact (@qualified_no_prefix _ _ _ _ _ T S E).
  - discriminate.
  - destruct s as [|c s].
    + intros H; inversion H. split; [apply quiet_nil|apply transfers_nil].
    + destruct (qualifyTablePath s p) as [out'|] eqn:Q; [|discriminate].
      cbn [bind]. intros H; inversion H; subst out.
      destruct (IH (length s)) with (s := s) (out := out') as [Qt Tr];
        [rewrite L; cbn [length]; lia|reflexivity|exact Q|].
      assert (Tr' := @transfers_cons c _ _ Tr).
      split; [|exact Tr'].
      apply quiet_cons; [|exact Qt].
      destruct (ref_at (c :: out')) as [[[d m] tl]|] eqn:B; [|reflexivity].
      exfalso. apply ref_at_reference in B as [E R].
      destruct (reference_clean R) as [T S].
      destruct (Tr' m tl T S E) as [tl2 E2].
      rewrite E2, (reference_ref_at tl2 R) in A. discriminate.
Qed.

Lemma quiet_fixed p s : quiet s -> qualifyTablePath s p = OK s.
Proof.
  induction s as [|c s IH]; intros Q; rewrite qualify_unfold.
  - rewrite (Q [] [] eq_refl). reflexivity.
  - rewrite (Q [] (c :: s) eq_refl). rewrite IH; [reflexivity|].
    intros u v E. apply (Q (c :: u) v). rewrite E. reflexivity.
Qed.

Lemma validateConfig_projectId fs config config' :
  validateConfig fs config = OK config' ->
  test projectIdPattern (projectId config') = true.
Proof.
  unfold validateConfig. intros V.
  destruct (match keyFilename config with
            | Some (c :: k) => _
            | _ => _
            end) as [c1|]; [|discriminate V].
  cbn [bind] in V.
  destruct (test projectIdPattern (projectId c1)) eqn:T; [|discriminate V].
  inversion V; subst. exact T.
Qed.

(** C10. Qualification is idempotent: for the project ID of a configuration
    that [validateConfig] has accepted (lower-case letters, digits and
    hyphens), when the qualifier succeeds on a SQL text, it leaves its own
    result as it is.  The quoted form it writes holds no reference any
    more. *)
Theorem qualify_idempotent (fs : FileSystem) (config config' : ServerConfig)
  (sql out : jsstring) :
  validateConfig fs config = OK config' ->
  qualifyTablePath sql (projectId config') = OK out ->
  qualifyTablePath out (projectId config') = OK out.
Proof.
  intros V Q. apply validateConfig_projectId in V.
  apply quiet_fixed.
  apply (@qualify_result_quiet _ (@valid_project_no_space _ V) _ _ Q).
Qed.

Lemma qualify_idempotent_witness :
  qualifyTablePath
    (lit "SELECT table_name FROM `acme-data.sales.INFORMATION_SCHEMA.TABLES`")
    (lit "acme-data")
  = OK (lit "SELECT table_name FROM `acme-data.sales.INFORMATION_SCHEMA.TABLES`").
Proof.
  apply (@qualify_idempotent no_files acme_config acme_config
           (lit "SELECT table_name FROM sales.INFORMATION_SCHEMA.TABLES")).
  - vm_compute. reflexivity.
  - vm_compute. reflexivity.
Defined.

(** The format of the project ID matters: with a text that the check of
    [validateConfig] refuses in its place, a second pass can find a
    reference inside the quoted form of the first. *)
Example qualify_twice_needs_the_project_id_format :
  let p := lit "x` FROM d.INFORMATION_SCHEMA.TABLES `y" in
  validateConfig no_files {| projectId := p; location := None;
                             keyFilename := None |}
  = Throw (Error (lit "Invalid project ID format")) /\
  exists out out',
    qualifyTablePath (lit "FROM a.INFORMATION_SCHEMA.TABLES") p = OK out /\
    qualifyTablePath out p = OK out' /\ out' <> out.
Proof.
  split; [vm_compute; reflexivity|].
  eexists. eexists. split; [vm_compute; reflexivity|].
  split; [vm_compute; reflexivity|]. discriminate.
Qed.

(** ** The query tool *)

Lemma str_eqb_refl s : str_eqb s s = true.
Proof.
  induction s as [|c s IH]; [reflexivity|].
  cbn [str_eqb]. rewrite N.eqb_refl, IH. reflexivity.
Qed.

Lemma str_eqb_eq a b : str_eqb a b = true <-> a = b.
Proof.
  split; [|intros ->; apply str_eqb_refl].
  revert b; induction a as [|x a IH]; intros [|y b] H;
    try discriminate; [reflexivity|].
  cbn [str_eqb] in H. apply andb_true_iff in H as [E H].
  apply N.eqb_eq in E. rewrite E, (IH _ H). reflexivity.
Qed.

Lemma callTool_rejected rt (bigquery : BigQuery rt) config request :
  tool_name request = lit "query" ->
  has_forbidden_word (arg_sql request) ->
  callTool bigquery config request = ([], Throw ForbiddenOperationError).
Proof.
  intros N F. unfold callTool. rewrite N, str_eqb_refl.
  unfold checkReadOnly. apply test_forbidden in F. rewrite F. reflexivity.
Qed.

(** C2. When the SQL of a query tool invocation holds a forbidden token as
    a whole word, the handler ends with the gate's error and has called the
    warehouse client not once; the qualifier has no part in the outcome
    (the error is the gate's also when the qualifier would fail). *)
Theorem gate_failure_precedes_qualifier_and_warehouse
  (rt : Runtime) (bigquery : BigQuery rt) (config : ServerConfig)
  (request : ToolCall) :
  tool_name request = lit "query" ->
  has_forbidden_word (arg_sql request) ->
  fst (callTool bigquery config request) = [] /\
  snd (callTool bigquery config request) = Throw ForbiddenOperationError.
Proof.
  intros N F. rewrite (@callTool_rejected _ bigquery config request N F).
  split; reflexivity.
Qed.

Lemma gate_failure_precedes_qualifier_and_warehouse_witness :
  let request := {| tool_name := lit "query";
                    arg_sql := lit "DROP TABLE sales.orders";
                    arg_maximumBytesBilled := None |} in
  fst (callTool acme_warehouse acme_config request) = [] /\
  snd (callTool acme_warehouse acme_config request)
  = Throw ForbiddenOperationError.
Proof.
  apply gate_failure_precedes_qualifier_and_warehouse.
  - reflexivity.
  - exact drop_is_whole_word.
Defined.

(** The gate comes first also when the qualifier would fail. *)
Example gate_before_qualifier :
  qualifyTablePath (lit "DELETE FROM INFORMATION_SCHEMA.TABLES")
                   (lit "acme-data")
  = Throw UnqualifiedCatalogReferenceError /\
  callTool acme_warehouse acme_config
    {| tool_name := lit "query";
       arg_sql := lit "DELETE FROM INFORMATION_SCHEMA.TABLES";
       arg_maximumBytesBilled := None |}
  = ([], Throw ForbiddenOperationError).
Proof. split; vm_compute; reflexivity. Qed.

(** The spec's scenario of a plain SELECT: it passes the gate, is not
    changed, and is submitted with the configured region and the default
    billing ceiling. *)
Example plain_select_scenario :
  fst (callTool acme_warehouse acme_config
         {| tool_name := lit "query";
            arg_sql := lit "SELECT * FROM `acme-data.sales.orders`";
            arg_maximumBytesBilled := None |})
  = [RunQuery {| query := lit "SELECT * FROM `acme-data.sales.orders`";
                 query_location := Some (lit "US");
                 maximumBytesBilled := lit "1000000000" |}].
Proof. vm_compute. reflexivity. Qed.

(** Every query the handler submits carries the region of the
    configuration. *)
Lemma callTool_submits_configured_location
  rt (bigquery : BigQuery rt) config request options :
  In (RunQuery options) (fst (callTool bigquery config request)) ->
  query_location options = location config.
Proof.
  unfold callTool.
  destruct (str_eqb (tool_name request) (lit "query")); [|intros []].
  destruct (checkReadOnly (arg_sql request)); [|intros []].
  cbn [lift then_ fst snd app].
  destruct (if includes _ _ then _ else _) as [sql|]; [|intros []].
  cbn [lift then_ fst snd app await].
  destruct (runQuery bigquery _); cbn [fst snd app ret];
    (intros [H|[]]; inversion H; reflexivity).
Qed.

(** ** The startup arguments *)

Lemma startsWith_app s p :
  startsWith s p = true -> s = p ++ skipn (length p) s.
Proof.
  revert s; induction p as [|a p IH]; intros s H; [reflexivity|].
  destruct s as [|b s]; [discriminate|]. cbn [startsWith] in H.
  apply andb_true_iff in H as [E H]. apply N.eqb_eq in E. subst b.
  cbn [app length skipn]. rewrite <- (IH _ H). reflexivity.
Qed.

Lemma parseArgs_loop_keeps_location args :
  forall config config',
    parseArgs_loop args config = OK config' ->
    ~ In (lit "--location") args ->
    location config' = location config.
Proof.
  remember (length args) as n eqn:L.
  revert args L. induction n as [n IH] using lt_wf_ind.
  intros args L config config'.
  destruct args as [|arg [|value more]]; cbn [parseArgs_loop].
  - intros H _. inversion H. reflexivity.
  - destruct (negb _); discriminate.
  - destruct (startsWith arg (lit "--")) eqn:SW; [|discriminate].
    cbn [negb].
    destruct (startsWith value (lit "--")); [discriminate|].
    intros H NI.
    assert (NM : ~ In (lit "--location") more)
      by (intros X; apply NI; right; right; exact X).
    assert (Lm : length more < n) by (rewrite L; cbn [length]; lia).
    destruct (str_eqb (skipn 2 arg) (lit "project-id")).
    { rewrite (IH _ Lm more eq_refl _ _ H NM). reflexivity. }
    destruct (str_eqb (skipn 2 arg) (lit "location")) eqn:K.
    { exfalso. apply NI. left. apply str_eqb_eq in K.
      apply startsWith_app in SW. rewrite SW.
      change (length (lit "--")) with 2. rewrite K. reflexivity. }
    destruct (str_eqb (skipn 2 arg) (lit "key-file")); [|discriminate].
    rewrite (IH _ Lm more eq_refl _ _ H NM). reflexivity.
Qed.

(** Without [--location] among the arguments, the configuration gets the
    region written in [parseArgs]. *)
Lemma parseArgs_default_location args config :
  parseArgs args = OK config ->
  ~ In (lit "--location") args ->
  location config = Some (lit "US").
Proof.
  unfold parseArgs. intros H NI.
  destruct (parseArgs_loop args _) as [c|] eqn:P; [|discriminate].
  cbn [bind] in H. destruct (projectId c); [discriminate|].
  inversion H; subst. apply (parseArgs_loop_keeps_location _ _ P NI).
Qed.

(** C7, on the code: with [--project-id acme-data] and no [--location], the
    region of the configuration is [US], not [EU], and [US] is the region
    the query tool submits. *)
Theorem default_location_is_US :
  parseArgs [lit "--project-id"; lit "acme-data"] = OK acme_config /\
  location acme_config = Some (lit "US") /\
  location acme_config <> Some (lit "EU") /\
  fst (callTool acme_warehouse acme_config
         {| tool_name := lit "query"; arg_sql := lit "SELECT 1";
            arg_maximumBytesBilled := None |})
  = [RunQuery {| query := lit "SELECT 1";
                 query_location := Some (lit "US");
                 maximumBytesBilled := lit "1000000000" |}].
Proof.
  split; [vm_compute; reflexivity|].
  split; [reflexivity|].
  split; [discriminate|vm_compute; reflexivity].
Qed.

(** ** Reading a resource *)

Lemma split_nonempty sep s : split sep s <> [].
Proof.
  destruct s as [|c s]; cbn [split]; [discriminate|].
  destruct (N.eqb c sep); [discriminate|].
  destruct (split sep s); discriminate.
Qed.

Lemma split_app sep a b :
  split sep (a ++ sep :: b) = split sep a ++ split sep b.
Proof.
  induction a as [|c a IH]; cbn [app split].
  - rewrite N.eqb_refl. reflexivity.
  - rewrite IH. destruct (N.eqb c sep); [reflexivity|].
    assert (N := @split_nonempty sep a).
    destruct (split sep a); [contradiction|reflexivity].
Qed.

Lemma split_none sep s : ~ In sep s -> split sep s = [s].
Proof.
  induction s as [|c s IH]; intros N; [reflexivity|].
  cbn [split]. destruct (N.eqb_spec c sep) as [->|_].
  - exfalso. apply N. left; reflexivity.
  - rewrite IH; [reflexivity|]. intros X. apply N. right; exact X.
Qed.

Lemma pop_last {A : Type} (l : list A) (x : A) : pop (l ++ [x]) = (Some x, l).
Proof.
  unfold pop. rewrite rev_app_distr. cbn [rev app].
  rewrite rev_involutive. reflexivity.
Qed.

Lemma final_segment_split path seg :
  final_segment path seg -> exists front, split 47 path = front ++ [seg].
Proof.
  intros [N [->|[before ->]]].
  - exists []. apply split_none. exact N.
  - exists (split 47 before). rewrite split_app, (@split_none _ _ N). reflexivity.
Qed.

Lemma readResource_rejected rt (bigquery : BigQuery rt) request_uri url seg :
  new_URL rt request_uri None = OK url ->
  final_segment (pathname rt url) seg ->
  seg <> SCHEMA_PATH ->
  readResource bigquery request_uri = ([], Throw InvalidResourceURIError).
Proof.
  intros U F N. unfold readResource. rewrite U.
  cbn [lift then_ fst snd app].
  destruct (@final_segment_split _ _ F) as [front ->]. rewrite pop_last.
  destruct (pop front) as [tableId rest1].
  destruct (pop rest1) as [datasetId rest2].
  cbn [is_schema]. destruct (str_eqb seg SCHEMA_PATH) eqn:E.
  - apply str_eqb_eq in E. contradiction.
  - reflexivity.
Qed.

(** C6. A resource URI whose path does not end in the segment [schema]
    makes [readResource] fail with the error [Invalid resource URI], and
    the warehouse client is not called. *)
Theorem read_rejects_other_final_segment
  (rt : Runtime) (bigquery : BigQuery rt) (request_uri : jsstring)
  (url : URL rt) (seg : jsstring) :
  new_URL rt request_uri None = OK url ->
  final_segment (pathname rt url) seg ->
  seg <> SCHEMA_PATH ->
  fst (readResource bigquery request_uri) = [] /\
  snd (readResource bigquery request_uri) = Throw InvalidResourceURIError.
Proof.
  intros U F N. rewrite (@readResource_rejected _ bigquery request_uri _ _ U F N).
  split; reflexivity.
Qed.

Lemma no_slash_in_metadata : ~ In 47%N (lit "metadata").
Proof. cbv. intuition discriminate. Qed.

Lemma read_rejects_other_final_segment_witness :
  fst (readResource acme_warehouse
         (lit "bigquery://acme-data/sales/orders/metadata")) = [] /\
  snd (readResource acme_warehouse
         (lit "bigquery://acme-data/sales/orders/metadata"))
  = Throw InvalidResourceURIError.
Proof.
  apply (@read_rejects_other_final_segment node acme_warehouse
           (lit "bigquery://acme-data/sales/orders/metadata")
           {| Url.scheme := lit "bigquery"; Url.host := Some (lit "acme-data");
              Url.path := [lit "sales"; lit "orders"; lit "metadata"];
              Url.query := None; Url.fragment := None |}
           (lit "metadata")).
  - reflexivity.
  - split; [exact no_slash_in_metadata|].
    right. exists (lit "/sales/orders"). reflexivity.
  - discriminate.
Defined.

Lemma then_lift_OK (A B : Type) (a : A) (k : A -> run B) :
  then_ (lift (OK a)) k = k a.
Proof. unfold then_, lift. cbn [fst snd app]. destruct (k a); reflexivity. Qed.

Lemma then_await (A B : Type) (c : call) (answer : result A) (f : A -> B) :
  then_ (await c answer) (fun a => ret (f a))
  = ([c], match answer with OK a => OK (f a) | Throw e => Throw e end).
Proof. destruct answer; reflexivity. Qed.

(** After the marker test, the handler is the client's three steps on the
    two values popped before the marker. *)
Lemma readResource_client rt (bigquery : BigQuery rt) request_uri url front :
  new_URL rt request_uri None = OK url ->
  split 47 (pathname rt url) = front ++ [SCHEMA_PATH] ->
  readResource bigquery request_uri
  = client_outcome bigquery request_uri
      (fst (pop (snd (pop front)))) (fst (pop front)).
Proof.
  intros U S. unfold readResource. rewrite U, then_lift_OK, S, pop_last.
  destruct (pop front) as [t rest1]. cbn [fst snd].
  destruct (pop rest1) as [d rest2].
  cbn [fst snd is_schema]. rewrite str_eqb_refl. cbn [negb].
  unfold client_outcome.
  destruct (handle (dataset_undefined bigquery) d) as [[]|e]; [|reflexivity].
  rewrite then_lift_OK.
  destruct (handle (table_undefined bigquery) t) as [[]|e]; [|reflexivity].
  rewrite then_lift_OK.
  apply (then_await _ _ (contents_of request_uri)).
Qed.

Lemma split_two_pieces sep x : In sep x -> 2 <= length (split sep x).
Proof.
  induction x as [|c x IH]; intros I; [destruct I|].
  cbn [split]. destruct (N.eqb_spec c sep) as [->|N].
  - assert (P := @split_nonempty sep x).
    destruct (split sep x); [contradiction|]. cbn [length]. lia.
  - destruct I as [E|I]; [contradiction|]. specialize (IH I).
    destruct (split sep x); cbn [length] in *; lia.
Qed.

Lemma split_one_piece sep x : length (split sep x) < 2 -> split sep x = [x].
Proof.
  intros L. apply split_none. intros I. apply split_two_pieces in I. lia.
Qed.

Lemma split_head sep c x :
  c <> sep -> exists piece more, split sep (c :: x) = (c :: piece) :: more.
Proof.
  intros N. cbn [split]. destruct (N.eqb_spec c sep); [contradiction|].
  destruct (split sep x); eauto.
Qed.

(** The paths of fewer than three segments that end in [schema], and what
    [String.prototype.split] makes of them. *)
Lemma short_schema_paths path :
  final_segment path SCHEMA_PATH ->
  length (path_segments path) < 3 ->
  exists front,
    split 47 path = front ++ [SCHEMA_PATH] /\
    short_path_identifiers path (fst (pop (snd (pop front))))
                           (fst (pop front)) /\
    (length (path_segments path) < 2 -> front = [] \/ front = [[]]).
Proof.
  intros [NS [->|[before ->]]] L; unfold path_segments in *.
  { exists []. rewrite (@split_none _ _ NS). split; [reflexivity|].
    split; [left; repeat split|]. intros _. left. reflexivity. }
  rewrite split_app, (@split_none _ _ NS) in *.
  exists (split 47 before). split; [reflexivity|].
  destruct before as [|c before].
  { cbn [split app pop rev fst snd]. split; [|intros _; right; reflexivity].
    right. left. repeat split. }
  destruct (N.eqb_spec c 47) as [->|N].
  - cbn [split] in *. rewrite N.eqb_refl in *. cbn [app length] in L.
    rewrite length_app in L. cbn [length] in L.
    assert (S : split 47 before = [before]) by (apply split_one_piece; lia).
    rewrite S in *. cbn [app pop rev fst snd length].
    split; [|intros X; lia].
    right. right. right. exists before. repeat split.
    intros I. apply split_two_pieces in I. rewrite S in I. cbn in I. lia.
  - destruct (@split_head 47 c before N) as (piece & more & E).
    change (@cons BinNums.N c before) with (@cons char16 c before) in *.
    rewrite E in L. cbn [app length] in L. rewrite length_app in L.
    cbn [length] in L.
    assert (S : split 47 (@cons char16 c before) = [@cons char16 c before])
      by (apply split_one_piece; rewrite E; cbn [length]; lia).
    rewrite S in *. cbn [app pop rev fst snd length].
    split; [|intros X; lia].
    right. right. left. exists (c :: before). repeat split; [discriminate|].
    intros I. apply split_two_pieces in I.
    change (@cons BinNums.N c before) with (@cons char16 c before) in I.
    rewrite S in I. cbn in I. lia.
Qed.

(** C9. A resource URI whose path ends in [schema] and has fewer than three
    segments passes the only validation the handler has: the values popped
    for the missing segments, the empty text or [undefined], are handed to
    the warehouse client (lines 215-217), and the handler ends as the
    client does.  The dataset identifier is [undefined], or empty for a
    path [/x/schema]; below two segments the table identifier is missing
    too.  The metadata fetch is made when the client makes its handles; a
    client that refuses a missing identifier throws before any fetch. *)
Theorem read_accepts_short_schema_path
  (rt : Runtime) (bigquery : BigQuery rt) (request_uri : jsstring)
  (url : URL rt) :
  new_URL rt request_uri None = OK url ->
  final_segment (pathname rt url) SCHEMA_PATH ->
  length (path_segments (pathname rt url)) < 3 ->
  exists datasetId tableId,
    short_path_identifiers (pathname rt url) datasetId tableId /\
    missing datasetId /\
    (length (path_segments (pathname rt url)) < 2 -> missing tableId) /\
    readResource bigquery request_uri
    = client_outcome bigquery request_uri datasetId tableId.
Proof.
  intros U F L.
  destruct (short_schema_paths F L) as (front & S & I & Short).
  exists (fst (pop (snd (pop front)))), (fst (pop front)).
  split; [exact I|]. split; [|split].
  - destruct I as [(_ & -> & _)|[(_ & -> & _)|[(x & _ & _ & _ & -> & _)
                  |(x & _ & _ & -> & _)]]];
      [left|left|left|right]; reflexivity.
  - intros X. destruct (Short X) as [->| ->]; [left|right]; reflexivity.
  - apply (@readResource_client _ bigquery _ _ _ U S).
Qed.

Lemma no_slash_in_schema : ~ In 47%N SCHEMA_PATH.
Proof. cbv. intuition discriminate. Qed.

Lemma read_accepts_short_schema_path_witness :
  exists datasetId tableId,
    short_path_identifiers (lit "/orders/schema") datasetId tableId /\
    missing datasetId /\
    (length (path_segments (lit "/orders/schema")) < 2 -> missing tableId) /\
    readResource acme_warehouse (lit "bigquery://acme-data/orders/schema")
    = client_outcome acme_warehouse
        (lit "bigquery://acme-data/orders/schema") datasetId tableId.
Proof.
  apply (@read_accepts_short_schema_path node acme_warehouse
           (lit "bigquery://acme-data/orders/schema")
           {| Url.scheme := lit "bigquery"; Url.host := Some (lit "acme-data");
              Url.path := [lit "orders"; lit "schema"];
              Url.query := None; Url.fragment := None |}).
  - vm_compute. reflexivity.
  - split; [exact no_slash_in_schema|].
    right. exists (lit "/orders"). reflexivity.
  - cbv. lia.
Defined.

(** C9, as it was worded, on the code: the values popped for the missing
    segments do not always reach the metadata fetch.  For the URI
    [bigquery://acme-data/schema], whose path is [/schema], the dataset
    identifier is [undefined]; the client refuses it when the handle is
    made (line 215), and the handler throws the client's error without a
    fetch. *)
Lemma short_schema_path_reaches_no_fetch :
  final_segment (lit "/schema") SCHEMA_PATH /\
  length (path_segments (lit "/schema")) < 3 /\
  new_URL node (lit "bigquery://acme-data/schema") None
  = OK {| Url.scheme := lit "bigquery"; Url.host := Some (lit "acme-data");
          Url.path := [lit "schema"];
          Url.query := None; Url.fragment := None |} /\
  readResource acme_warehouse (lit "bigquery://acme-data/schema")
  = ([], Throw (TypeError (lit "A dataset ID is required."))).
Proof.
  split; [split; [exact no_slash_in_schema|right; exists []; reflexivity]|].
  split; [cbv; lia|].
  split; vm_compute; reflexivity.
Qed.

(** ** From the resource listing to the resource reading *)

Example acme_base_is_resourceBaseUrl :
  resourceBaseUrl_of node acme_config = OK acme_base.
Proof. vm_compute. reflexivity. Qed.

(** The spec's scenario of the listing: the table [orders] of the dataset
    [sales] is listed as ["sales.orders" table schema]. *)
Example listing_scenario :
  option_map name
    (match snd (listResources acme_warehouse acme_base) with
     | OK resources => hd_error resources
     | Throw _ => None
     end)
  = Some ([34%N] ++ lit "sales.orders" ++ [34%N] ++ lit " table schema").
Proof. vm_compute. reflexivity. Qed.

(** For a table with a plain name the listed URI reads back. *)
Example round_trip_orders :
  readResource acme_warehouse (lit "bigquery://acme-data/sales/orders/schema")
  = ([GetMetadata (Some (lit "sales")) (Some (lit "orders"))],
     OK {| contents_uri := lit "bigquery://acme-data/sales/orders/schema";
           contents_mimeType := lit "application/json";
           text := lit "[order_id, amount]" |}).
Proof. vm_compute. reflexivity. Qed.

(** C5, on the code: the table [my table] of the dataset [sales] is listed
    under a URI in which the space is written [%20]; [readResource] accepts
    that URI, and asks the warehouse for the table [my%20table], which is
    not the table that was listed. *)
Theorem round_trip_breaks_on_escaped_name :
  snd (listResources acme_warehouse acme_base)
  = OK [{| uri := lit "bigquery://acme-data/sales/orders/schema";
           mimeType := lit "application/json";
           name := [34%N] ++ lit "sales.orders" ++ [34%N]
                   ++ lit " table schema" |};
        {| uri := lit "bigquery://acme-data/sales/my%20table/schema";
           mimeType := lit "application/json";
           name := [34%N] ++ lit "sales.my table" ++ [34%N]
                   ++ lit " view schema" |}] /\
  readResource acme_warehouse
    (lit "bigquery://acme-data/sales/my%20table/schema")
  = ([GetMetadata (Some (lit "sales")) (Some (lit "my%20table"))],
     Throw (ProviderError 404)) /\
  lit "my%20table" <> lit "my table".
Proof.
  split; [vm_compute; reflexivity|].
  split; [vm_compute; reflexivity|discriminate].
Qed.

(** *** Plain identifiers survive the round trip *)

Lemma plain_char_spec c :
  plain_char c = true ->
  ((97 <= c <= 122) \/ (65 <= c <= 90) \/ (48 <= c <= 57) \/ c = 95
   \/ c = 45)%N.
Proof.
  unfold plain_char. rewrite orb_true_iff, is_word_spec, N.eqb_eq. tauto.
Qed.

Ltac plain_facts :=
  repeat match goal with
         | H : plain_char _ = true |- _ => apply plain_char_spec in H
         end.

Ltac N_tests :=
  repeat match goal with
         | |- context [N.eqb ?a ?b] => destruct (N.eqb_spec a b)
         | |- context [N.leb ?a ?b] => destruct (N.leb_spec a b)
         | |- context [N.ltb ?a ?b] => destruct (N.ltb_spec a b)
         end;
  cbn [andb orb negb]; try reflexivity; try lia.

Lemma code_points_ascii s :
  Forall (fun c => (c < 128)%N) s -> Url.code_points s = s.
Proof.
  induction 1 as [|c s C _ IH]; [reflexivity|].
  cbn [Url.code_points]. unfold between.
  destruct (N.leb_spec 55296 c); [lia|]. cbn [andb].
  destruct (N.leb_spec 56320 c); [lia|]. cbn [andb].
  rewrite IH. reflexivity.
Qed.

Lemma drop_leading_visible s :
  Forall (fun c => (32 < c)%N) s -> Url.drop_leading s = s.
Proof.
  intros F. destruct F as [|c s C _]; [reflexivity|].
  cbn [Url.drop_leading]. destruct (N.leb_spec c 32); [lia|reflexivity].
Qed.

Lemma preprocess_visible s :
  Forall (fun c => (32 < c)%N) s -> Url.preprocess s = s.
Proof.
  intros F. unfold Url.preprocess.
  rewrite (drop_leading_visible F).
  rewrite drop_leading_visible by (apply Forall_rev; exact F).
  rewrite rev_involutive.
  induction F as [|c s C _ IH]; [reflexivity|].
  cbn [filter].
  destruct (N.eqb_spec c 9); [lia|]. destruct (N.eqb_spec c 10); [lia|].
  destruct (N.eqb_spec c 13); [lia|]. cbn [orb negb]. rewrite IH.
  reflexivity.
Qed.

Lemma scheme_rest_slash x y :
  ~ In 58%N x -> Url.scheme_rest (x ++ 47%N :: y) = None.
Proof.
  induction x as [|c x IH]; intros N; cbn [app Url.scheme_rest].
  - reflexivity.
  - destruct (N.eqb_spec c 58) as [->|_].
    + exfalso. apply N. left; reflexivity.
    + rewrite IH by (intros X; apply N; right; exact X).
      destruct (Url.scheme_char c); reflexivity.
Qed.

Lemma until_all stop s :
  Forall (fun c => stop c = false) s -> Url.until stop s = (s, []).
Proof.
  induction 1 as [|c s C _ IH]; [reflexivity|].
  cbn [Url.until]. rewrite C, IH. reflexivity.
Qed.

Lemma until_stop stop s c tl :
  Forall (fun c => stop c = false) s -> stop c = true ->
  Url.until stop (s ++ c :: tl) = (s, c :: tl).
Proof.
  intros F S. induction F as [|a s A _ IH]; cbn [app Url.until].
  - rewrite S. reflexivity.
  - rewrite A, IH. reflexivity.
Qed.

Lemma percent_encode_plain set s :
  Forall (fun c => set c = false) s -> Url.percent_encode_all set s = s.
Proof.
  unfold Url.percent_encode_all, Url.percent_encode.
  induction 1 as [|c s C _ IH]; [reflexivity|].
  cbn [flat_map]. rewrite C, IH. reflexivity.
Qed.

Lemma plain_all (P : char16 -> Prop) s :
  (forall c, plain_char c = true -> P c) -> plain s -> Forall P s.
Proof.
  intros H [_ F]. eapply Forall_impl; [|exact F]. exact H.
Qed.

Lemma plain_in s c : plain s -> In c s -> plain_char c = true.
Proof. intros [_ F] I. rewrite Forall_forall in F. apply F. exact I. Qed.

Lemma plain_not_in s c : plain s -> plain_char c = false -> ~ In c s.
Proof. intros P C I. rewrite (@plain_in _ _ P I) in C. discriminate. Qed.

Lemma to_lower_plain c :
  plain_char c = true -> Url.to_lower c <> 46%N /\ Url.to_lower c <> 37%N.
Proof.
  intros C. plain_facts. unfold Url.to_lower, is_upper, between.
  destruct (N.leb_spec 65 c), (N.leb_spec c 90); cbn [andb]; lia.
Qed.

Lemma plain_no_dots s :
  plain s -> Url.single_dot s = false /\ Url.double_dot s = false.
Proof.
  intros [N F]. destruct s as [|c s]; [contradiction|].
  inversion F as [|? ? C _]; subst.
  destruct (to_lower_plain c C) as [L1 L2].
  assert (C46 : c <> 46%N) by (plain_facts; lia).
  apply N.eqb_neq in L1, L2, C46.
  unfold Url.single_dot, Url.double_dot.
  cbn [List.map lit list_ascii_of_string str_eqb].
  change (N_of_ascii ".") with 46%N. change (N_of_ascii "%") with 37%N.
  rewrite L1, L2, C46. split; reflexivity.
Qed.

Lemma plain_schema : plain SCHEMA_PATH.
Proof. split; [discriminate|repeat constructor]. Qed.

Lemma plain_path_set c : plain_char c = true -> Url.path_set c = false.
Proof.
  intros C. plain_facts.
  unfold Url.path_set, Url.query_set, Url.c0_control_set.
  rewrite !orb_false_iff, !N.eqb_neq, !N.ltb_ge. lia.
Qed.

Lemma plain_path_end c : plain_char c = true -> Url.path_end c = false.
Proof.
  intros C. plain_facts. unfold Url.path_end.
  rewrite !orb_false_iff, !N.eqb_neq. lia.
Qed.

Lemma path_state_last p seg :
  plain seg -> Url.path_state p [seg] = p ++ [seg].
Proof.
  intros P. cbn [Url.path_state].
  rewrite (@percent_encode_plain _ _ (@plain_all _ _ plain_path_set P)).
  destruct (@plain_no_dots _ P) as [-> ->]. reflexivity.
Qed.

Lemma path_state_next p seg seg' more :
  plain seg ->
  Url.path_state p (seg :: seg' :: more)
  = Url.path_state (p ++ [seg]) (seg' :: more).
Proof.
  intros P. cbn [Url.path_state].
  rewrite (@percent_encode_plain _ _ (@plain_all _ _ plain_path_set P)).
  destruct (@plain_no_dots _ P) as [-> ->]. reflexivity.
Qed.

Lemma no_slash_in_plain s : plain s -> ~ In 47%N s.
Proof. intros P. apply (@plain_not_in _ _ P). reflexivity. Qed.

(** The path [d/t/schema] of plain identifiers parses to its three
    segments. *)
Lemma path_of_plain sch h d t :
  plain d -> plain t ->
  Url.path_query_fragment sch h [] (d ++ 47%N :: t ++ 47%N :: SCHEMA_PATH)
  = Url.Parsed {| Url.scheme := sch; Url.host := h;
                  Url.path := [d; t; SCHEMA_PATH];
                  Url.query := None; Url.fragment := None |}.
Proof.
  intros D T. unfold Url.path_query_fragment.
  rewrite until_all.
  - cbn [Url.query_fragment].
    rewrite split_app, (@split_none _ _ (@no_slash_in_plain _ D)).
    rewrite split_app, (@split_none _ _ (@no_slash_in_plain _ T)).
    rewrite (@split_none _ _ (@no_slash_in_plain _ plain_schema)).
    cbn [app].
    rewrite (@path_state_next _ _ _ _ D), (@path_state_next _ _ _ _ T).
    rewrite (@path_state_last _ _ plain_schema). reflexivity.
  - apply Forall_app. split; [exact (@plain_all _ _ plain_path_end D)|].
    constructor; [reflexivity|].
    apply Forall_app. split; [exact (@plain_all _ _ plain_path_end T)|].
    constructor; [reflexivity|].
    exact (@plain_all _ _ plain_path_end plain_schema).
Qed.

Lemma plain_ascii c : plain_char c = true -> (c < 128)%N.
Proof. intros C. plain_facts. lia. Qed.

Lemma plain_visible c : plain_char c = true -> (32 < c)%N.
Proof. intros C. plain_facts. lia. Qed.

Lemma plain_not_colon s : plain s -> ~ In 58%N s.
Proof. intros P. apply (@plain_not_in _ _ P). reflexivity. Qed.

Lemma existsb_none {A : Type} (f : A -> bool) l :
  Forall (fun a => f a = false) l -> existsb f l = false.
Proof.
  induction 1 as [|a l H _ IH]; [reflexivity|].
  cbn [existsb]. rewrite H, IH. reflexivity.
Qed.

(** The URI template of the listing, resolved against the base URL. *)
Lemma parse_relative_plain p d t :
  plain d -> plain t ->
  Url.parse (d ++ lit "/" ++ t ++ lit "/" ++ SCHEMA_PATH) (Some (base_of p))
  = Url.Parsed (schema_url p d t).
Proof.
  intros D T.
  change (d ++ lit "/" ++ t ++ lit "/" ++ SCHEMA_PATH)
    with (d ++ 47%N :: t ++ 47%N :: SCHEMA_PATH).
  unfold Url.parse.
  rewrite code_points_ascii, preprocess_visible.
  - assert (S : Url.parse_scheme (d ++ 47%N :: t ++ 47%N :: SCHEMA_PATH)
                = None).
    { unfold Url.parse_scheme.
      rewrite scheme_rest_slash by (apply plain_not_colon; exact D).
      destruct (d ++ 47%N :: t ++ 47%N :: SCHEMA_PATH); [reflexivity|].
      destruct (Url.is_alpha _); reflexivity. }
    rewrite S. unfold Url.relative.
    change (Url.is_special (Url.scheme (base_of p))) with false.
    cbn [base_of Url.scheme Url.host Url.path Url.query].
    destruct D as [ND FD]. destruct d as [|c d]; [contradiction|].
    inversion FD as [|? ? C FD']; subst.
    assert (C47 : N.eqb 47 c = false).
    { apply N.eqb_neq. plain_facts. lia. }
    cbn [app startsWith lit list_ascii_of_string List.map].
    change (N_of_ascii "/") with 47%N. rewrite C47. cbn [andb].
    rewrite (plain_path_end c C).
    change (Url.shorten []) with (@nil jsstring).
    apply (@path_of_plain _ _ (c :: d) t (conj ND FD) T).
  - apply Forall_app. split; [exact (@plain_all _ _ plain_visible D)|].
    constructor; [reflexivity|].
    apply Forall_app. split; [exact (@plain_all _ _ plain_visible T)|].
    constructor; [reflexivity|].
    exact (@plain_all _ _ plain_visible plain_schema).
  - apply Forall_app. split; [exact (@plain_all _ _ plain_ascii D)|].
    constructor; [reflexivity|].
    apply Forall_app. split; [exact (@plain_all _ _ plain_ascii T)|].
    constructor; [reflexivity|].
    exact (@plain_all _ _ plain_ascii plain_schema).
Qed.

Lemma href_schema_url p d t :
  Url.href (schema_url p d t) = schema_uri p d t.
Proof.
  unfold Url.href, Url.pathname, schema_url, schema_uri.
  cbn [Url.scheme Url.host Url.path Url.query Url.fragment flat_map].
  repeat first [rewrite <- app_assoc | rewrite app_nil_r
               | progress cbn [app]].
  reflexivity.
Qed.

Lemma parse_scheme_bigquery s :
  Url.parse_scheme (lit "bigquery:" ++ s) = Some (lit "bigquery", s).
Proof. reflexivity. Qed.

Lemma plain_authority_end c :
  plain_char c = true -> Url.authority_end c = false.
Proof.
  intros C. plain_facts. unfold Url.authority_end.
  rewrite !orb_false_iff, !N.eqb_neq. lia.
Qed.

Lemma plain_no_credentials c :
  plain_char c = true ->
  (N.eqb c 64 || N.eqb c 58 || N.eqb c 91)%bool = false.
Proof.
  intros C. plain_facts. rewrite !orb_false_iff, !N.eqb_neq. lia.
Qed.

Lemma plain_not_forbidden c :
  plain_char c = true -> Url.forbidden_host_code_point c = false.
Proof.
  intros C. plain_facts. unfold Url.forbidden_host_code_point.
  cbn [existsb]. rewrite !orb_false_iff, !N.eqb_neq. lia.
Qed.

Lemma plain_c0_control_set c :
  plain_char c = true -> Url.c0_control_set c = false.
Proof.
  intros C. plain_facts. unfold Url.c0_control_set.
  rewrite !orb_false_iff, !N.ltb_ge. lia.
Qed.

Lemma schema_uri_chars (P : char16 -> Prop) p d t :
  (forall c, plain_char c = true -> P c) -> P 58%N -> P 47%N ->
  plain p -> plain d -> plain t -> Forall P (schema_uri p d t).
Proof.
  intros H C S Pp D T. unfold schema_uri.
  apply Forall_app. split.
  { repeat constructor; try assumption; apply H; reflexivity. }
  apply Forall_app. split; [repeat constructor; assumption|].
  apply Forall_app. split; [exact (@plain_all _ _ H Pp)|].
  constructor; [assumption|].
  apply Forall_app. split; [exact (@plain_all _ _ H D)|].
  constructor; [assumption|].
  apply Forall_app. split; [exact (@plain_all _ _ H T)|].
  constructor; [assumption|].
  exact (@plain_all _ _ H plain_schema).
Qed.

Lemma startsWith_nil s : startsWith s [] = true.
Proof. destruct s; reflexivity. Qed.

(** The listed URI, parsed on its own. *)
Lemma parse_absolute_plain p d t :
  plain p -> plain d -> plain t ->
  Url.parse (schema_uri p d t) None = Url.Parsed (schema_url p d t).
Proof.
  intros Pp D T. unfold Url.parse.
  rewrite code_points_ascii
    by (apply schema_uri_chars; auto using plain_ascii; reflexivity).
  rewrite preprocess_visible
    by (apply schema_uri_chars; auto using plain_visible; reflexivity).
  unfold schema_uri. rewrite parse_scheme_bigquery.
  unfold Url.absolute. change (Url.is_special (lit "bigquery")) with false.
  cbn [lit list_ascii_of_string List.map app startsWith skipn].
  change (N_of_ascii "/") with 47%N. cbn [N.eqb Pos.eqb andb].
  unfold Url.authority.
  rewrite until_stop;
    [|exact (@plain_all _ _ plain_authority_end Pp)|reflexivity].
  rewrite startsWith_nil.
  rewrite existsb_none by exact (@plain_all _ _ plain_no_credentials Pp).
  rewrite existsb_none by exact (@plain_all _ _ plain_not_forbidden Pp).
  rewrite (@percent_encode_plain _ _
             (@plain_all _ _ plain_c0_control_set Pp)).
  unfold Url.path_start.
  cbn [lit list_ascii_of_string List.map startsWith skipn].
  change (N_of_ascii "/") with 47%N. cbn [N.eqb Pos.eqb andb].
  rewrite startsWith_nil.
  apply (@path_of_plain _ _ d t D T).
Qed.

(** The listing's URI for a table with plain identifiers reads back as the
    same dataset and table: the round trip of the spec holds on these. *)
Lemma round_trip_plain (bigquery : BigQuery node) (p d t : jsstring) :
  plain p -> plain d -> plain t ->
  exists u,
    new_URL node (d ++ lit "/" ++ t ++ lit "/" ++ SCHEMA_PATH)
            (Some (base_of p)) = OK u /\
    href node u = schema_uri p d t /\
    readResource bigquery (href node u)
    = then_ (await (GetMetadata (Some d) (Some t))
                   (getMetadata bigquery (Some d) (Some t)))
            (fun metadata =>
               ret {| contents_uri := href node u;
                      contents_mimeType := lit "application/json";
                      text := JSON_stringify node (schema_fields metadata) |}).
Proof.
  intros Pp D T. exists (schema_url p d t).
  cbn [new_URL href node]. rewrite (@parse_relative_plain p _ _ D T).
  rewrite href_schema_url. split; [reflexivity|]. split; [reflexivity|].
  unfold readResource. cbn [new_URL pathname node].
  change (@None (URL node)) with (@None Url.t).
  rewrite (@parse_absolute_plain _ _ _ Pp D T), then_lift_OK.
  unfold Url.pathname, schema_url. cbn [Url.path flat_map].
  rewrite app_nil_r. cbn [split app]. rewrite N.eqb_refl.
  rewrite split_app, (@split_none _ _ (@no_slash_in_plain _ D)).
  rewrite split_app, (@split_none _ _ (@no_slash_in_plain _ T)).
  rewrite (@split_none _ _ (@no_slash_in_plain _ plain_schema)).
  cbn [app pop rev is_schema]. rewrite str_eqb_refl.
  cbn [negb handle]. rewrite !then_lift_OK. reflexivity.
Qed.

Lemma new_URL_relative_plain p d t :
  plain d -> plain t ->
  new_URL node (d ++ lit "/" ++ t ++ lit "/" ++ SCHEMA_PATH)
          (Some (base_of p))
  = OK (schema_url p d t).
Proof.
  intros D T. cbn [new_URL node].
  change (@Some (URL node) (base_of p)) with (@Some Url.t (base_of p)).
  rewrite (@parse_relative_plain p _ _ D T). reflexivity.
Qed.

(** What the listing writes for one table with plain identifiers. *)
Lemma list_tables_plain (bigquery : BigQuery node) (p d t : jsstring)
  (metadata : TableMetadata node) :
  plain d -> plain t ->
  getMetadata bigquery (Some d) (Some t) = OK metadata ->
  exists resource,
    snd (list_tables bigquery (base_of p) d [t]) = OK [resource] /\
    uri resource = schema_uri p d t.
Proof.
  intros D T M. eexists. cbn [list_tables]. rewrite M.
  unfold then_ at 1. cbn [await fst snd].
  match goal with
  | |- context [lift ?x] =>
      replace x with (@OK (URL node) (schema_url p d t))
        by (symmetry; exact (@new_URL_relative_plain p _ _ D T))
  end.
  cbn [lift then_ ret fst snd app]. split; [reflexivity|].
  cbn [uri]. apply href_schema_url.
Qed.

(** * Further properties of the code *)

(** ** The command line *)

Lemma pairs_ind (A : Type) (P : list A -> Prop) :
  P [] -> (forall a, P [a]) -> (forall a b l, P l -> P (a :: b :: l)) ->
  forall l, P l.
Proof.
  intros H0 H1 H2 l.
  assert (H : P l /\ forall a, P (a :: l)); [|apply H].
  induction l as [|b l [IH1 IH2]]; split; auto.
Qed.

Lemma startsWith_prefix p s : startsWith (p ++ s) p = true.
Proof.
  induction p as [|c p IH]; [apply startsWith_nil|].
  cbn [app startsWith]. rewrite N.eqb_refl, IH. reflexivity.
Qed.

Lemma includes_app a p b : includes (a ++ p ++ b) p = true.
Proof.
  induction a as [|c a IH].
  - cbn [app]. destruct (p ++ b) eqn:E; cbn [includes];
      rewrite <- E, startsWith_prefix; reflexivity.
  - cbn [app includes]. rewrite IH. apply orb_true_r.
Qed.

(** One round of the loop of [parseArgs]. *)
Lemma parseArgs_loop_step k v more config :
  ok_pair (k, v) ->
  parseArgs_loop ((lit "--" ++ k) :: v :: more) config
  = parseArgs_loop more (set_option config (k, v)).
Proof.
  intros [K V]. cbn [fst snd] in K, V.
  cbn [parseArgs_loop]. rewrite startsWith_prefix. cbn [negb].
  rewrite V. change (skipn 2 (lit "--" ++ k)) with k.
  unfold set_option. cbn [fst snd].
  destruct K as [<-|[<-|[<-|[]]]]; reflexivity.
Qed.

Lemma parseArgs_loop_pairs pairs :
  Forall ok_pair pairs ->
  forall config,
    parseArgs_loop (arg_words pairs) config
    = OK (fold_left set_option pairs config).
Proof.
  induction 1 as [|[k v] pairs O _ IH]; intros config; [reflexivity|].
  cbn [arg_words flat_map app fst snd].
  change (flat_map _ pairs) with (arg_words pairs).
  rewrite (parseArgs_loop_step _ _ O). apply IH.
Qed.

Lemma parseArgs_loop_inv args :
  forall config config',
    parseArgs_loop args config = OK config' ->
    exists pairs,
      args = arg_words pairs /\ Forall ok_pair pairs /\
      config' = fold_left set_option pairs config.
Proof.
  induction args as [|a|a v more IH] using pairs_ind; intros config config'.
  - intros H. inversion H. exists []. repeat split. constructor.
  - cbn [parseArgs_loop]. destruct (negb _); discriminate.
  - cbn [parseArgs_loop].
    destruct (startsWith a (lit "--")) eqn:SW; [|discriminate]. cbn [negb].
    destruct (startsWith v (lit "--")) eqn:V; [discriminate|].
    apply startsWith_app in SW. change (length (lit "--")) with 2 in SW.
    set (k := skipn 2 a) in *.
    assert (step : forall c1,
               In k option_names -> set_option config (k, v) = c1 ->
               parseArgs_loop more c1 = OK config' ->
               exists pairs,
                 a :: v :: more = arg_words pairs /\ Forall ok_pair pairs /\
                 config' = fold_left set_option pairs config).
    { intros c1 K S H. apply IH in H as (pairs & -> & O & ->).
      exists ((k, v) :: pairs). cbn [arg_words flat_map app fst snd fold_left].
      rewrite <- SW, S. repeat split.
      constructor; [split; assumption|assumption]. }
    destruct (str_eqb k (lit "project-id")) eqn:E1.
    { apply step.
      - apply str_eqb_eq in E1. rewrite E1. left. reflexivity.
      - unfold set_option. cbn [fst snd]. rewrite E1. reflexivity. }
    destruct (str_eqb k (lit "location")) eqn:E2.
    { apply step.
      - apply str_eqb_eq in E2. rewrite E2. right. left. reflexivity.
      - unfold set_option. cbn [fst snd]. rewrite E1, E2. reflexivity. }
    destruct (str_eqb k (lit "key-file")) eqn:E3; [|discriminate].
    apply step.
    + apply str_eqb_eq in E3. rewrite E3. right. right. left. reflexivity.
    + unfold set_option. cbn [fst snd]. rewrite E1, E2. reflexivity.
Qed.

(** X1. [parseArgs] succeeds exactly on the command lines that are a
    sequence of options, each one of [--project-id], [--location] and
    [--key-file] followed by a value that does not start with two hyphens,
    and that leave a project ID that is not empty; the configuration is the
    one the options write, from left to right, over the defaults. *)
Theorem parseArgs_accepts_option_value_pairs
  (args : list jsstring) (config : ServerConfig) :
  parseArgs args = OK config <->
  exists pairs,
    args = arg_words pairs /\ Forall ok_pair pairs /\
    config = fold_left set_option pairs default_config /\
    projectId config <> [].
Proof.
  unfold parseArgs. fold default_config. split.
  - destruct (parseArgs_loop args default_config) as [c|] eqn:P;
      [|discriminate].
    cbn [bind]. destruct (projectId c) eqn:E; [discriminate|].
    intros H. inversion H; subst.
    apply parseArgs_loop_inv in P as (pairs & A & O & C).
    exists pairs. repeat split; try assumption. rewrite E. discriminate.
  - intros (pairs & -> & O & -> & N).
    rewrite (parseArgs_loop_pairs O). cbn [bind].
    destruct (projectId _); [contradiction|reflexivity].
Qed.

Lemma parseArgs_loop_odd args :
  Nat.odd (length args) = true ->
  forall config,
  exists arg e,
    In arg args /\ In e (argument_errors arg) /\
    parseArgs_loop args config = Throw e.
Proof.
  induction args as [|a|a v more IH] using pairs_ind; intros O config.
  - discriminate O.
  - exists a. cbn [parseArgs_loop].
    destruct (negb _); eexists; (split; [left; reflexivity|]);
      (split; [|reflexivity]); cbn; auto.
  - change (Nat.odd (length (a :: v :: more)))
      with (Nat.odd (length more)) in O.
    cbn [parseArgs_loop].
    destruct (negb _).
    { exists a. eexists. split; [left; reflexivity|].
      split; [|reflexivity]. cbn; auto. }
    destruct (startsWith v _).
    { exists a. eexists. split; [left; reflexivity|].
      split; [|reflexivity]. cbn; auto. }
    assert (R : forall c1,
               exists arg e,
                 In arg (a :: v :: more) /\ In e (argument_errors arg) /\
                 parseArgs_loop more c1 = Throw e).
    { intros c1. destruct (IH O c1) as (arg & e & I & E & P).
      exists arg, e. split; [right; right; exact I|]. split; assumption. }
    destruct (str_eqb _ (lit "project-id")); [apply R|].
    destruct (str_eqb _ (lit "location")); [apply R|].
    destruct (str_eqb _ (lit "key-file")); [apply R|].
    exists a. eexists. split; [left; reflexivity|].
    split; [|reflexivity]. cbn; auto.
Qed.

(** X2. Every option needs its value: on a command line with an odd number
    of words [parseArgs] throws, and the error is one of the three of its
    loop (an invalid argument, a missing value, an unknown argument), about
    one of the words given; it is not the usage text. *)
Theorem parseArgs_odd_number_of_words_throws (args : list jsstring) :
  Nat.odd (length args) = true ->
  exists arg e,
    In arg args /\ In e (argument_errors arg) /\ parseArgs args = Throw e.
Proof.
  intros O. unfold parseArgs.
  destruct (parseArgs_loop_odd args O
              {| projectId := []; location := Some (lit "US");
                 keyFilename := None |}) as (arg & e & I & E & P).
  exists arg, e. rewrite P. repeat split; assumption.
Qed.

Lemma parseArgs_odd_number_of_words_throws_witness :
  exists arg e,
    In arg [lit "--project-id"; lit "acme-data"; lit "--location"] /\
    In e (argument_errors arg) /\
    parseArgs [lit "--project-id"; lit "acme-data"; lit "--location"]
    = Throw e.
Proof.
  apply (parseArgs_odd_number_of_words_throws
           [lit "--project-id"; lit "acme-data"; lit "--location"]).
  reflexivity.
Defined.

Lemma option_value_set k v c :
  In k option_names -> option_value k (set_option c (k, v)) = Some v.
Proof.
  unfold option_value, set_option. cbn [fst snd].
  intros [<-|[<-|[<-|[]]]]; reflexivity.
Qed.

Lemma option_value_other k k' v c :
  In k option_names -> In k' option_names -> k' <> k ->
  option_value k (set_option c (k', v)) = option_value k c.
Proof.
  unfold option_value, set_option. cbn [fst snd].
  intros [<-|[<-|[<-|[]]]] [<-|[<-|[<-|[]]]] N;
    first [reflexivity | exfalso; apply N; reflexivity].
Qed.

Lemma option_value_kept k pairs :
  In k option_names -> Forall ok_pair pairs ->
  ~ In (lit "--" ++ k) (arg_words pairs) ->
  forall c, option_value k (fold_left set_option pairs c) = option_value k c.
Proof.
  intros K O. induction O as [|[k' v'] pairs [K' V'] _ IH]; intros NI c;
    [reflexivity|].
  cbn [arg_words flat_map app fst snd fold_left] in *.
  change (flat_map _ pairs) with (arg_words pairs) in NI.
  rewrite IH by (intros X; apply NI; right; right; exact X).
  apply option_value_other; try assumption.
  intros ->. apply NI. left. reflexivity.
Qed.

Lemma arg_words_split pairs :
  Forall ok_pair pairs ->
  forall a k v b,
    arg_words pairs = a ++ (lit "--" ++ k) :: v :: b ->
    exists before after,
      pairs = before ++ (k, v) :: after /\ b = arg_words after.
Proof.
  induction 1 as [|[k1 v1] pairs [K1 V1] O IH]; intros a k v b E.
  - destruct a; discriminate E.
  - cbn [arg_words flat_map app fst snd] in E, V1.
    change (flat_map _ pairs) with (arg_words pairs) in E.
    destruct a as [|x [|y a]]; cbn [app] in E.
    + injection E as E1 E2 E3. subst.
      exists [], pairs. split; reflexivity.
    + injection E as E1 E2 E3. subst v1.
      change (startsWith (lit "--" ++ k) (lit "--") = false) in V1.
      rewrite startsWith_prefix in V1. discriminate.
    + injection E as E1 E2 E3. subst.
      destruct (IH _ _ _ _ E3) as (before & after & -> & ->).
      exists ((k1, y) :: before), after. split; reflexivity.
Qed.

Lemma parseArgs_option_value k v a b config :
  In k option_names ->
  parseArgs (a ++ (lit "--" ++ k) :: v :: b) = OK config ->
  ~ In (lit "--" ++ k) b ->
  option_value k config = Some v.
Proof.
  intros K P NI. unfold parseArgs in P.
  destruct (parseArgs_loop _ _) as [c|] eqn:L; [|discriminate].
  cbn [bind] in P. destruct (projectId c) eqn:E; [discriminate|].
  inversion P; subst config. clear P E.
  apply parseArgs_loop_inv in L as (pairs & A & O & ->).
  symmetry in A.
  destruct (arg_words_split O _ _ _ _ A) as (before & after & -> & ->).
  rewrite fold_left_app. cbn [fold_left].
  apply Forall_app in O as [_ O]. inversion O; subst.
  rewrite option_value_kept by assumption.
  apply option_value_set. exact K.
Qed.

(** X3. An option given more than once counts at its last place: when
    [parseArgs] succeeds on a command line in which an option is followed
    by a value and is not given again after it, the configuration holds
    that value in the option's field. *)
Theorem parseArgs_last_value_wins
  (k v : jsstring) (a b : list jsstring) (config : ServerConfig) :
  In k option_names ->
  parseArgs (a ++ (lit "--" ++ k) :: v :: b) = OK config ->
  ~ In (lit "--" ++ k) b ->
  option_value k config = Some v.
Proof. apply parseArgs_option_value. Qed.

Lemma parseArgs_last_value_wins_witness :
  option_value (lit "location")
    {| projectId := lit "acme-data"; location := Some (lit "EU");
       keyFilename := None |}
  = Some (lit "EU").
Proof.
  apply (@parseArgs_last_value_wins (lit "location") (lit "EU")
           [lit "--location"; lit "asia-northeast1"]
           [lit "--project-id"; lit "acme-data"]).
  - right. left. reflexivity.
  - vm_compute. reflexivity.
  - vm_compute. intros [H|[H|[]]]; discriminate H.
Defined.

Lemma projectId_fold pairs :
  (forall v, In (lit "project-id", v) pairs -> v = []) ->
  forall c, projectId c = [] ->
            projectId (fold_left set_option pairs c) = [].
Proof.
  induction pairs as [|[k v] pairs IH]; intros E c C; [exact C|].
  cbn [fold_left]. apply IH.
  - intros v' I. apply E. right. exact I.
  - unfold set_option. cbn [fst snd].
    destruct (str_eqb k (lit "project-id")) eqn:K.
    + apply str_eqb_eq in K. subst k. cbn [set_projectId projectId].
      apply E. left. reflexivity.
    + destruct (str_eqb k (lit "location")); exact C.
Qed.

(** X4. The project ID is required: on a command line of well-formed
    options on which [--project-id] is missing, or has only the empty text
    as its value, [parseArgs] throws the error with the usage text. *)
Theorem parseArgs_requires_project_id (pairs : list (jsstring * jsstring)) :
  Forall ok_pair pairs ->
  (forall v, In (lit "project-id", v) pairs -> v = []) ->
  parseArgs (arg_words pairs) = Throw (Error usage).
Proof.
  intros O E. unfold parseArgs. rewrite (parseArgs_loop_pairs O).
  cbn [bind]. rewrite (projectId_fold pairs E); reflexivity.
Qed.

Lemma parseArgs_requires_project_id_witness :
  parseArgs [lit "--location"; lit "EU"; lit "--project-id"; []]
  = Throw (Error usage).
Proof.
  apply (@parseArgs_requires_project_id
           [(lit "location", lit "EU"); (lit "project-id", [])]).
  - constructor; [split; [right; left; reflexivity|reflexivity]|].
    constructor; [split; [left; reflexivity|reflexivity]|constructor].
  - intros v [H|[H|[]]]; inversion H; reflexivity.
Defined.

(** ** The configuration *)

Lemma project_char_ranges c :
  in_ranges [(97, 122); (48, 57); (45, 45)]%N c = project_char c.
Proof.
  unfold in_ranges, project_char, is_lower, is_digit.
  cbn [existsb fst snd]. rewrite orb_false_r, orb_assoc. f_equal.
  unfold between. destruct (N.eqb_spec c 45) as [->|N]; [reflexivity|].
  apply andb_false_iff. rewrite !N.leb_gt. lia.
Qed.

(** The pattern of the project ID, run at the start of a text. *)
Lemma project_pattern_matches v :
  matches false (source projectIdPattern) (start [] v) <> [] <->
  project_id_ok v = true.
Proof.
  change (source projectIdPattern)
    with (Seq Assert_start
            (Seq (Plus (Class [(97, 122); (48, 57); (45, 45)]%N)) Assert_end)).
  cbn [matches]. cbn [seen start flat_map]. rewrite app_nil_r.
  change (flat_map (fun x => match rest x with [] => [x] | _ :: _ => [] end)
            (flat_map ?f ?l))
    with (flat_map (matches false Assert_end)
            (matches false (Plus (Class [(97, 122); (48, 57); (45, 45)]%N))
               (start [] v))).
  rewrite plus_class_longest
    with (p := fun ch =>
                 (in_ranges [(97, 122); (48, 57); (45, 45)]%N ch
                  || (false && in_ranges [(97, 122); (48, 57); (45, 45)]%N
                                         (other_case ch)))%bool);
    [|reflexivity|reflexivity|
     intros y c tl R _; cbn [matches]; rewrite R; reflexivity].
  cbn [rest start].
  match goal with |- context [span ?f v] => set (pc := f) end.
  assert (PC : forall c, pc c = project_char c).
  { intros c. unfold pc. cbn [andb]. rewrite orb_false_r.
    apply project_char_ranges. }
  assert (A := span_app pc v). assert (B := span_all pc v).
  split.
  - destruct (span pc v) as [[|c m] tl]; [intros H; contradiction H; reflexivity|].
    cbn [fst snd] in *. cbn [matches rest moved].
    destruct tl; [|intros H; contradiction H; reflexivity].
    intros _. rewrite app_nil_r in A. subst v. cbn [project_id_ok].
    apply forallb_forall. rewrite Forall_forall in B.
    intros x X. rewrite <- PC. apply B. exact X.
  - intros O. destruct v as [|c v]; [discriminate O|].
    cbn [project_id_ok] in O.
    rewrite <- (app_nil_r (c :: v)), span_intro; [|
      apply Forall_forall; intros x X; rewrite PC;
      apply (proj1 (forallb_forall _ _) O x X) | exact I].
    cbn [matches rest moved]. discriminate.
Qed.

(** [/^[a-z0-9-]+$/] accepts the texts that are not empty and are made of
    lower-case ASCII letters, digits and hyphens. *)
Lemma projectIdPattern_spec p : test projectIdPattern p = project_id_ok p.
Proof.
  destruct (project_id_ok p) eqn:O.
  - apply test_true. exists [], p. split; [reflexivity|].
    apply project_pattern_matches. exact O.
  - destruct (test projectIdPattern p) eqn:T; [|reflexivity].
    apply test_true in T as (u & v & -> & M).
    change (ignoreCase projectIdPattern) with false in M.
    destruct u as [|c u].
    + apply project_pattern_matches in M. cbn [app] in O. congruence.
    + exfalso. apply M.
      change (source projectIdPattern)
        with (Seq Assert_start
                (Seq (Plus (Class [(97, 122); (48, 57); (45, 45)]%N))
                     Assert_end)).
      cbn [matches seen start]. destruct (rev (c :: u)) eqn:R; [|reflexivity].
      apply (f_equal (@rev _)) in R. rewrite rev_involutive in R.
      discriminate R.
Qed.

Lemma validateConfig_no_key fs config :
  key_file_of config = None ->
  validateConfig fs config
  = if project_id_ok (projectId config) then OK config
    else Throw (Error (lit "Invalid project ID format")).
Proof.
  unfold key_file_of, validateConfig. intros K.
  destruct (keyFilename config) as [[|c k]|]; try discriminate K;
    cbn [bind]; rewrite projectIdPattern_spec;
    destruct (project_id_ok _); reflexivity.
Qed.

(** X5. Without a key file in the configuration (none, or the empty text),
    [validateConfig] asks the file system nothing and changes nothing: it
    accepts the configuration as it is when the project ID is not empty and
    made of lower-case ASCII letters, digits and hyphens, and throws
    [Invalid project ID format] otherwise. *)
Theorem validateConfig_without_key_file
  (fs : FileSystem) (config : ServerConfig) :
  key_file_of config = None ->
  validateConfig fs config
  = if project_id_ok (projectId config) then OK config
    else Throw (Error (lit "Invalid project ID format")).
Proof. apply validateConfig_no_key. Qed.

Lemma validateConfig_without_key_file_witness :
  validateConfig no_files
    {| projectId := lit "Acme_Data"; location := Some (lit "US");
       keyFilename := Some [] |}
  = Throw (Error (lit "Invalid project ID format")).
Proof.
  apply (@validateConfig_without_key_file no_files
           {| projectId := lit "Acme_Data"; location := Some (lit "US");
              keyFilename := Some [] |}).
  reflexivity.
Defined.

Lemma validateKeyFile_inv fs k path :
  validateKeyFile fs k = OK path ->
  path = path_resolve fs k /\ fs_access fs path = None /\
  exists content,
    fs_readFile fs path = OK content /\
    JSON_parse fs content = KeyData true true.
Proof.
  unfold validateKeyFile.
  destruct (fs_access fs (path_resolve fs k)) as [[code message]|] eqn:A.
  { destruct (str_eqb code _); [discriminate|].
    destruct (str_eqb code _); discriminate. }
  destruct (fs_readFile fs (path_resolve fs k)) as [content|] eqn:R;
    [|discriminate].
  cbn [bind].
  destruct (JSON_parse fs content) as [| |[|] [|]] eqn:J; try discriminate.
  intros H. inversion H; subst. repeat split; [exact A|].
  exists content. split; assumption.
Qed.

Lemma validateConfig_inv fs config config' :
  validateConfig fs config = OK config' ->
  project_id_ok (projectId config) = true /\
  match key_file_of config with
  | None => config' = config
  | Some k =>
      validateKeyFile fs k = OK (path_resolve fs k) /\
      config' = set_keyFilename (path_resolve fs k) config
  end.
Proof.
  unfold validateConfig, key_file_of.
  destruct (keyFilename config) as [[|c k]|] eqn:K; cbn [bind];
    try (rewrite projectIdPattern_spec;
         destruct (project_id_ok (projectId config)); [|discriminate];
         intros H; inversion H; subst; split; reflexivity).
  destruct (validateKeyFile fs (c :: k)) as [path|] eqn:V; [|discriminate].
  cbn [bind]. rewrite projectIdPattern_spec. cbn [set_keyFilename projectId].
  destruct (project_id_ok (projectId config)); [|discriminate].
  intros H. inversion H; subst. split; [reflexivity|].
  destruct (validateKeyFile_inv _ _ V) as [-> _]. split; reflexivity.
Qed.

(** X6. What an accepted configuration has gone through.  When
    [validateConfig] succeeds, the project ID has the required format, and
    project ID and region are as they were.  When the configuration named a
    key file, the file at the resolved path could be accessed and read, its
    content was JSON of a service account with a project ID, and the
    configuration now holds the resolved path; when it named none, nothing
    has changed. *)
Theorem validateConfig_accepts_only_checked_key_file
  (fs : FileSystem) (config config' : ServerConfig) :
  validateConfig fs config = OK config' ->
  projectId config' = projectId config /\
  location config' = location config /\
  project_id_ok (projectId config) = true /\
  match key_file_of config with
  | None => keyFilename config' = keyFilename config
  | Some k =>
      keyFilename config' = Some (path_resolve fs k) /\
      fs_access fs (path_resolve fs k) = None /\
      exists content,
        fs_readFile fs (path_resolve fs k) = OK content /\
        JSON_parse fs content = KeyData true true
  end.
Proof.
  intros V. apply validateConfig_inv in V as [P K].
  destruct (key_file_of config) as [k|].
  - destruct K as [V ->]. apply validateKeyFile_inv in V as (_ & A & C).
    repeat split; assumption.
  - subst config'. repeat split. exact P.
Qed.

Lemma validateConfig_accepts_only_checked_key_file_witness :
  let config := {| projectId := lit "acme-data"; location := Some (lit "US");
                   keyFilename := Some (lit "key.json") |} in
  let config' := {| projectId := lit "acme-data"; location := Some (lit "US");
                    keyFilename := Some (lit "/srv/key.json") |} in
  projectId config' = projectId config /\
  location config' = location config /\
  project_id_ok (projectId config) = true /\
  match key_file_of config with
  | None => keyFilename config' = keyFilename config
  | Some k =>
      keyFilename config' = Some (path_resolve key_machine k) /\
      fs_access key_machine (path_resolve key_machine k) = None /\
      exists content,
        fs_readFile key_machine (path_resolve key_machine k) = OK content /\
        JSON_parse key_machine content = KeyData true true
  end.
Proof.
  apply (@validateConfig_accepts_only_checked_key_file key_machine).
  vm_compute. reflexivity.
Defined.

(** X7. Validating again changes nothing: on a machine where resolving a
    resolved path gives that path, a configuration that [validateConfig]
    has accepted is accepted again, as it is. *)
Theorem validateConfig_again_is_identity
  (fs : FileSystem) (config config' : ServerConfig) :
  (forall p, path_resolve fs (path_resolve fs p) = path_resolve fs p) ->
  validateConfig fs config = OK config' ->
  validateConfig fs config' = OK config'.
Proof.
  intros R V. apply validateConfig_inv in V as [P K].
  destruct (key_file_of config) as [k|] eqn:KF.
  - destruct K as [V ->]. unfold validateConfig.
    cbn [set_keyFilename keyFilename projectId].
    destruct (path_resolve fs k) as [|c path] eqn:E.
    + cbn [bind]. cbn [projectId set_keyFilename].
      rewrite projectIdPattern_spec, P. reflexivity.
    + assert (V2 : validateKeyFile fs (c :: path) = OK (c :: path)).
      { revert V. unfold validateKeyFile. rewrite <- E, R. exact (fun H => H). }
      rewrite V2. cbn [bind]. cbn [set_keyFilename projectId keyFilename location].
      rewrite projectIdPattern_spec, P. reflexivity.
  - subst config'. rewrite validateConfig_no_key by exact KF.
    rewrite P. reflexivity.
Qed.

Lemma validateConfig_again_is_identity_witness :
  let config' := {| projectId := lit "acme-data"; location := Some (lit "US");
                    keyFilename := Some (lit "/srv/key.json") |} in
  validateConfig key_machine config' = OK config'.
Proof.
  apply (@validateConfig_again_is_identity key_machine
           {| projectId := lit "acme-data"; location := Some (lit "US");
              keyFilename := Some (lit "key.json") |}).
  - intros p. cbn [path_resolve key_machine].
    destruct (startsWith p (lit "/")) eqn:S; [rewrite S; reflexivity|].
    reflexivity.
  - vm_compute. reflexivity.
Defined.

(** X8. A key file that cannot be accessed is reported with its resolved
    path: when the configuration names a key file and the access to the
    resolved path fails, [validateConfig] throws an [Error] whose message
    holds the resolved path, whatever the project ID is. *)
Theorem validateConfig_reports_the_resolved_key_path
  (fs : FileSystem) (config : ServerConfig) (k code message : jsstring) :
  key_file_of config = Some k ->
  fs_access fs (path_resolve fs k) = Some (code, message) ->
  exists text,
    validateConfig fs config = Throw (Error text) /\
    includes text (path_resolve fs k) = true.
Proof.
  unfold key_file_of, validateConfig. intros K A.
  destruct (keyFilename config) as [[|c k']|]; try discriminate K.
  inversion K; subst k. unfold validateKeyFile. rewrite A.
  destruct (str_eqb code (lit "EACCES")); [|destruct (str_eqb code _)];
    cbn [bind]; eexists; (split; [reflexivity|]); apply includes_app.
Qed.

Lemma validateConfig_reports_the_resolved_key_path_witness :
  exists text,
    validateConfig no_files
      {| projectId := lit "acme-data"; location := None;
         keyFilename := Some (lit "key.json") |}
    = Throw (Error text) /\
    includes text (lit "/key.json") = true.
Proof.
  apply (@validateConfig_reports_the_resolved_key_path no_files
           {| projectId := lit "acme-data"; location := None;
              keyFilename := Some (lit "key.json") |}
           (lit "key.json") (lit "ENOENT") (lit "no such file")).
  - reflexivity.
  - reflexivity.
Defined.

(** ** Start-up *)

Lemma project_char_plain c : project_char c = true -> plain_char c = true.
Proof.
  unfold project_char, plain_char, is_word. intros H.
  apply orb_true_iff in H as [H|H]; [|rewrite H; apply orb_true_r].
  apply orb_true_iff in H as [H|H]; rewrite H;
    rewrite ?orb_true_r; reflexivity.
Qed.

Lemma project_id_plain p : project_id_ok p = true -> plain p.
Proof.
  destruct p as [|c p]; [discriminate|]. cbn [project_id_ok]. intros H.
  split; [discriminate|]. apply Forall_forall. intros x X.
  apply project_char_plain. apply (proj1 (forallb_forall _ _) H x X).
Qed.

Lemma base_uri_chars (P : char16 -> Prop) p :
  (forall c, plain_char c = true -> P c) -> P 58%N -> P 47%N ->
  plain p -> Forall P (lit "bigquery://" ++ p).
Proof.
  intros H C S Pp. apply Forall_app. split.
  - repeat constructor; try assumption; apply H; reflexivity.
  - exact (@plain_all _ _ H Pp).
Qed.

(** The base URL of a project with a plain ID. *)
Lemma parse_base_plain p :
  plain p -> Url.parse (lit "bigquery://" ++ p) None = Url.Parsed (base_of p).
Proof.
  intros Pp. unfold Url.parse.
  rewrite code_points_ascii
    by (apply base_uri_chars; auto using plain_ascii; reflexivity).
  rewrite preprocess_visible
    by (apply base_uri_chars; auto using plain_visible; reflexivity).
  change (lit "bigquery://" ++ p) with (lit "bigquery:" ++ (lit "//" ++ p)).
  rewrite parse_scheme_bigquery.
  unfold Url.absolute. change (Url.is_special (lit "bigquery")) with false.
  rewrite startsWith_prefix. change (skipn 2 (lit "//" ++ p)) with p.
  unfold Url.authority.
  rewrite until_all by exact (@plain_all _ _ plain_authority_end Pp).
  rewrite existsb_none by exact (@plain_all _ _ plain_no_credentials Pp).
  rewrite existsb_none by exact (@plain_all _ _ plain_not_forbidden Pp).
  rewrite (@percent_encode_plain _ _
             (@plain_all _ _ plain_c0_control_set Pp)).
  reflexivity.
Qed.

Lemma resourceBaseUrl_plain config :
  project_id_ok (projectId config) = true ->
  resourceBaseUrl_of node config = OK (base_of (projectId config)).
Proof.
  intros P. unfold resourceBaseUrl_of. cbn [new_URL node].
  change (@None (URL node)) with (@None Url.t).
  rewrite (parse_base_plain (project_id_plain _ P)). reflexivity.
Qed.

Lemma href_base_of p : Url.href (base_of p) = lit "bigquery://" ++ p.
Proof.
  unfold Url.href, base_of.
  cbn [Url.scheme Url.host Url.path Url.query Url.fragment].
  unfold Url.pathname. cbn [Url.path flat_map].
  repeat first [rewrite <- app_assoc | rewrite app_nil_r
               | progress cbn [app]].
  reflexivity.
Qed.

Lemma validated_project_id fs config config' :
  validateConfig fs config = OK config' ->
  project_id_ok (projectId config') = true.
Proof.
  intros V. apply validateConfig_inv in V as [P K].
  destruct (key_file_of config); [destruct K as [_ ->]|subst config'];
    exact P.
Qed.

Lemma initialize_node fs args :
  initialize node fs args
  = (config <- parseArgs args ;;
     config <- validateConfig fs config ;;
     OK (@Build_Started node config (bigqueryConfig_of config)
                        (base_of (projectId config)))).
Proof.
  unfold initialize. destruct (parseArgs args) as [c|]; [|reflexivity].
  cbn [bind].
  destruct (validateConfig fs c) as [c'|] eqn:V; [|reflexivity].
  cbn [bind].
  rewrite (resourceBaseUrl_plain _ (validated_project_id _ _ V)).
  reflexivity.
Qed.

(** X9. Start-up fails only on its arguments or its configuration.  On a
    runtime whose [URL] follows the URL standard, the start-up block ends as
    [parseArgs] and [validateConfig] do: when both succeed, the base URL of
    the resources is made without error and is [bigquery://] followed by
    the project ID, the client gets the project ID and the key file of the
    validated configuration, and the handlers use that configuration. *)
Theorem start_up_fails_only_on_arguments_or_configuration
  (fs : FileSystem) (args : list jsstring) :
  initialize node fs args
  = (config <- parseArgs args ;;
     config <- validateConfig fs config ;;
     OK (@Build_Started node config (bigqueryConfig_of config)
                        (base_of (projectId config)))) /\
  forall started,
    initialize node fs args = OK started ->
    href node (started_resourceBaseUrl started)
    = lit "bigquery://" ++ projectId (started_config started).
Proof.
  split; [apply initialize_node|].
  intros started S. rewrite initialize_node in S.
  destruct (parseArgs args) as [c|]; [|discriminate].
  cbn [bind] in S. destruct (validateConfig fs c) as [c'|]; [|discriminate].
  cbn [bind] in S. inversion S; subst.
  cbn [started_resourceBaseUrl started_config href node].
  apply href_base_of.
Qed.

(** ** The resource listing *)

Lemma then_OK_inv (A B : Type) (m : run A) (k : A -> run B) tr b :
  then_ m k = (tr, OK b) ->
  exists a tr1 tr2, m = (tr1, OK a) /\ k a = (tr2, OK b) /\ tr = tr1 ++ tr2.
Proof.
  destruct m as [tr1 [a|e]]; unfold then_; cbn [fst snd]; [|discriminate].
  destruct (k a) as [tr2 r] eqn:K. cbn [fst snd]. intros H.
  inversion H; subst. exists a, tr1, tr2. repeat split. exact K.
Qed.

Lemma then_OK (A B : Type) (k : A -> run B) tr1 a :
  then_ (tr1, OK a) k = (tr1 ++ fst (k a), snd (k a)).
Proof. reflexivity. Qed.

Section Listing.

Context (rt : Runtime) (bigquery : BigQuery rt) (base : URL rt).

Lemma list_tables_spec d ts :
  forall tr rs,
    list_tables bigquery base d ts = (tr, OK rs) <->
    tr = table_calls d ts /\
    Forall2 (fun r t => listed bigquery base r d t) rs ts.
Proof.
  induction ts as [|t more IH]; intros tr rs.
  - cbn [list_tables table_calls List.map]. unfold ret. split.
    + intros H. inversion H. split; [reflexivity|constructor].
    + intros [-> F]. inversion F. reflexivity.
  - cbn [list_tables table_calls List.map]. split.
    + intros H.
      apply then_OK_inv in H as (md & tr1 & tr2 & M & H & ->).
      unfold await in M. inversion M; subst tr1. clear M.
      apply then_OK_inv in H as (url & tr1 & tr3 & U & H & ->).
      unfold lift in U. inversion U; subst tr1. clear U.
      apply then_OK_inv in H as (rs' & tr1 & tr4 & L & H & ->).
      unfold ret in H. inversion H; subst. clear H.
      apply IH in L as [-> F]. rewrite app_nil_r. split; [reflexivity|].
      constructor; [|exact F]. exists md, url. repeat split; assumption.
    + intros [-> F]. inversion F as [|r t' rs' ts' (md & url & M & U & R) F'];
        subst.
      unfold await. rewrite M, then_OK. unfold lift.
      unfold relative_uri in U. rewrite U, then_OK.
      rewrite (proj2 (IH _ rs') (conj eq_refl F')), then_OK.
      cbn [ret fst snd app]. rewrite app_nil_r. reflexivity.
Qed.

Lemma listed_pairs d rs ts :
  Forall2 (fun r t => listed bigquery base r d t) rs ts <->
  Forall2 (fun r dt => listed bigquery base r (fst dt) (snd dt)) rs
          (List.map (pair d) ts).
Proof.
  split.
  - induction 1; cbn [List.map]; constructor; assumption.
  - revert rs. induction ts as [|t ts IH]; intros rs F; cbn [List.map] in F;
      inversion F; subst; constructor; auto.
Qed.

Lemma list_datasets_spec ds :
  forall tr rs,
    list_datasets bigquery base ds = (tr, OK rs) <->
    exists listing,
      ds = List.map fst listing /\
      Forall (fun dts => getTables bigquery (fst dts) = OK (snd dts))
             listing /\
      tr = dataset_calls listing /\
      Forall2 (fun r dt => listed bigquery base r (fst dt) (snd dt)) rs
              (entries listing).
Proof.
  induction ds as [|d more IH]; intros tr rs.
  - cbn [list_datasets]. unfold ret. split.
    + intros H. inversion H. exists []. repeat split; constructor.
    + intros (listing & E & _ & -> & F).
      destruct listing; [|discriminate E]. inversion F. reflexivity.
  - cbn [list_datasets]. split.
    + intros H.
      apply then_OK_inv in H as (ts & tr1 & tr2 & T & H & ->).
      unfold await in T. inversion T; subst tr1. clear T.
      apply then_OK_inv in H as (rs1 & tr1 & tr3 & L & H & ->).
      apply list_tables_spec in L as [-> F1].
      apply then_OK_inv in H as (rs2 & tr1 & tr4 & D & H & ->).
      unfold ret in H. inversion H; subst. clear H.
      apply IH in D as (listing & -> & G & -> & F2).
      exists ((d, ts) :: listing). rewrite app_nil_r.
      split; [reflexivity|]. split; [constructor; assumption|].
      split; [reflexivity|].
      cbn [entries flat_map fst snd]. apply Forall2_app; [|exact F2].
      apply listed_pairs. exact F1.
    + intros (listing & E & G & -> & F).
      destruct listing as [|[d' ts] listing]; [discriminate E|].
      cbn [List.map fst] in E. injection E as <- ->.
      inversion G as [|x l T G']; subst. cbn [fst snd] in T.
      cbn [entries flat_map fst snd] in F.
      apply Forall2_app_inv_r in F as (rs1 & rs2 & F1 & F2 & ->).
      apply listed_pairs in F1.
      unfold await. rewrite T, then_OK.
      rewrite (proj2 (list_tables_spec d ts _ rs1) (conj eq_refl F1)), then_OK.
      rewrite (proj2 (IH _ rs2)), then_OK
        by (exists listing; repeat split; assumption).
      cbn [ret fst snd app dataset_calls flat_map]. rewrite app_nil_r.
      reflexivity.
Qed.

Lemma listResources_spec tr rs :
  listResources bigquery base = (tr, OK rs) <->
  exists listing,
    getDatasets bigquery = OK (List.map fst listing) /\
    Forall (fun dts => getTables bigquery (fst dts) = OK (snd dts))
           listing /\
    tr = GetDatasets :: dataset_calls listing /\
    Forall2 (fun r dt => listed bigquery base r (fst dt) (snd dt)) rs
            (entries listing).
Proof.
  unfold listResources. split.
  - intros H. apply then_OK_inv in H as (ds & tr1 & tr2 & D & H & ->).
    unfold await in D. inversion D; subst tr1.
    apply list_datasets_spec in H as (listing & -> & G & -> & F).
    exists listing. repeat split; assumption.
  - intros (listing & D & G & -> & F). unfold await. rewrite D, then_OK.
    rewrite (proj2 (list_datasets_spec _ _ rs))
      by (exists listing; repeat split; assumption).
    reflexivity.
Qed.

End Listing.

(** X10. The listing is complete and in order.  [listResources] succeeds
    exactly when the datasets, the tables of every dataset and the metadata
    of every table can be fetched and the URL of every table can be made;
    it then gives one resource for each table, in the order of the
    warehouse's answers, with the text of the table's URL, the JSON media
    type and the name ["dataset.table" view schema] for a table of type
    [VIEW] and ["dataset.table" table schema] for any other; and it has
    asked for the datasets once, for the tables of each dataset once and
    for the metadata of each table once, in that order. *)
Theorem listResources_lists_every_table_once
  (rt : Runtime) (bigquery : BigQuery rt) (base : URL rt)
  (tr : list call) (rs : list Resource) :
  listResources bigquery base = (tr, OK rs) <->
  exists listing,
    getDatasets bigquery = OK (List.map fst listing) /\
    Forall (fun dts => getTables bigquery (fst dts) = OK (snd dts))
           listing /\
    tr = GetDatasets :: dataset_calls listing /\
    Forall2 (fun r dt => listed bigquery base r (fst dt) (snd dt)) rs
            (entries listing).
Proof. apply listResources_spec. Qed.

Lemma in_entries listing d ts t :
  In (d, ts) listing -> In t ts -> In (d, t) (entries listing).
Proof.
  intros L T. unfold entries. apply in_flat_map. exists (d, ts).
  split; [exact L|]. cbn [fst snd]. apply in_map. exact T.
Qed.

Lemma Forall2_In_r (A B : Type) (R : A -> B -> Prop) l l' b :
  Forall2 R l l' -> In b l' -> exists a, In a l /\ R a b.
Proof.
  induction 1 as [|x y l l' r _ IH]; intros I; [destruct I|].
  destruct I as [<-|I].
  - exists x. split; [left; reflexivity|exact r].
  - destruct (IH I) as (a & Ia & Ra). exists a. split; [right|]; assumption.
Qed.

(** X11. The listing fails as a whole: when the metadata of one table of
    one listed dataset cannot be fetched, [listResources] throws, and gives
    no resource at all, whatever the other tables are. *)
Theorem listResources_fails_on_one_broken_table
  (rt : Runtime) (bigquery : BigQuery rt) (base : URL rt)
  (datasets tables : list jsstring) (d t : jsstring) (e : js_error) :
  getDatasets bigquery = OK datasets -> In d datasets ->
  getTables bigquery d = OK tables -> In t tables ->
  getMetadata bigquery (Some d) (Some t) = Throw e ->
  exists e', snd (listResources bigquery base) = Throw e'.
Proof.
  intros D Id T It M.
  destruct (listResources bigquery base) as [tr [rs|e']] eqn:L;
    [|exists e'; reflexivity].
  exfalso. apply listResources_spec in L as (listing & D' & G & _ & F).
  rewrite D in D'. inversion D'; subst datasets.
  apply in_map_iff in Id as ([d' ts] & <- & Il). cbn [fst] in *.
  rewrite Forall_forall in G. specialize (G _ Il). cbn [fst snd] in G.
  rewrite T in G. inversion G; subst ts.
  destruct (@Forall2_In_r _ _ _ _ _ _ F (@in_entries _ _ _ _ Il It))
    as (r & _ & md & url & M' & _).
  cbn [fst snd] in M'. rewrite M in M'. discriminate.
Qed.

Lemma listResources_fails_on_one_broken_table_witness :
  exists e',
    snd (listResources
           {| getDatasets := OK [lit "sales"];
              getTables := fun _ => OK [lit "orders"; lit "offers"];
              dataset_undefined := None;
              table_undefined := None;
              getMetadata := fun d t =>
                match t with
                | Some t =>
                    if str_eqb t (lit "offers") then Throw (ProviderError 403)
                    else OK (@Build_TableMetadata node (lit "TABLE") [])
                | None => Throw (TypeError (lit "A table ID is required."))
                end;
              runQuery := fun _ => OK [] |}
           acme_base) = Throw e'.
Proof.
  apply (@listResources_fails_on_one_broken_table node _ acme_base
           [lit "sales"] [lit "orders"; lit "offers"]
           (lit "sales") (lit "offers") (ProviderError 403)).
  - reflexivity.
  - left. reflexivity.
  - reflexivity.
  - right. left. reflexivity.
  - reflexivity.
Defined.

(** ** The qualifier, beyond the references it rewrites *)

Lemma quiet_no_reference s : quiet s <-> no_reference s.
Proof.
  split.
  - intros Q before d m after -> R.
    specialize (Q before (m ++ after) eq_refl).
    rewrite (reference_ref_at after R) in Q. discriminate.
  - intros N u v ->. destruct (ref_at v) as [[[d m] tl]|] eqn:R; [|reflexivity].
    apply ref_at_reference in R as [-> R].
    exfalso. exact (N u d m tl eq_refl R).
Qed.

Lemma quiet_tail c s : quiet (c :: s) -> quiet s.
Proof. intros Q u v E. apply (Q (c :: u) v). rewrite E. reflexivity. Qed.

Lemma qualify_same_quiet p s : qualifyTablePath s p = OK s -> quiet s.
Proof.
  induction s as [|c s IH]; [intros _; apply quiet_nil|].
  rewrite qualify_unfold.
  destruct (ref_at (c :: s)) as [[[[d|] m] tl]|] eqn:R.
  - apply ref_at_reference in R as [E R].
    destruct (qualifyTablePath tl p) as [out|]; [|discriminate].
    cbn [bind]. intros H. exfalso.
    destruct (reference_clean R) as [T S].
    apply (@qualified_no_prefix p d out m tl T S).
    assert (H' : qualified p d ++ out = c :: s) by congruence.
    rewrite H'. exact E.
  - discriminate.
  - destruct (qualifyTablePath s p) as [out|]; [|discriminate].
    cbn [bind]. intros H. inversion H; subst out.
    apply quiet_cons; [exact R|]. apply IH. reflexivity.
Qed.

(** X12. The qualifier gives a SQL text back as it is exactly when the text
    holds no reference to the catalog view: no FROM, white space, optional
    dataset and dot, INFORMATION_SCHEMA.TABLES, in any casing; this for
    every project ID. *)
Theorem qualify_returns_sql_unchanged_iff_no_reference
  (sql projectId : jsstring) :
  qualifyTablePath sql projectId = OK sql <-> no_reference sql.
Proof.
  rewrite <- quiet_no_reference. split.
  - apply qualify_same_quiet.
  - apply quiet_fixed.
Qed.

Lemma qualify_throw_inv p s :
  forall e,
    qualifyTablePath s p = Throw e ->
    e = UnqualifiedCatalogReferenceError /\
    exists before m after, s = before ++ m ++ after /\ reference None m.
Proof.
  remember (length s) as n eqn:L. revert s L.
  induction n as [n IH] using lt_wf_ind. intros s L e.
  rewrite qualify_unfold.
  destruct (ref_at s) as [[[[d|] m] tl]|] eqn:R.
  - apply ref_at_app in R as (E & Lm & _).
    destruct (qualifyTablePath tl p) as [out|e'] eqn:Q; [discriminate|].
    cbn [bind]. intros H. inversion H; subst e'.
    assert (Lt : length tl < n)
      by (rewrite L, E, length_app; lia).
    destruct (IH _ Lt tl eq_refl _ Q) as (-> & before & m' & after & -> & R').
    split; [reflexivity|]. exists (m ++ before), m', after.
    rewrite E, <- app_assoc. split; [reflexivity|exact R'].
  - apply ref_at_reference in R as [E R]. intros H. inversion H.
    split; [reflexivity|]. exists [], m, tl. split; assumption.
  - destruct s as [|c s]; [discriminate|].
    destruct (qualifyTablePath s p) as [out|e'] eqn:Q; [discriminate|].
    cbn [bind]. intros H. inversion H; subst e'.
    assert (Lt : length s < n) by (rewrite L; cbn [length]; lia).
    destruct (IH _ Lt s eq_refl _ Q) as (-> & before & m' & after & -> & R').
    split; [reflexivity|]. exists (c :: before), m', after.
    split; [reflexivity|exact R'].
Qed.

(** X13. The qualifier has one error only: when [qualifyTablePath] throws,
    the error is the one that asks for a dataset, and the SQL text does
    hold a reference to the catalog view without a dataset. *)
Theorem qualify_throws_only_for_unqualified_reference
  (sql projectId : jsstring) (e : js_error) :
  qualifyTablePath sql projectId = Throw e ->
  e = UnqualifiedCatalogReferenceError /\
  exists before m after, sql = before ++ m ++ after /\ reference None m.
Proof. apply qualify_throw_inv. Qed.

Lemma qualify_throws_only_for_unqualified_reference_witness :
  UnqualifiedCatalogReferenceError = UnqualifiedCatalogReferenceError /\
  exists before m after,
    lit "select * from information_schema.tables" = before ++ m ++ after /\
    reference None m.
Proof.
  apply (@qualify_throws_only_for_unqualified_reference
           (lit "select * from information_schema.tables") (lit "acme-data")).
  vm_compute. reflexivity.
Defined.

(** ** Reading a resource, beyond the validity check *)

(** X14. [readResource] asks the warehouse at most once, and only for the
    metadata of one table: either it throws before any call, or it makes
    one metadata fetch, passes on the error of the fetch as it is, and on
    success answers with the URI as it was requested, the JSON media type
    and the serialized fields of the table. *)
Theorem readResource_makes_at_most_one_fetch
  (rt : Runtime) (bigquery : BigQuery rt) (request_uri : jsstring) :
  (exists e, readResource bigquery request_uri = ([], Throw e)) \/
  (exists datasetId tableId,
     readResource bigquery request_uri
     = ([GetMetadata datasetId tableId],
        read_outcome request_uri (getMetadata bigquery datasetId tableId))).
Proof.
  unfold readResource.
  destruct (new_URL rt request_uri None) as [url|e];
    [|left; exists e; reflexivity].
  rewrite then_lift_OK.
  destruct (pop (split 47 (pathname rt url))) as [schema rest0].
  destruct (pop rest0) as [tableId rest1].
  destruct (pop rest1) as [datasetId rest2].
  destruct (negb (is_schema schema)); [left; eexists; reflexivity|].
  destruct (handle (dataset_undefined bigquery) datasetId) as [[]|e];
    [|left; exists e; reflexivity].
  rewrite then_lift_OK.
  destruct (handle (table_undefined bigquery) tableId) as [[]|e];
    [|left; exists e; reflexivity].
  rewrite then_lift_OK.
  right. exists datasetId, tableId.
  apply (then_await _ _ (contents_of request_uri)).
Qed.

(** X15. [readResource] takes the table from the last three segments of
    the path and looks at nothing else of the URI: when the path ends in a
    slash, a dataset, a slash, a table and [/schema], whatever comes before
    them in the path, and whatever the scheme and the host are, it fetches
    the metadata of that table of that dataset. *)
Theorem readResource_reads_the_last_three_segments
  (rt : Runtime) (bigquery : BigQuery rt) (request_uri : jsstring)
  (url : URL rt) (before d t : jsstring) :
  new_URL rt request_uri None = OK url ->
  pathname rt url = before ++ 47%N :: d ++ 47%N :: t ++ 47%N :: SCHEMA_PATH ->
  ~ In 47%N d -> ~ In 47%N t ->
  readResource bigquery request_uri
  = ([GetMetadata (Some d) (Some t)],
     read_outcome request_uri (getMetadata bigquery (Some d) (Some t))).
Proof.
  intros U P D T.
  rewrite (@readResource_client _ bigquery request_uri url
             (split 47 before ++ [d] ++ [t]) U).
  - rewrite app_assoc, pop_last. cbn [fst snd]. rewrite pop_last.
    reflexivity.
  - rewrite P, !split_app, (@split_none _ _ D), (@split_none _ _ T),
      (@split_none _ _ no_slash_in_schema), <- !app_assoc. reflexivity.
Qed.

Lemma readResource_reads_the_last_three_segments_witness :
  readResource acme_warehouse
    (lit "bigquery://another-project/eu/sales/orders/schema")
  = ([GetMetadata (Some (lit "sales")) (Some (lit "orders"))],
     read_outcome (lit "bigquery://another-project/eu/sales/orders/schema")
       (getMetadata acme_warehouse (Some (lit "sales"))
                    (Some (lit "orders")))).
Proof.
  apply (@readResource_reads_the_last_three_segments node acme_warehouse
           (lit "bigquery://another-project/eu/sales/orders/schema")
           {| Url.scheme := lit "bigquery";
              Url.host := Some (lit "another-project");
              Url.path := [lit "eu"; lit "sales"; lit "orders"; lit "schema"];
              Url.query := None; Url.fragment := None |}
           (lit "/eu") (lit "sales") (lit "orders")).
  - vm_compute. reflexivity.
  - reflexivity.
  - cbv. intuition discriminate.
  - cbv. intuition discriminate.
Defined.

Lemma listed_plain_reads_back (bigquery : BigQuery node) p r d t :
  plain p -> plain d -> plain t ->
  listed bigquery (base_of p) r d t ->
  uri r = schema_uri p d t /\
  exists metadata,
    getMetadata bigquery (Some d) (Some t) = OK metadata /\
    readResource bigquery (uri r)
    = ([GetMetadata (Some d) (Some t)], OK (contents_of (uri r) metadata)).
Proof.
  intros P D T (metadata & url & M & U & ->). cbn [uri].
  unfold relative_uri in U.
  assert (E := eq_trans (eq_sym U) (@new_URL_relative_plain p _ _ D T)).
  inversion E; subst url. clear U E.
  destruct (round_trip_plain bigquery P D T) as (u & N & H & R).
  assert (E := eq_trans (eq_sym N) (@new_URL_relative_plain p _ _ D T)).
  inversion E; subst u. clear N E.
  split; [exact H|]. exists metadata. split; [exact M|].
  rewrite R.
  etransitivity;
    [apply (then_await _ _ (contents_of (href node (schema_url p d t))))|].
  rewrite M. reflexivity.
Qed.

(** X16. For identifiers made of ASCII letters, digits, underscores and
    hyphens the listing and the reading agree.  After a start-up that
    succeeded, on a runtime whose [URL] follows the URL standard, every
    resource of a listing that succeeded whose dataset and table have such
    identifiers has the URI [bigquery://project/dataset/table/schema], and
    [readResource] on that URI fetches the metadata of that table of that
    dataset, once, and answers with its fields. *)
Theorem every_listed_plain_table_reads_back
  (fs : FileSystem) (args : list jsstring) (started : Started node)
  (bigquery : BigQuery node) (tr : list call) (rs : list Resource) :
  initialize node fs args = OK started ->
  listResources bigquery (started_resourceBaseUrl started) = (tr, OK rs) ->
  exists listing,
    tr = GetDatasets :: dataset_calls listing /\
    Forall2
      (fun r dt =>
         plain (fst dt) -> plain (snd dt) ->
         uri r = schema_uri (projectId (started_config started))
                            (fst dt) (snd dt) /\
         exists metadata,
           getMetadata bigquery (Some (fst dt)) (Some (snd dt)) = OK metadata /\
           readResource bigquery (uri r)
           = ([GetMetadata (Some (fst dt)) (Some (snd dt))],
              OK (contents_of (uri r) metadata)))
      rs (entries listing).
Proof.
  intros S L. rewrite initialize_node in S.
  destruct (parseArgs args) as [c|]; [|discriminate].
  cbn [bind] in S.
  destruct (validateConfig fs c) as [c1|] eqn:V1; [|discriminate].
  cbn [bind] in S. inversion S; subst started. clear S.
  cbn [started_resourceBaseUrl started_config] in *.
  assert (P : plain (projectId c1))
    by (apply project_id_plain; apply (validated_project_id _ _ V1)).
  apply listResources_spec in L as (listing & _ & _ & -> & F).
  exists listing. split; [reflexivity|].
  induction F as [|r [d t] rs es R _ IH]; constructor; [|exact IH].
  cbn [fst snd] in *. intros D T.
  apply (listed_plain_reads_back P D T R).
Qed.

Lemma every_listed_plain_table_reads_back_witness :
  exists listing,
    [GetDatasets; GetTables (lit "sales");
     GetMetadata (Some (lit "sales")) (Some (lit "orders"));
     GetMetadata (Some (lit "sales")) (Some (lit "my table"))]
    = GetDatasets :: dataset_calls listing /\
    Forall2
      (fun r dt =>
         plain (fst dt) -> plain (snd dt) ->
         uri r = schema_uri (lit "acme-data") (fst dt) (snd dt) /\
         exists metadata,
           getMetadata acme_warehouse (Some (fst dt)) (Some (snd dt))
           = OK metadata /\
           readResource acme_warehouse (uri r)
           = ([GetMetadata (Some (fst dt)) (Some (snd dt))],
              OK (contents_of (uri r) metadata)))
      [{| uri := lit "bigquery://acme-data/sales/orders/schema";
          mimeType := lit "application/json";
          name := [34%N] ++ lit "sales.orders" ++ [34%N]
                  ++ lit " table schema" |};
       {| uri := lit "bigquery://acme-data/sales/my%20table/schema";
          mimeType := lit "application/json";
          name := [34%N] ++ lit "sales.my table" ++ [34%N]
                  ++ lit " view schema" |}]
      (entries listing).
Proof.
  apply (@every_listed_plain_table_reads_back no_files
           [lit "--project-id"; lit "acme-data"]
           (@Build_Started node acme_config (bigqueryConfig_of acme_config)
                           acme_base)
           acme_warehouse).
  - reflexivity.
  - vm_compute. reflexivity.
Defined.

Lemma schema_uri_parts p d t d' t' :
  plain p -> plain d -> plain t -> plain d' -> plain t' ->
  schema_uri p d t = schema_uri p d' t' -> d = d' /\ t = t'.
Proof.
  intros P D T D' T' E.
  assert (U := @parse_absolute_plain _ _ _ P D T).
  rewrite E, (@parse_absolute_plain _ _ _ P D' T') in U.
  inversion U. split; reflexivity.
Qed.

(** X17. Tables with such identifiers have URIs of their own: on a runtime
    whose [URL] follows the URL standard, when the listing writes the same
    URI for two tables whose identifiers, like the project ID, are made of
    ASCII letters, digits, underscores and hyphens, the two are the same
    table of the same dataset. *)
Theorem plain_tables_have_uris_of_their_own
  (bigquery : BigQuery node) (p d t d' t' : jsstring) (r r' : Resource) :
  plain p -> plain d -> plain t -> plain d' -> plain t' ->
  listed bigquery (base_of p) r d t ->
  listed bigquery (base_of p) r' d' t' ->
  uri r = uri r' ->
  d = d' /\ t = t'.
Proof.
  intros P D T D' T' L L' E.
  destruct (listed_plain_reads_back P D T L) as [U _].
  destruct (listed_plain_reads_back P D' T' L') as [U' _].
  rewrite U, U' in E. apply (schema_uri_parts P D T D' T' E).
Qed.

Lemma orders_is_listed :
  listed acme_warehouse (base_of (lit "acme-data"))
    {| uri := lit "bigquery://acme-data/sales/orders/schema";
       mimeType := lit "application/json";
       name := resource_name (lit "sales") (lit "orders") (lit "TABLE") |}
    (lit "sales") (lit "orders").
Proof.
  exists (@Build_TableMetadata node (lit "TABLE") (lit "[order_id, amount]")),
         (schema_url (lit "acme-data") (lit "sales") (lit "orders")).
  split; [reflexivity|]. split; [|vm_compute; reflexivity].
  apply new_URL_relative_plain; split; try discriminate; repeat constructor.
Defined.

Lemma plain_tables_have_uris_of_their_own_witness :
  lit "sales" = lit "sales" /\ lit "orders" = lit "orders".
Proof.
  apply (@plain_tables_have_uris_of_their_own acme_warehouse
           (lit "acme-data") (lit "sales") (lit "orders")
           (lit "sales") (lit "orders")
           {| uri := lit "bigquery://acme-data/sales/orders/schema";
              mimeType := lit "application/json";
              name := resource_name (lit "sales") (lit "orders")
                                    (lit "TABLE") |}
           {| uri := lit "bigquery://acme-data/sales/orders/schema";
              mimeType := lit "application/json";
              name := resource_name (lit "sales") (lit "orders")
                                    (lit "TABLE") |});
    try (split; [discriminate|repeat constructor]).
  - exact orders_is_listed.
  - exact orders_is_listed.
  - reflexivity.
Defined.

(** ** The query tool, beyond the gate *)

Lemma not_forbidden_passes sql :
  ~ has_forbidden_word sql -> checkReadOnly sql = OK tt.
Proof.
  intros N. unfold checkReadOnly.
  destruct (test forbiddenPattern sql) eqn:T; [|reflexivity].
  exfalso. apply N. apply test_forbidden. exact T.
Qed.

Lemma passes_not_forbidden sql :
  checkReadOnly sql = OK tt -> ~ has_forbidden_word sql.
Proof.
  unfold checkReadOnly. intros H F. apply test_forbidden in F.
  rewrite F in H. discriminate.
Qed.

(** The handler on a call of the tool [query], step by step. *)
Lemma callTool_query rt (bigquery : BigQuery rt) config request :
  tool_name request = lit "query" ->
  callTool bigquery config request
  = match checkReadOnly (arg_sql request) with
    | Throw e => ([], Throw e)
    | OK _ =>
        match (if includes (toUpperCase rt (arg_sql request))
                           (lit "INFORMATION_SCHEMA")
               then qualifyTablePath (arg_sql request) (projectId config)
               else OK (arg_sql request)) with
        | Throw e => ([], Throw e)
        | OK sql =>
            ([RunQuery (options_of config request sql)],
             query_outcome (runQuery bigquery
                              (options_of config request sql)))
        end
    end.
Proof.
  intros N. unfold callTool. rewrite N, str_eqb_refl.
  destruct (checkReadOnly (arg_sql request)) as [[]|e]; [|reflexivity].
  rewrite then_lift_OK.
  destruct (if includes _ _ then _ else _) as [sql|e]; [|reflexivity].
  rewrite then_lift_OK.
  change {| query := sql; query_location := location config;
            maximumBytesBilled := _ |}
    with (options_of config request sql).
  destruct (runQuery bigquery (options_of config request sql)); reflexivity.
Qed.

Lemma callTool_other rt (bigquery : BigQuery rt) config request :
  tool_name request <> lit "query" ->
  callTool bigquery config request
  = ([], Throw (Error (lit "Unknown tool: " ++ tool_name request))).
Proof.
  intros N. unfold callTool.
  destruct (str_eqb (tool_name request) (lit "query")) eqn:E; [|reflexivity].
  apply str_eqb_eq in E. contradiction.
Qed.

(** X18. The query tool asks the warehouse at most once, and only to run
    one query: either it throws before any call, or the SQL text has passed
    the gate and it submits one query, which is the SQL text as given or
    its qualification, with the region of the configuration and with the
    billing ceiling of the request, or [1000000000] when the request has
    none or an empty one; the error of the warehouse is passed on as it is,
    and a result is the serialized rows, never marked as an error. *)
Theorem callTool_makes_at_most_one_query
  (rt : Runtime) (bigquery : BigQuery rt) (config : ServerConfig)
  (request : ToolCall) :
  (exists e, callTool bigquery config request = ([], Throw e)) \/
  (exists sql,
     ~ has_forbidden_word (arg_sql request) /\
     (sql = arg_sql request \/
      qualifyTablePath (arg_sql request) (projectId config) = OK sql) /\
     callTool bigquery config request
     = ([RunQuery (options_of config request sql)],
        query_outcome (runQuery bigquery (options_of config request sql)))).
Proof.
  destruct (str_eqb (tool_name request) (lit "query")) eqn:N.
  - apply str_eqb_eq in N. rewrite (callTool_query bigquery config _ N).
    destruct (checkReadOnly (arg_sql request)) as [[]|e] eqn:G;
      [|left; exists e; reflexivity].
    apply passes_not_forbidden in G.
    destruct (includes _ _).
    + destruct (qualifyTablePath _ _) as [sql|e] eqn:Q;
        [|left; exists e; reflexivity].
      right. exists sql. repeat split; [exact G|right; reflexivity].
    + right. exists (arg_sql request).
      repeat split; [exact G|left; reflexivity].
  - left. eexists. apply callTool_other. intros E.
    rewrite E in N. discriminate N.
Qed.

(** X19. A query that passes the gate and holds no reference to the catalog
    view is submitted as it was written, with the region of the
    configuration and the billing ceiling of the request, on every
    runtime. *)
Theorem callTool_submits_plain_sql_as_written
  (rt : Runtime) (bigquery : BigQuery rt) (config : ServerConfig)
  (request : ToolCall) :
  tool_name request = lit "query" ->
  ~ has_forbidden_word (arg_sql request) ->
  no_reference (arg_sql request) ->
  callTool bigquery config request
  = ([RunQuery (options_of config request (arg_sql request))],
     query_outcome
       (runQuery bigquery (options_of config request (arg_sql request)))).
Proof.
  intros N G R. rewrite (callTool_query bigquery config _ N).
  rewrite (not_forbidden_passes G).
  apply quiet_no_reference in R.
  rewrite (quiet_fixed (projectId config) R).
  destruct (includes _ _); reflexivity.
Qed.

Lemma no_reference_without_from sql :
  ~ In 70%N sql -> ~ In 102%N sql -> no_reference sql.
Proof.
  intros U L before d m after -> R.
  destruct R as (kw & ws & v & K & _ & _ & _ & M).
  apply kw_shape in K as (f & r & o & m' & -> & F & _).
  assert (I : In f (before ++ m ++ after)).
  { apply in_or_app. right. apply in_or_app. left.
    destruct d; [destruct M as (_ & _ & ->)|subst m]; left; reflexivity. }
  unfold canonicalize in F. cbn [andb] in F.
  destruct (is_lower f) eqn:Lf.
  - apply L. replace 102%N with f; [exact I|]. lia.
  - apply U. rewrite <- F. exact I.
Qed.

Lemma callTool_submits_plain_sql_as_written_witness :
  let request := {| tool_name := lit "query"; arg_sql := lit "SELECT 1";
                    arg_maximumBytesBilled := Some (lit "5000") |} in
  callTool acme_warehouse acme_config request
  = ([RunQuery (options_of acme_config request (lit "SELECT 1"))],
     query_outcome
       (runQuery acme_warehouse
                 (options_of acme_config request (lit "SELECT 1")))).
Proof.
  apply (@callTool_submits_plain_sql_as_written node acme_warehouse
           acme_config
           {| tool_name := lit "query"; arg_sql := lit "SELECT 1";
              arg_maximumBytesBilled := Some (lit "5000") |}).
  - reflexivity.
  - intros F. apply test_forbidden in F. vm_compute in F. discriminate F.
  - apply no_reference_without_from; cbv; intuition discriminate.
Defined.

Lemma canonical_ascii v w :
  List.map (canonicalize true) v = w ->
  Forall (fun c => (c < 128)%N) w -> Forall (fun c => (c < 128)%N) v.
Proof.
  intros <-. induction v as [|c v IH]; cbn [List.map]; intros F;
    [constructor|].
  inversion F as [|x l C F']; subst. constructor; [|apply IH; exact F'].
  unfold canonicalize in C. cbn [andb] in C.
  destruct (is_lower c) eqn:L; [|exact C].
  apply is_lower_spec in L. lia.
Qed.

(** On a runtime whose [toUpperCase] maps ASCII text as the standard says,
    the upper-cased text of a SQL text with a reference holds the name of
    the catalog. *)
Lemma reference_is_noticed rt before d m after :
  upper_cases_ascii rt -> reference d m ->
  includes (toUpperCase rt (before ++ m ++ after)) (lit "INFORMATION_SCHEMA")
  = true.
Proof.
  intros U (kw & ws & v & _ & _ & _ & V & M).
  apply view_shape in V as (v1 & t & a & b & l & e & s & -> & V1 & _).
  assert (E : exists x y, before ++ m ++ after = x ++ v1 ++ y).
  { destruct d as [d|]; [destruct M as (_ & _ & ->)|subst m].
    - exists (before ++ kw ++ ws ++ d ++ [46%N]),
             (46%N :: [t; a; b; l; e; s] ++ after).
      repeat first [rewrite <- app_assoc | progress cbn [app]]. reflexivity.
    - exists (before ++ kw ++ ws), (46%N :: [t; a; b; l; e; s] ++ after).
      repeat first [rewrite <- app_assoc | progress cbn [app]]. reflexivity. }
  destruct E as (x & y & ->). unfold same_letters in V1.
  change (List.map (canonicalize true) (lit "INFORMATION_SCHEMA"))
    with (lit "INFORMATION_SCHEMA") in V1.
  rewrite U.
  - rewrite V1. apply includes_app.
  - intros ->. discriminate V1.
  - apply (@canonical_ascii _ _ V1). repeat constructor.
Qed.

Lemma precheck_is_harmless rt sql p :
  upper_cases_ascii rt ->
  (if includes (toUpperCase rt sql) (lit "INFORMATION_SCHEMA")
   then qualifyTablePath sql p else OK sql)
  = qualifyTablePath sql p.
Proof.
  intros U. destruct (includes _ _) eqn:I; [reflexivity|].
  symmetry. apply quiet_fixed. apply quiet_no_reference.
  intros before d m after -> R.
  rewrite (reference_is_noticed before after U R) in I. discriminate.
Qed.

Lemma node_upper_cases_ascii : upper_cases_ascii node.
Proof.
  intros a w b _ _. cbn [toUpperCase node]. rewrite !map_app. reflexivity.
Qed.

(** X20. The test for the catalog's name that comes before the qualifier
    never keeps it from a text it would change or refuse.  On a runtime
    whose [toUpperCase] maps ASCII text as the standard says, a call of the
    tool [query] whose SQL text passes the gate ends as the qualifier does
    on that text: with the qualifier's error and no call to the warehouse,
    or with one query, the text as the qualifier gives it. *)
Theorem callTool_qualifies_whenever_the_qualifier_would_act
  (rt : Runtime) (bigquery : BigQuery rt) (config : ServerConfig)
  (request : ToolCall) :
  upper_cases_ascii rt ->
  tool_name request = lit "query" ->
  ~ has_forbidden_word (arg_sql request) ->
  callTool bigquery config request
  = match qualifyTablePath (arg_sql request) (projectId config) with
    | Throw e => ([], Throw e)
    | OK sql =>
        ([RunQuery (options_of config request sql)],
         query_outcome (runQuery bigquery (options_of config request sql)))
    end.
Proof.
  intros U N G. rewrite (callTool_query bigquery config _ N).
  rewrite (not_forbidden_passes G), (precheck_is_harmless _ _ U).
  reflexivity.
Qed.

Lemma callTool_qualifies_whenever_the_qualifier_would_act_witness :
  let request :=
    {| tool_name := lit "query";
       arg_sql := lit "select * from sales.information_schema.tables";
       arg_maximumBytesBilled := None |} in
  callTool acme_warehouse acme_config request
  = match qualifyTablePath (arg_sql request) (projectId acme_config) with
    | Throw e => ([], Throw e)
    | OK sql =>
        ([RunQuery (options_of acme_config request sql)],
         query_outcome
           (runQuery acme_warehouse (options_of acme_config request sql)))
    end.
Proof.
  apply (@callTool_qualifies_whenever_the_qualifier_would_act node
           acme_warehouse acme_config
           {| tool_name := lit "query";
              arg_sql := lit "select * from sales.information_schema.tables";
              arg_maximumBytesBilled := None |}).
  - exact node_upper_cases_ascii.
  - reflexivity.
  - intros F. apply test_forbidden in F. vm_compute in F. discriminate F.
Defined.

(** X21. The tool listing and the tool handler agree: a call fails with
    [Unknown tool:] and the name it was given, before any call to the
    warehouse, exactly when that name is not one the listing gives. *)
Theorem callTool_knows_exactly_the_listed_tools
  (rt : Runtime) (bigquery : BigQuery rt) (config : ServerConfig)
  (request : ToolCall) :
  callTool bigquery config request
  = ([], Throw (Error (lit "Unknown tool: " ++ tool_name request)))
  <-> ~ In (tool_name request) (List.map Tool.name listTools).
Proof.
  cbn [listTools List.map Tool.name In]. split.
  - intros H [E|[]]. symmetry in E. revert H.
    rewrite (callTool_query bigquery config _ E), E.
    unfold checkReadOnly. destruct (test forbiddenPattern _); [discriminate|].
    destruct (includes _ _).
    + destruct (qualifyTablePath _ _) as [sql|e] eqn:Q; [discriminate|].
      apply qualify_throw_inv in Q as [-> _]. discriminate.
    + discriminate.
  - intros N. apply callTool_other. intros E. apply N. left.
    symmetry. exact E.
Qed.

(** X22. The region of the command line is the region of every query.
    When the start-up succeeds on a command line in which [--location] is
    followed by a value and is not given again after it, every query the
    tool submits carries that value as its location. *)
Theorem location_option_reaches_every_query
  (rt : Runtime) (fs : FileSystem) (bigquery : BigQuery rt)
  (a b : list jsstring) (v : jsstring) (started : Started rt)
  (request : ToolCall) (options : QueryOptions) :
  initialize rt fs (a ++ lit "--location" :: v :: b) = OK started ->
  ~ In (lit "--location") b ->
  In (RunQuery options)
     (fst (callTool bigquery (started_config started) request)) ->
  query_location options = Some v.
Proof.
  intros S NI Q. rewrite (@callTool_submits_configured_location _ _ _ _ _ Q).
  unfold initialize in S.
  destruct (parseArgs _) as [c|] eqn:P; [|discriminate]. cbn [bind] in S.
  destruct (validateConfig fs c) as [c'|] eqn:V; [|discriminate].
  cbn [bind] in S.
  destruct (resourceBaseUrl_of rt c') as [base|]; [|discriminate].
  cbn [bind] in S. inversion S; subst started. cbn [started_config].
  assert (L : location c' = location c).
  { apply validateConfig_inv in V as [_ K].
    destruct (key_file_of c); [destruct K as [_ ->]|subst c']; reflexivity. }
  rewrite L.
  apply (@parseArgs_option_value (lit "location") v a b c);
    [right; left; reflexivity|exact P|exact NI].
Qed.

Lemma location_option_reaches_every_query_witness :
  query_location
    {| query := lit "SELECT 1"; query_location := Some (lit "EU");
       maximumBytesBilled := lit "1000000000" |}
  = Some (lit "EU").
Proof.
  apply (@location_option_reaches_every_query node no_files acme_warehouse
           [lit "--project-id"; lit "acme-data"] [] (lit "EU")
           (@Build_Started node
              {| projectId := lit "acme-data"; location := Some (lit "EU");
                 keyFilename := None |}
              {| options_projectId := lit "acme-data";
                 options_keyFilename := None |}
              acme_base)
           {| tool_name := lit "query"; arg_sql := lit "SELECT 1";
              arg_maximumBytesBilled := None |}).
  - reflexivity.
  - intros [].
  - vm_compute. left. reflexivity.
Defined.
